(** * FileTreeStore: a shallow embedding of the Flux store of the file tree

    The store keeps, for several independent roots, the cached child lists
    of directories, which directories are expanded and which nodes are
    selected, the watch subscriptions on directories and the pending
    directory listings.  JavaScript objects used as dictionaries are finite
    maps ([gmap string _]), [Immutable.Set] is a finite set ([gset string]),
    [Immutable.OrderedSet] is a duplicate-free list in insertion order, and
    the store itself is threaded explicitly through every method.  Methods
    that recurse over the cached hierarchy take a fuel argument and return
    [None] when it runs out. *)

From stdpp Require Import gmap strings list fin_maps.
From Stdlib Require Import Ascii String Arith Lia.

Open Scope string_scope.
Open Scope list_scope.

(** ** Data model *)

(** [new FileTreeNode(store, rootKey, nodeKey)]. *)
Record FileTreeNode := { node_rootKey : string; node_nodeKey : string }.

#[global] Instance FileTreeNode_eq_dec : EqDecision FileTreeNode.
Proof. solve_decision. Defined.

(** A pending promise and a subscription ([Disposable]) are identified by
    the order in which they were created. *)
Abbreviation Promise := nat.
Abbreviation Disposable := nat.

(** What [FileTreeHelpers.getDirectoryByKey] hands back: a directory object
    whose [onDidChange] either registers a watch or throws. *)
Record Directory := { onDidChange_throws : bool }.

(** [type StoreData]. *)
Record StoreData := {
  childKeyMap : gmap string (list string);
  isDirtyMap : gmap string bool;
  expandedKeysByRoot : gmap string (gset string);
  trackedNode : option FileTreeNode;
  previouslyExpanded : gmap string (gmap string (list string));
  isLoadingMap : gmap string Promise;
  rootKeys : list string;
  selectedKeysByRoot : gmap string (list string);
  subscriptionMap : gmap string Disposable;
  vcsStatusesByRoot : gmap string (gmap string nat)
}.

(** [type ExportStoreData].  [exportData] copies [data.childKeyMap[nodeKey]]
    for every expanded key, also when that value is [undefined]; the
    exported child map therefore maps a key to an optional list. *)
Record ExportStoreData := {
  version : nat;
  ex_childKeyMap : gmap string (option (list string));
  ex_expandedKeysByRoot : gmap string (list string);
  ex_rootKeys : list string;
  ex_selectedKeysByRoot : gmap string (list string)
}.

(** The two messages the store passes to [this._logger.error]. *)
Inductive LogEntry :=
| ErrorFetchingChildren (nodeKey : string)
| CannotSubscribe (nodeKey : string).

(** The store object together with the part of the outside world it acts
    on: the logger, the calls made to [FileTreeHelpers.fetchChildren] and the
    promises they returned that have not settled yet, the calls made to
    [directory.onDidChange], the subscriptions disposed so far, and the
    callbacks registered with [onDidChange] that are still in place: each
    under the [Disposable] that removes it, with the key it reports. *)
Record Store := {
  _data : StoreData;
  _logger : list LogEntry;
  fetchChildrenCalls : list string;
  pendingFetches : gmap Promise string;
  nextPromise : Promise;
  onDidChangeCalls : list string;
  nextDisposable : Disposable;
  disposedSubscriptions : list Disposable;
  changeCallbacks : gmap Disposable string
}.

(** [dispatcher] payloads handled by [_onDispatch]. *)
Inductive ActionPayload :=
| DELETE_SELECTED_NODES
| SET_TRACKED_NODE (rootKey nodeKey : string)
| SET_ROOT_KEYS (rootKeys : list string)
| EXPAND_NODE (rootKey nodeKey : string)
| COLLAPSE_NODE (rootKey nodeKey : string)
| SET_SELECTED_NODES_FOR_ROOT (rootKey : string) (nodeKeys : list string)
| SET_SELECTED_NODES_FOR_TREE (selectedKeysByRoot : gmap string (list string))
| CREATE_CHILD (nodeKey childKey : string)
| SET_VCS_STATUSES (rootKey : string) (vcsStatuses : gmap string nat).

(** Everything that can happen to a store: an action is dispatched, a
    consumer asks for the children of a node, a pending listing settles
    (with the child keys, or with an error), a watched directory changes,
    or the store is reloaded or reset. *)
Inductive Event :=
| Dispatch (payload : ActionPayload)
| GetChildKeys (rootKey nodeKey : string)
| FetchSettles (promise : Promise) (result : option (list string))
| DirectoryChanges (nodeKey : string)
| LoadData (data : ExportStoreData)
| Reset.

(** ** Helpers on objects and collections *)

(** [deleteProperty], [setProperty] and [mapValues] at the end of the file:
    shallow copies with one property removed, set, or all values mapped. *)
Definition deleteProperty {V} (object : gmap string V) (key : string) : gmap string V :=
  delete key object.

Definition setProperty {V} (object : gmap string V) (key : string) (newValue : V)
  : gmap string V :=
  <[key := newValue]> object.

Definition mapValues {A B} (object : gmap string A) (fn : A → B) : gmap string B :=
  fn <$> object.

(** [Object.keys(object)]. *)
Definition Object_keys {V} (object : gmap string V) : list string :=
  (map_to_list object).*1.

(** [array.forEach] with a body that may fail to return. *)
Fixpoint forEachM {A S} (body : S → A → option S) (l : list A) (s : S) : option S :=
  match l with
  | [] => Some s
  | x :: l' =>
      match body s x with
      | Some s' => forEachM body l' s'
      | None => None
      end
  end.

(** [Immutable.OrderedSet]: [has], [add], [delete], [merge] and the
    constructor from an array. *)
Definition oset_has (s : list string) (k : string) : bool := bool_decide (k ∈ s).

Definition oset_add (s : list string) (k : string) : list string :=
  if oset_has s k then s else s ++ [k].

Definition oset_delete (s : list string) (k : string) : list string :=
  filter (λ x, x ≠ k) s.

Definition oset_merge (s t : list string) : list string := foldl oset_add s t.

Definition OrderedSet (keys : list string) : list string := oset_merge [] keys.

(** Used to ensure the version we serialized is the one we deserialize. *)
Definition VERSION : nat := 1.

(** [_getDefaults]. *)
Definition _getDefaults : StoreData :=
  {| childKeyMap := ∅; isDirtyMap := ∅; expandedKeysByRoot := ∅;
     trackedNode := None; previouslyExpanded := ∅; isLoadingMap := ∅;
     rootKeys := []; selectedKeysByRoot := ∅; subscriptionMap := ∅;
     vcsStatusesByRoot := ∅ |}.

(** The store right after [new FileTreeStore()]. *)
Definition newStore : Store :=
  {| _data := _getDefaults; _logger := []; fetchChildrenCalls := [];
     pendingFetches := ∅; nextPromise := 0; onDidChangeCalls := [];
     nextDisposable := 0; disposedSubscriptions := []; changeCallbacks := ∅ |}.

(** ** [_set], one function per property of [this._data]

    [_set(key, value)] replaces one property of [this._data].  The change
    notification it schedules is the subject of the module [Notification]
    below; here only the data is followed. *)
Definition with_data (f : StoreData → StoreData) (st : Store) : Store :=
  {| _data := f (_data st); _logger := _logger st;
     fetchChildrenCalls := fetchChildrenCalls st;
     pendingFetches := pendingFetches st; nextPromise := nextPromise st;
     onDidChangeCalls := onDidChangeCalls st;
     nextDisposable := nextDisposable st;
     disposedSubscriptions := disposedSubscriptions st;
     changeCallbacks := changeCallbacks st |}.

Definition _set_childKeyMap (st : Store) (value : gmap string (list string)) : Store :=
  with_data (λ d,
    {| childKeyMap := value; isDirtyMap := isDirtyMap d;
       expandedKeysByRoot := expandedKeysByRoot d; trackedNode := trackedNode d;
       previouslyExpanded := previouslyExpanded d; isLoadingMap := isLoadingMap d;
       rootKeys := rootKeys d; selectedKeysByRoot := selectedKeysByRoot d;
       subscriptionMap := subscriptionMap d;
       vcsStatusesByRoot := vcsStatusesByRoot d |}) st.

Definition _set_isDirtyMap (st : Store) (value : gmap string bool) : Store :=
  with_data (λ d,
    {| childKeyMap := childKeyMap d; isDirtyMap := value;
       expandedKeysByRoot := expandedKeysByRoot d; trackedNode := trackedNode d;
       previouslyExpanded := previouslyExpanded d; isLoadingMap := isLoadingMap d;
       rootKeys := rootKeys d; selectedKeysByRoot := selectedKeysByRoot d;
       subscriptionMap := subscriptionMap d;
       vcsStatusesByRoot := vcsStatusesByRoot d |}) st.

Definition _set_expandedKeysByRoot (st : Store) (value : gmap string (gset string))
  : Store :=
  with_data (λ d,
    {| childKeyMap := childKeyMap d; isDirtyMap := isDirtyMap d;
       expandedKeysByRoot := value; trackedNode := trackedNode d;
       previouslyExpanded := previouslyExpanded d; isLoadingMap := isLoadingMap d;
       rootKeys := rootKeys d; selectedKeysByRoot := selectedKeysByRoot d;
       subscriptionMap := subscriptionMap d;
       vcsStatusesByRoot := vcsStatusesByRoot d |}) st.

Definition _set_trackedNode (st : Store) (value : option FileTreeNode) : Store :=
  with_data (λ d,
    {| childKeyMap := childKeyMap d; isDirtyMap := isDirtyMap d;
       expandedKeysByRoot := expandedKeysByRoot d; trackedNode := value;
       previouslyExpanded := previouslyExpanded d; isLoadingMap := isLoadingMap d;
       rootKeys := rootKeys d; selectedKeysByRoot := selectedKeysByRoot d;
       subscriptionMap := subscriptionMap d;
       vcsStatusesByRoot := vcsStatusesByRoot d |}) st.

Definition _set_previouslyExpanded (st : Store)
    (value : gmap string (gmap string (list string))) : Store :=
  with_data (λ d,
    {| childKeyMap := childKeyMap d; isDirtyMap := isDirtyMap d;
       expandedKeysByRoot := expandedKeysByRoot d; trackedNode := trackedNode d;
       previouslyExpanded := value; isLoadingMap := isLoadingMap d;
       rootKeys := rootKeys d; selectedKeysByRoot := selectedKeysByRoot d;
       subscriptionMap := subscriptionMap d;
       vcsStatusesByRoot := vcsStatusesByRoot d |}) st.

Definition _set_isLoadingMap (st : Store) (value : gmap string Promise) : Store :=
  with_data (λ d,
    {| childKeyMap := childKeyMap d; isDirtyMap := isDirtyMap d;
       expandedKeysByRoot := expandedKeysByRoot d; trackedNode := trackedNode d;
       previouslyExpanded := previouslyExpanded d; isLoadingMap := value;
       rootKeys := rootKeys d; selectedKeysByRoot := selectedKeysByRoot d;
       subscriptionMap := subscriptionMap d;
       vcsStatusesByRoot := vcsStatusesByRoot d |}) st.

Definition _set_rootKeys (st : Store) (value : list string) : Store :=
  with_data (λ d,
    {| childKeyMap := childKeyMap d; isDirtyMap := isDirtyMap d;
       expandedKeysByRoot := expandedKeysByRoot d; trackedNode := trackedNode d;
       previouslyExpanded := previouslyExpanded d; isLoadingMap := isLoadingMap d;
       rootKeys := value; selectedKeysByRoot := selectedKeysByRoot d;
       subscriptionMap := subscriptionMap d;
       vcsStatusesByRoot := vcsStatusesByRoot d |}) st.

Definition _set_selectedKeysByRoot (st : Store) (value : gmap string (list string))
  : Store :=
  with_data (λ d,
    {| childKeyMap := childKeyMap d; isDirtyMap := isDirtyMap d;
       expandedKeysByRoot := expandedKeysByRoot d; trackedNode := trackedNode d;
       previouslyExpanded := previouslyExpanded d; isLoadingMap := isLoadingMap d;
       rootKeys := rootKeys d; selectedKeysByRoot := value;
       subscriptionMap := subscriptionMap d;
       vcsStatusesByRoot := vcsStatusesByRoot d |}) st.

Definition _set_subscriptionMap (st : Store) (value : gmap string Disposable) : Store :=
  with_data (λ d,
    {| childKeyMap := childKeyMap d; isDirtyMap := isDirtyMap d;
       expandedKeysByRoot := expandedKeysByRoot d; trackedNode := trackedNode d;
       previouslyExpanded := previouslyExpanded d; isLoadingMap := isLoadingMap d;
       rootKeys := rootKeys d; selectedKeysByRoot := selectedKeysByRoot d;
       subscriptionMap := value;
       vcsStatusesByRoot := vcsStatusesByRoot d |}) st.

Definition _set_vcsStatusesByRoot (st : Store)
    (value : gmap string (gmap string nat)) : Store :=
  with_data (λ d,
    {| childKeyMap := childKeyMap d; isDirtyMap := isDirtyMap d;
       expandedKeysByRoot := expandedKeysByRoot d; trackedNode := trackedNode d;
       previouslyExpanded := previouslyExpanded d; isLoadingMap := isLoadingMap d;
       rootKeys := rootKeys d; selectedKeysByRoot := selectedKeysByRoot d;
       subscriptionMap := subscriptionMap d;
       vcsStatusesByRoot := value |}) st.

(** [this._logger.error(...)] and [subscription.dispose()]. *)
Definition logger_error (st : Store) (entry : LogEntry) : Store :=
  {| _data := _data st; _logger := _logger st ++ [entry];
     fetchChildrenCalls := fetchChildrenCalls st;
     pendingFetches := pendingFetches st; nextPromise := nextPromise st;
     onDidChangeCalls := onDidChangeCalls st;
     nextDisposable := nextDisposable st;
     disposedSubscriptions := disposedSubscriptions st;
     changeCallbacks := changeCallbacks st |}.

Definition dispose (st : Store) (subscription : Disposable) : Store :=
  {| _data := _data st; _logger := _logger st;
     fetchChildrenCalls := fetchChildrenCalls st;
     pendingFetches := pendingFetches st; nextPromise := nextPromise st;
     onDidChangeCalls := onDidChangeCalls st;
     nextDisposable := nextDisposable st;
     disposedSubscriptions := disposedSubscriptions st ++ [subscription];
     changeCallbacks := delete subscription (changeCallbacks st) |}.

(** ** The store's methods *)

Section Methods.

(** [FileTreeHelpers] is not part of the sources at hand.  Its key
    classifier and its directory lookup are parameters of the model. *)
Variable isDirKey : string → bool.
Variable getDirectoryByKey : string → option Directory.

Definition getTrackedNode (st : Store) : option FileTreeNode :=
  trackedNode (_data st).

Definition getRootKeys (st : Store) : list string := rootKeys (_data st).

(** Returns the key of the *first* root node containing the given node:
    [array.find(rootKeys, rootKey => nodeKey.startsWith(rootKey))]. *)
Definition getRootForKey (st : Store) (nodeKey : string) : option string :=
  List.find (λ rootKey, String.prefix rootKey nodeKey) (rootKeys (_data st)).

Definition isEmpty (st : Store) : bool :=
  Nat.eqb (List.length (getRootKeys st)) 0.

Definition _getLoading (st : Store) (nodeKey : string) : option Promise :=
  isLoadingMap (_data st) !! nodeKey.

Definition isLoading (st : Store) (rootKey nodeKey : string) : bool :=
  bool_decide (is_Some (_getLoading st nodeKey)).

Definition _getExpandedKeys (st : Store) (rootKey : string) : gset string :=
  default ∅ (expandedKeysByRoot (_data st) !! rootKey).

Definition isExpanded (st : Store) (rootKey nodeKey : string) : bool :=
  bool_decide (nodeKey ∈ _getExpandedKeys st rootKey).

Definition isRootKey (st : Store) (nodeKey : string) : bool :=
  bool_decide (nodeKey ∈ rootKeys (_data st)).

(** [getSelectedKeys(rootKey?)]: without a root, the union of all
    selections; with one, that root's selection or an empty set. *)
Definition getSelectedKeys (st : Store) (rootKey : option string) : list string :=
  match rootKey with
  | None =>
      foldl (λ selectedKeys root,
               oset_merge selectedKeys
                 (default [] (selectedKeysByRoot (_data st) !! root)))
            [] (Object_keys (selectedKeysByRoot (_data st)))
  | Some rootKey => default [] (selectedKeysByRoot (_data st) !! rootKey)
  end.

Definition isSelected (st : Store) (rootKey nodeKey : string) : bool :=
  oset_has (getSelectedKeys st (Some rootKey)) nodeKey.

Definition isDirty (st : Store) (nodeKey : string) : bool :=
  default false (isDirtyMap (_data st) !! nodeKey).

Definition getNode (rootKey nodeKey : string) : FileTreeNode :=
  {| node_rootKey := rootKey; node_nodeKey := nodeKey |}.

Definition getRootNode (rootKey : string) : FileTreeNode := getNode rootKey rootKey.

Definition _setVcsStatuses (st : Store) (rootKey : string)
    (vcsStatuses : gmap string nat) : Store :=
  if decide (vcsStatusesByRoot (_data st) !! rootKey = Some vcsStatuses) then st
  else _set_vcsStatusesByRoot st
         (setProperty (vcsStatusesByRoot (_data st)) rootKey vcsStatuses).

Definition getVcsStatusCode (st : Store) (rootKey nodeKey : string) : option nat :=
  match vcsStatusesByRoot (_data st) !! rootKey with
  | Some map => map !! nodeKey
  | None => None
  end.

Definition getCachedChildKeys (st : Store) (rootKey nodeKey : string) : list string :=
  default [] (childKeyMap (_data st) !! nodeKey).

Definition _setLoading (st : Store) (nodeKey : string) (value : Promise) : Store :=
  _set_isLoadingMap st (setProperty (isLoadingMap (_data st)) nodeKey value).

(** Resets the node to be kept in view if no more data is being awaited. *)
Definition _checkTrackedNode (st : Store) : Store :=
  match trackedNode (_data st) with
  | Some _ =>
      if decide (isLoadingMap (_data st) = ∅) then _set_trackedNode st None else st
  | None => st
  end.

Definition _clearLoading (st : Store) (nodeKey : string) : Store :=
  _checkTrackedNode
    (_set_isLoadingMap st (deleteProperty (isLoadingMap (_data st)) nodeKey)).

(** [FileTreeHelpers.fetchChildren(nodeKey)]: one more call to the listing
    collaborator, answered by a fresh pending promise. *)
Definition fetchChildren (st : Store) (nodeKey : string) : Store * Promise :=
  ({| _data := _data st; _logger := _logger st;
      fetchChildrenCalls := fetchChildrenCalls st ++ [nodeKey];
      pendingFetches := <[nextPromise st := nodeKey]> (pendingFetches st);
      nextPromise := S (nextPromise st);
      onDidChangeCalls := onDidChangeCalls st;
      nextDisposable := nextDisposable st;
      disposedSubscriptions := disposedSubscriptions st;
      changeCallbacks := changeCallbacks st |},
   nextPromise st).

(** If a fetch is not already in progress initiate a fetch now.  The
    [catch] and [then] callbacks run when the promise settles; they are
    [_fetchChildKeys_catch] and [_fetchChildKeys_then] below.  The promise
    stored in the loading map and the one returned are the same object. *)
Definition _fetchChildKeys (st : Store) (nodeKey : string) : Store * Promise :=
  match _getLoading st nodeKey with
  | Some existingPromise => (st, existingPromise)
  | None =>
      let '(st, promise) := fetchChildren st nodeKey in
      (_setLoading st nodeKey promise, promise)
  end.

(** Returns known child keys and queues a fetch if children are missing. *)
Definition getChildKeys (st : Store) (rootKey nodeKey : string)
  : Store * list string :=
  let childKeys := childKeyMap (_data st) !! nodeKey in
  let st :=
    if bool_decide (childKeys = None) || isDirty st nodeKey
    then (_fetchChildKeys st nodeKey).1
    else _checkTrackedNode st in
  (st, default [] childKeys).

Definition _setExpandedKeys (st : Store) (rootKey : string)
    (expandedKeys : gset string) : Store :=
  _set_expandedKeysByRoot st
    (setProperty (expandedKeysByRoot (_data st)) rootKey expandedKeys).

Definition _deleteSelectedKeys (st : Store) (rootKey : string) : Store :=
  _set_selectedKeysByRoot st (deleteProperty (selectedKeysByRoot (_data st)) rootKey).

Definition _setSelectedKeys (st : Store) (rootKey : string)
    (selectedKeys : list string) : Store :=
  let st := _set_trackedNode st None in
  _set_selectedKeysByRoot st
    (setProperty (selectedKeysByRoot (_data st)) rootKey selectedKeys).

(** The selected keys of root keys not in [selectedKeysByRoot] are deleted. *)
Definition _setSelectedKeysByRoot (st : Store)
    (selectedKeysByRoot : gmap string (list string)) : Store :=
  foldl (λ st rootKey,
           match selectedKeysByRoot !! rootKey with
           | Some selectedKeys => _setSelectedKeys st rootKey selectedKeys
           | None => _deleteSelectedKeys st rootKey
           end)
        st (getRootKeys st).

Definition _addSubscription (st : Store) (nodeKey : string) : Store :=
  match getDirectoryByKey nodeKey with
  | None => st
  | Some directory =>
      (* Remove the directory's dirty marker regardless of whether a
         subscription already exists. *)
      let st := _set_isDirtyMap st (deleteProperty (isDirtyMap (_data st)) nodeKey) in
      (* Don't create a new subscription if one already exists. *)
      match subscriptionMap (_data st) !! nodeKey with
      | Some _ => st
      | None =>
          let st :=
            {| _data := _data st; _logger := _logger st;
               fetchChildrenCalls := fetchChildrenCalls st;
               pendingFetches := pendingFetches st; nextPromise := nextPromise st;
               onDidChangeCalls := onDidChangeCalls st ++ [nodeKey];
               nextDisposable := nextDisposable st;
               disposedSubscriptions := disposedSubscriptions st;
               changeCallbacks := changeCallbacks st |} in
          if onDidChange_throws directory
          then logger_error st (CannotSubscribe nodeKey)
          else
            (* The callback runs [_onDirectoryChange(nodeKey)]. *)
            let subscription := nextDisposable st in
            let st :=
              {| _data := _data st; _logger := _logger st;
                 fetchChildrenCalls := fetchChildrenCalls st;
                 pendingFetches := pendingFetches st; nextPromise := nextPromise st;
                 onDidChangeCalls := onDidChangeCalls st;
                 nextDisposable := S subscription;
                 disposedSubscriptions := disposedSubscriptions st;
                 changeCallbacks := <[subscription := nodeKey]> (changeCallbacks st) |} in
            _set_subscriptionMap st
              (setProperty (subscriptionMap (_data st)) nodeKey subscription)
      end
  end.

Definition _removeSubscription (st : Store) (rootKey nodeKey : string) : Store :=
  match subscriptionMap (_data st) !! nodeKey with
  | None => st
  | Some subscription =>
      let hasRemainingSubscribers :=
        existsb (λ otherRootKey,
                   negb (bool_decide (otherRootKey = rootKey))
                   && isExpanded st otherRootKey nodeKey)
                (rootKeys (_data st)) in
      if hasRemainingSubscribers then st
      else
        let st := dispose st subscription in
        let st :=
          _set_subscriptionMap st (deleteProperty (subscriptionMap (_data st)) nodeKey) in
        (* No more notifications for this directory: assume its child list
           is dirty. *)
        _set_isDirtyMap st (setProperty (isDirtyMap (_data st)) nodeKey true)
  end.

Definition _removeAllSubscriptions (st : Store) (nodeKey : string) : Store :=
  match subscriptionMap (_data st) !! nodeKey with
  | Some subscription =>
      let st := dispose st subscription in
      _set_subscriptionMap st (deleteProperty (subscriptionMap (_data st)) nodeKey)
  | None => st
  end.

(** The two loops that close [_purgeDirectory]: they run over the roots of
    the map read before the loop and rewrite a root's set only when it
    holds [nodeKey]. *)
Definition purge_expanded (st : Store) (nodeKey : string) : Store :=
  let expandedKeysByRoot := expandedKeysByRoot (_data st) in
  foldl (λ st rootKey,
           match expandedKeysByRoot !! rootKey with
           | Some expandedKeys =>
               if bool_decide (nodeKey ∈ expandedKeys)
               then _setExpandedKeys st rootKey (expandedKeys ∖ {[nodeKey]})
               else st
           | None => st
           end)
        st (Object_keys expandedKeysByRoot).

Definition purge_selected (st : Store) (nodeKey : string) : Store :=
  let selectedKeysByRoot := selectedKeysByRoot (_data st) in
  foldl (λ st rootKey,
           match selectedKeysByRoot !! rootKey with
           | Some selectedKeys =>
               if oset_has selectedKeys nodeKey
               then _setSelectedKeys st rootKey (oset_delete selectedKeys nodeKey)
               else st
           | None => st
           end)
        st (Object_keys selectedKeysByRoot).

(** This is called when a directory is physically removed from disk.
    When we purge a directory, we need to purge its child directories
    also. *)
Fixpoint _purgeDirectory (fuel : nat) (st : Store) (nodeKey : string)
  : option Store :=
  match fuel with
  | 0 => None
  | S fuel =>
      st ← match childKeyMap (_data st) !! nodeKey with
           | Some childKeys =>
               st ← forEachM (λ st childKey,
                                if isDirKey childKey
                                then _purgeDirectory fuel st childKey
                                else Some st)
                             childKeys st;
               Some (_set_childKeyMap st
                       (deleteProperty (childKeyMap (_data st)) nodeKey))
           | None => Some st
           end;
      let st := _removeAllSubscriptions st nodeKey in
      let st := purge_expanded st nodeKey in
      Some (purge_selected st nodeKey)
  end.

Definition _purgeRoot (st : Store) (rootKey : string) : Store :=
  let st :=
    match expandedKeysByRoot (_data st) !! rootKey with
    | Some expandedKeys =>
        let st := foldl (λ st nodeKey, _removeSubscription st rootKey nodeKey)
                        st (elements expandedKeys) in
        _set_expandedKeysByRoot st
          (deleteProperty (expandedKeysByRoot (_data st)) rootKey)
    | None => st
    end in
  let st :=
    _set_selectedKeysByRoot st
      (deleteProperty (selectedKeysByRoot (_data st)) rootKey) in
  (* Remove all child keys so that on re-addition of this root the
     children will be fetched again. *)
  let st :=
    match childKeyMap (_data st) !! rootKey with
    | Some childKeys =>
        let st :=
          foldl (λ st childKey,
                   if isDirKey childKey
                   then _set_childKeyMap st
                          (deleteProperty (childKeyMap (_data st)) childKey)
                   else st)
                st childKeys in
        _set_childKeyMap st (deleteProperty (childKeyMap (_data st)) rootKey)
    | None => st
    end in
  _set_vcsStatusesByRoot st (deleteProperty (vcsStatusesByRoot (_data st)) rootKey).

Definition _setRootKeys (st : Store) (rootKeys : list string) : Store :=
  let oldRootKeys := getRootKeys st in
  let st :=
    foldl (λ st rootKey,
             if bool_decide (rootKey ∈ rootKeys) then st else _purgeRoot st rootKey)
          st oldRootKeys in
  _set_rootKeys st rootKeys.

Definition _setChildKeys (fuel : nat) (st : Store) (nodeKey : string)
    (childKeys : list string) : option Store :=
  st ← match childKeyMap (_data st) !! nodeKey with
       | Some oldChildKeys =>
           forEachM (λ st childKey,
                       (* If it's a directory and it doesn't exist in the
                          new set of child keys. *)
                       if isDirKey childKey && negb (bool_decide (childKey ∈ childKeys))
                       then _purgeDirectory fuel st childKey
                       else Some st)
                    oldChildKeys st
       | None => Some st
       end;
  Some (_set_childKeyMap st (setProperty (childKeyMap (_data st)) nodeKey childKeys)).

(** Sets a single child node, and marks the node as dirty so its
    ancestors are fetched again on reload of the tree. *)
Definition _createChild (fuel : nat) (st : Store) (nodeKey childKey : string)
  : option Store :=
  st ← _setChildKeys fuel st nodeKey [childKey];
  Some (_set_isDirtyMap st (setProperty (isDirtyMap (_data st)) nodeKey true)).

Definition _setTrackedNode (st : Store) (rootKey nodeKey : string) : Store :=
  _set_trackedNode st
    (Some {| node_rootKey := rootKey; node_nodeKey := nodeKey |}).

Fixpoint _expandNode (fuel : nat) (st : Store) (rootKey nodeKey : string)
  : option Store :=
  match fuel with
  | 0 => None
  | S fuel =>
      let st := _setExpandedKeys st rootKey ({[nodeKey]} ∪ _getExpandedKeys st rootKey) in
      (* If we have child nodes that should also be expanded, expand them
         now. *)
      let previouslyExpanded_ := default ∅ (previouslyExpanded (_data st) !! rootKey) in
      match previouslyExpanded_ !! nodeKey with
      | Some childKeys =>
          st ← forEachM (λ st childKey, _expandNode fuel st rootKey childKey)
                        childKeys st;
          (* Clear the previouslyExpanded list since we're done with it. *)
          let previouslyExpanded_ := deleteProperty previouslyExpanded_ nodeKey in
          Some (_set_previouslyExpanded st
                  (setProperty (previouslyExpanded (_data st)) rootKey
                     previouslyExpanded_))
      | None => Some st
      end
  end.

(** The body of the [childKeys.forEach] of [_collapseNode].  The loop
    carries the store, the local [selectedKeys] and the local
    [expandedChildKeys]. *)
Definition _collapseNode_child
    (collapse : Store → string → string → option Store) (rootKey : string)
    (acc : Store * option (list string) * list string) (childKey : string)
  : option (Store * option (list string) * list string) :=
  let '(st, selectedKeys, expandedChildKeys) := acc in
  (* Unselect each child. *)
  let '(st, selectedKeys) :=
    match selectedKeys with
    | Some keys =>
        if oset_has keys childKey
        then
          let keys := oset_delete keys childKey in
          (_setSelectedKeys st rootKey keys, Some keys)
        else (st, selectedKeys)
    | None => (st, selectedKeys)
    end in
  (* Collapse each child directory. *)
  if isDirKey childKey && isExpanded st rootKey childKey
  then
    st ← collapse st rootKey childKey;
    Some (st, selectedKeys, expandedChildKeys ++ [childKey])
  else Some (st, selectedKeys, expandedChildKeys).

(** When we collapse a node we need to do some cleanup removing
    subscriptions and selection. *)
Fixpoint _collapseNode (fuel : nat) (st : Store) (rootKey nodeKey : string)
  : option Store :=
  match fuel with
  | 0 => None
  | S fuel =>
      let childKeys := childKeyMap (_data st) !! nodeKey in
      let selectedKeys := selectedKeysByRoot (_data st) !! rootKey in
      '(st, _, expandedChildKeys) ←
        forEachM (_collapseNode_child (_collapseNode fuel) rootKey)
                 (default [] childKeys) (st, selectedKeys, []);
      (* Save the list of expanded child nodes so next time we expand this
         node we can expand these children. *)
      let previouslyExpanded_ := default ∅ (previouslyExpanded (_data st) !! rootKey) in
      let previouslyExpanded_ :=
        match expandedChildKeys with
        | [] => deleteProperty previouslyExpanded_ nodeKey
        | _ => setProperty previouslyExpanded_ nodeKey expandedChildKeys
        end in
      let st :=
        _set_previouslyExpanded st
          (setProperty (previouslyExpanded (_data st)) rootKey previouslyExpanded_) in
      let st :=
        _setExpandedKeys st rootKey (_getExpandedKeys st rootKey ∖ {[nodeKey]}) in
      Some (_removeSubscription st rootKey nodeKey)
  end.

(** The [catch] callback of [_fetchChildKeys]: collapse the node and clear
    its loading state on error so the user can retry expanding it. *)
Definition _fetchChildKeys_catch (fuel : nat) (st : Store) (nodeKey : string)
  : option Store :=
  let st := logger_error st (ErrorFetchingChildren nodeKey) in
  st ← match getRootForKey st nodeKey with
       | Some rootKey => _collapseNode fuel st rootKey nodeKey
       | None => Some st
       end;
  Some (_clearLoading st nodeKey).

(** The [then] callback of [_fetchChildKeys].  If this node's root went
    away while the promise was resolving, it does no more work. *)
Definition _fetchChildKeys_then (fuel : nat) (st : Store) (nodeKey : string)
    (childKeys : list string) : option Store :=
  match getRootForKey st nodeKey with
  | None => Some st
  | Some _ =>
      st ← _setChildKeys fuel st nodeKey childKeys;
      let st := _addSubscription st nodeKey in
      Some (_clearLoading st nodeKey)
  end.

Definition _onDirectoryChange (st : Store) (nodeKey : string) : Store :=
  (_fetchChildKeys st nodeKey).1.

(** The body of the [while] loop of [getVisibleNodes].  The array
    [rootKeysForDirectoriesToExplore] is used as a stack; the list holds
    its elements from the last one to the first, so that [pop] takes the
    head and [push] conses. *)
Fixpoint getVisibleNodes_loop (fuel : nat) (st : Store) (rootKey : string)
    (rootKeysForDirectoriesToExplore : list string)
    (visibleNodes : list FileTreeNode) : option (list FileTreeNode) :=
  match rootKeysForDirectoriesToExplore with
  | [] => Some visibleNodes
  | key :: stack =>
      match fuel with
      | 0 => None
      | S fuel =>
          let visibleNodes := visibleNodes ++ [getNode key key] in
          match childKeyMap (_data st) !! key with
          | Some childKeys =>
              if isDirty st key
              then getVisibleNodes_loop fuel st rootKey stack visibleNodes
              else
                let '(stack, visibleNodes) :=
                  foldl (λ '(stack, visibleNodes) childKey,
                           if isDirKey childKey
                           then
                             if isExpanded st rootKey key
                             then (childKey :: stack, visibleNodes)
                             else (stack, visibleNodes)
                           else (stack, visibleNodes ++ [getNode key childKey]))
                        (stack, visibleNodes) childKeys in
                getVisibleNodes_loop fuel st rootKey stack visibleNodes
          | None => getVisibleNodes_loop fuel st rootKey stack visibleNodes
          end
      end
  end.

(** Returns a list of the nodes that are currently visible/expanded in the
    file tree. *)
Definition getVisibleNodes (fuel : nat) (st : Store) (rootKey : string)
  : option (list FileTreeNode) :=
  if negb (isRootKey st rootKey) then Some []
  else if negb (isExpanded st rootKey rootKey) then Some [getNode rootKey rootKey]
  else getVisibleNodes_loop fuel st rootKey [rootKey] [].

(** Returns all selected nodes across all roots in the tree.  [getNode]
    makes a new [FileTreeNode] at every call and the set tells objects
    apart by identity, so that every [add] appends its node. *)
Definition getSelectedNodes (st : Store) : list FileTreeNode :=
  foldl (λ selectedNodes rootKey,
           foldl (λ selectedNodes nodeKey,
                    selectedNodes ++ [getNode rootKey nodeKey])
                 selectedNodes (getSelectedKeys st (Some rootKey)))
        [] (rootKeys (_data st)).

Definition getSingleSelectedNode (st : Store) : option FileTreeNode :=
  let selectedRoots := Object_keys (selectedKeysByRoot (_data st)) in
  match selectedRoots with
  | [rootKey] =>
      let selectedKeys := getSelectedKeys st (Some rootKey) in
      match selectedKeys with
      | [first] => Some (getNode rootKey first)
      | _ => None
      end
  | _ =>
      (* There is more than one root with selected nodes. No bueno. *)
      None
  end.

Definition exportData (st : Store) : ExportStoreData :=
  let data := _data st in
  (* Grab the child keys of only the expanded nodes. *)
  let childKeyMap_ :=
    foldl (λ childKeyMap_ rootKey,
             foldl (λ childKeyMap_ nodeKey,
                      <[nodeKey := childKeyMap data !! nodeKey]> childKeyMap_)
                   childKeyMap_
                   (elements (default ∅ (expandedKeysByRoot data !! rootKey))))
          ∅ (Object_keys (expandedKeysByRoot data)) in
  {| version := VERSION;
     ex_childKeyMap := childKeyMap_;
     ex_expandedKeysByRoot := mapValues (expandedKeysByRoot data) elements;
     ex_rootKeys := rootKeys data;
     ex_selectedKeysByRoot := mapValues (selectedKeysByRoot data) (λ keySet, keySet) |}.

(** Imports store data from a previous export. *)
Definition loadData (st : Store) (data : ExportStoreData) : Store :=
  (* Ensure we are not trying to load data from an earlier version. *)
  if negb (Nat.eqb (version data) VERSION) then st
  else
    let st :=
      with_data (λ _,
        {| childKeyMap := omap id (ex_childKeyMap data);
           isDirtyMap := ∅;
           expandedKeysByRoot :=
             mapValues (ex_expandedKeysByRoot data) (λ keys, list_to_set keys);
           trackedNode := None; previouslyExpanded := ∅; isLoadingMap := ∅;
           rootKeys := ex_rootKeys data;
           selectedKeysByRoot := mapValues (ex_selectedKeysByRoot data) OrderedSet;
           subscriptionMap := ∅; vcsStatusesByRoot := ∅ |}) st in
    foldl (λ st nodeKey, (_fetchChildKeys (_addSubscription st nodeKey) nodeKey).1)
          st (Object_keys (ex_childKeyMap data)).

Definition reset (st : Store) : Store :=
  let st :=
    foldl (λ st nodeKey,
             match subscriptionMap (_data st) !! nodeKey with
             | Some subscription => dispose st subscription
             | None => st
             end)
          st (Object_keys (subscriptionMap (_data st))) in
  with_data (λ _, _getDefaults) st.

(** [_deleteSelectedNodes] moves files to the trash or deletes them
    remotely; it does not write to the store. *)
Definition _deleteSelectedNodes (st : Store) : Store := st.

Definition _onDispatch (fuel : nat) (st : Store) (payload : ActionPayload)
  : option Store :=
  match payload with
  | DELETE_SELECTED_NODES => Some (_deleteSelectedNodes st)
  | SET_TRACKED_NODE rootKey nodeKey => Some (_setTrackedNode st rootKey nodeKey)
  | SET_ROOT_KEYS rootKeys => Some (_setRootKeys st rootKeys)
  | EXPAND_NODE rootKey nodeKey => _expandNode fuel st rootKey nodeKey
  | COLLAPSE_NODE rootKey nodeKey => _collapseNode fuel st rootKey nodeKey
  | SET_SELECTED_NODES_FOR_ROOT rootKey nodeKeys =>
      Some (_setSelectedKeys st rootKey nodeKeys)
  | SET_SELECTED_NODES_FOR_TREE selectedKeysByRoot =>
      Some (_setSelectedKeysByRoot st selectedKeysByRoot)
  | CREATE_CHILD nodeKey childKey => _createChild fuel st nodeKey childKey
  | SET_VCS_STATUSES rootKey vcsStatuses =>
      Some (_setVcsStatuses st rootKey vcsStatuses)
  end.

(** A callback registered for [nodeKey] is still in place. *)
Definition hasChangeCallback (st : Store) (nodeKey : string) : bool :=
  bool_decide (nodeKey ∈ (map_to_list (changeCallbacks st)).*2).

(** One event applied to the store.  A promise settles at most once.  A
    directory reports a change as long as a callback registered for it has
    not been disposed, whether or not [subscriptionMap] still holds its
    subscription: [loadData] replaces the map without disposing. *)
Definition step (fuel : nat) (st : Store) (ev : Event) : option Store :=
  match ev with
  | Dispatch payload => _onDispatch fuel st payload
  | GetChildKeys rootKey nodeKey => Some (getChildKeys st rootKey nodeKey).1
  | FetchSettles promise result =>
      match pendingFetches st !! promise with
      | Some nodeKey =>
          let st :=
            {| _data := _data st; _logger := _logger st;
               fetchChildrenCalls := fetchChildrenCalls st;
               pendingFetches := delete promise (pendingFetches st);
               nextPromise := nextPromise st;
               onDidChangeCalls := onDidChangeCalls st;
               nextDisposable := nextDisposable st;
               disposedSubscriptions := disposedSubscriptions st;
               changeCallbacks := changeCallbacks st |} in
          match result with
          | Some childKeys => _fetchChildKeys_then fuel st nodeKey childKeys
          | None => _fetchChildKeys_catch fuel st nodeKey
          end
      | None => None
      end
  | DirectoryChanges nodeKey =>
      if hasChangeCallback st nodeKey
      then Some (_onDirectoryChange st nodeKey)
      else None
  | LoadData data => Some (loadData st data)
  | Reset => Some (reset st)
  end.

(** The states the store can be in: those a finite run of events leads
    to from a new store. *)
Inductive reachable : Store → Prop :=
| reachable_new : reachable newStore
| reachable_step fuel st ev st' :
    reachable st → step fuel st ev = Some st' → reachable st'.

(** A run of events, one after the other. *)
Fixpoint run (fuel : nat) (st : Store) (events : list Event) : option Store :=
  match events with
  | [] => Some st
  | ev :: events => st ← step fuel st ev; run fuel st events
  end.

End Methods.

(** ** Change notifications

    [_set] replaces [this._data] and tells the subscribers.  The immediates
    queue of the event loop is a list of timer handles; every callback the
    store schedules emits one ['change'] event.  [setProperty(this._data,
    key, value)] returns [this._data] itself when the property already holds
    that very value: the argument [newData] of [_set] is [None] then, and
    the copy otherwise. *)
Module Notification.
Section Emitter.

Variable Data : Type.

Record State := {
  _data : Data;
  _timer : option nat;
  immediates : list nat;
  nextImmediate : nat;
  emitted : nat
}.

Definition init (data : Data) : State :=
  {| _data := data; _timer := None; immediates := []; nextImmediate := 0;
     emitted := 0 |}.

(** [clearImmediate(handle)]: the callback, if still queued, is dropped. *)
Definition clearImmediate (st : State) (handle : option nat) : State :=
  match handle with
  | Some h =>
      {| _data := _data st; _timer := _timer st;
         immediates := filter (λ x, x ≠ h) (immediates st);
         nextImmediate := nextImmediate st; emitted := emitted st |}
  | None => st
  end.

(** [setImmediate(() => this._emitter.emit('change'))]. *)
Definition setImmediate (st : State) : State * nat :=
  ({| _data := _data st; _timer := _timer st;
      immediates := immediates st ++ [nextImmediate st];
      nextImmediate := S (nextImmediate st); emitted := emitted st |},
   nextImmediate st).

(** [this._emitter.emit('change')]. *)
Definition emit_change (st : State) : State :=
  {| _data := _data st; _timer := _timer st; immediates := immediates st;
     nextImmediate := nextImmediate st; emitted := S (emitted st) |}.

Definition _set (st : State) (newData : option Data) (flush : bool) : State :=
  match newData with
  | None => st
  | Some newData =>
      let st :=
        {| _data := newData; _timer := _timer st; immediates := immediates st;
           nextImmediate := nextImmediate st; emitted := emitted st |} in
      let st := clearImmediate st (_timer st) in
      if flush then
        (* If [flush] is true, emit the change immediately. *)
        emit_change st
      else
        (* If not flushing, de-bounce to prevent successive updates in
           the same event loop. *)
        let '(st, handle) := setImmediate st in
        {| _data := _data st; _timer := Some handle;
           immediates := immediates st; nextImmediate := nextImmediate st;
           emitted := emitted st |}
  end.

(** [_setTrackedNode]: the value is a fresh object literal, so
    [setProperty] always returns a copy, and the change is flushed. *)
Definition _setTrackedNode (st : State) (newData : Data) : State :=
  _set st (Some newData) true.

(** The end of a tick of the event loop: the queued immediates run. *)
Definition runImmediates (st : State) : State :=
  {| _data := _data st; _timer := _timer st; immediates := [];
     nextImmediate := nextImmediate st;
     emitted := emitted st + List.length (immediates st) |}.

(** A mutation is a run of non-flushing [_set] calls, as [_setSelectedKeys]
    or [_collapseNode] make them; it changes the state when one of its
    calls replaces the data. *)
Definition mutation := list (option Data).

Definition state_changing (m : mutation) : Prop := ∃ d, Some d ∈ m.

Definition apply_mutation (st : State) (m : mutation) : State :=
  foldl (λ st newData, _set st newData false) st m.

Definition apply_mutations (st : State) (ms : list mutation) : State :=
  foldl apply_mutation st ms.

(** The states of the emitter: a new store, then [_set] calls and ticks. *)
Inductive reachable : State → Prop :=
| reachable_init data : reachable (init data)
| reachable_set st newData flush : reachable st → reachable (_set st newData flush)
| reachable_tick st : reachable st → reachable (runImmediates st).

End Emitter.
End Notification.

(** ** A concrete environment for the examples *)

(** Modelled from the spec: [FileTreeHelpers.isDirKey] is not among the
    sources; node keys ending in a distinguished suffix are container keys.
    The examples take the slash as that suffix. *)
Fixpoint isDirKey_slash (key : string) : bool :=
  match key with
  | EmptyString => false
  | String c EmptyString => Ascii.eqb c "/"%char
  | String _ rest => isDirKey_slash rest
  end.

(** Modelled from the spec: [FileTreeHelpers.getDirectoryByKey] is not among
    the sources; in the examples every container key is a directory that can
    be watched, and a leaf key is no directory. *)
Definition getDirectoryByKey_watchable (key : string) : option Directory :=
  if isDirKey_slash key then Some {| onDidChange_throws := false |} else None.

(** ** Statements and examples *)

(** "Exactly one root has a non-empty selection and that root's selection
    contains exactly one key." *)
Definition exactly_one_root_selects_one_key (st : Store) : Prop :=
  ∃ r k, selectedKeysByRoot (_data st) !! r = Some [k] ∧
         ∀ r' s, selectedKeysByRoot (_data st) !! r' = Some s → s ≠ [] → r' = r.

(** Two roots; the only selected node of the first is unselected when its
    parent is collapsed, which leaves that root with an empty selection;
    then one node is selected under the second root. *)
Definition two_roots_trace : list Event :=
  [ Dispatch (SET_ROOT_KEYS ["/a/"; "/b/"]);
    GetChildKeys "/a/" "/a/";
    FetchSettles 0 (Some ["/a/f"]);
    Dispatch (EXPAND_NODE "/a/" "/a/");
    Dispatch (SET_SELECTED_NODES_FOR_ROOT "/a/" ["/a/f"]);
    Dispatch (COLLAPSE_NODE "/a/" "/a/");
    Dispatch (SET_SELECTED_NODES_FOR_ROOT "/b/" ["/b/x"]) ].

Definition two_roots_store : Store :=
  default newStore
    (run isDirKey_slash getDirectoryByKey_watchable 3 newStore two_roots_trace).

(** A selection is an [Immutable.OrderedSet]: its list of keys has no
    duplicates. *)
Definition selections_are_sets (st : Store) : Prop :=
  ∀ r s, selectedKeysByRoot (_data st) !! r = Some s → NoDup s.

(** A store with one expanded root and one selected file. *)
Definition one_root_trace : list Event :=
  [ Dispatch (SET_ROOT_KEYS ["/a/"]);
    Dispatch (EXPAND_NODE "/a/" "/a/");
    GetChildKeys "/a/" "/a/";
    FetchSettles 0 (Some ["/a/d/"; "/a/f"]);
    Dispatch (SET_SELECTED_NODES_FOR_ROOT "/a/" ["/a/f"]) ].

Definition one_root_store : Store :=
  default newStore
    (run isDirKey_slash getDirectoryByKey_watchable 3 newStore one_root_trace).

(** An export written by another version of the package. *)
Definition stale_export : ExportStoreData :=
  {| version := 0; ex_childKeyMap := ∅; ex_expandedKeysByRoot := ∅;
     ex_rootKeys := ["/old/"]; ex_selectedKeysByRoot := ∅ |}.

(** Several [getChildKeys] calls for one node, one after the other, with
    nothing else happening in between: no promise callback runs before the
    current turn of the event loop is over. *)
Definition getChildKeys_calls (st : Store) (rootKeys : list string) (nodeKey : string)
  : Store :=
  foldl (λ st rootKey, (getChildKeys st rootKey nodeKey).1) st rootKeys.

(** Another registered root than [rootKey] has [nodeKey] expanded. *)
Definition other_root_expands (st : Store) (rootKey nodeKey : string) : Prop :=
  ∃ otherRootKey, otherRootKey ∈ rootKeys (_data st) ∧ otherRootKey ≠ rootKey ∧
                  nodeKey ∈ _getExpandedKeys st otherRootKey.

(** "[subscriptionMap] has an entry for [k] if and only if [k] is expanded
    under at least one root." *)
Definition subscribed_iff_expanded (st : Store) : Prop :=
  ∀ k, is_Some (subscriptionMap (_data st) !! k) ↔
       ∃ r, k ∈ _getExpandedKeys st r.

(** The children of a root are listed while the root is collapsed. *)
Definition collapsed_root_trace : list Event :=
  [ Dispatch (SET_ROOT_KEYS ["/a/"]);
    GetChildKeys "/a/" "/a/";
    FetchSettles 0 (Some ["/a/d/"; "/a/f"]) ].

Definition collapsed_root_store : Store :=
  default newStore
    (run isDirKey_slash getDirectoryByKey_watchable 3 newStore collapsed_root_trace).

(** Nothing is left of a key: no cached children, no subscription, and no
    root has it expanded or selected. *)
Definition purged (st : Store) (d : string) : Prop :=
  childKeyMap (_data st) !! d = None ∧
  subscriptionMap (_data st) !! d = None ∧
  (∀ r s, expandedKeysByRoot (_data st) !! r = Some s → d ∉ s) ∧
  (∀ r s, selectedKeysByRoot (_data st) !! r = Some s → d ∉ s).

(** The container keys below a key in the cached hierarchy: the key itself,
    and the container keys listed among the cached children of one of
    them. *)
Inductive container_descendant (isDirKey : string → bool) (st : Store)
  : string → string → Prop :=
| container_descendant_refl k : container_descendant isDirKey st k k
| container_descendant_step k childKeys c d :
    childKeyMap (_data st) !! k = Some childKeys →
    c ∈ childKeys → isDirKey c = true →
    container_descendant isDirKey st c d →
    container_descendant isDirKey st k d.

(** The cached hierarchy is a tree of paths: the key of a child is longer
    than the key of its parent. *)
Definition child_keys_extend (st : Store) : Prop :=
  ∀ k childKeys c,
    childKeyMap (_data st) !! k = Some childKeys → c ∈ childKeys →
    String.length k < String.length c.

(** A bound on the length of the child keys in the cache. *)
Definition longest_child_key (st : Store) : nat :=
  map_fold (λ _ childKeys n, foldr (λ c n, max (String.length c) n) n childKeys)
           0 (childKeyMap (_data st)).

(** A file is selected in an expanded directory below the root. *)
Definition selected_file_trace : list Event :=
  [ Dispatch (SET_ROOT_KEYS ["/a/"]);
    Dispatch (EXPAND_NODE "/a/" "/a/");
    GetChildKeys "/a/" "/a/";
    FetchSettles 0 (Some ["/a/d/"; "/a/f"]);
    Dispatch (EXPAND_NODE "/a/" "/a/d/");
    GetChildKeys "/a/" "/a/d/";
    FetchSettles 1 (Some ["/a/d/e/"; "/a/d/g"]);
    Dispatch (EXPAND_NODE "/a/" "/a/d/e/");
    GetChildKeys "/a/" "/a/d/e/";
    FetchSettles 2 (Some []);
    Dispatch (SET_SELECTED_NODES_FOR_ROOT "/a/" ["/a/d/g"; "/a/d/e/"]) ].

Definition selected_file_store : Store :=
  default newStore
    (run isDirKey_slash getDirectoryByKey_watchable 3 newStore selected_file_trace).

(** The directory of the selected file is purged. *)
Definition purged_directory_store : Store :=
  default newStore (_purgeDirectory isDirKey_slash 4 selected_file_store "/a/d/").

(** Every container key of the previous child list of [k] that is missing
    from the new list [new] is purged in [st'], with the container keys that
    were below it. *)
Definition removed_children_purged (isDirKey : string → bool)
    (st : Store) (k : string) (new : list string) (st' : Store) : Prop :=
  ∀ old c,
    childKeyMap (_data st) !! k = Some old →
    c ∈ old → isDirKey c = true → c ∉ new →
    purged st' c ∧
    ∀ d, container_descendant isDirKey st c d → d ≠ k → purged st' d.

(** A listing of the root that no longer holds the directory. *)
Definition relisted_root_store : Store :=
  default newStore (_setChildKeys isDirKey_slash 4 selected_file_store "/a/" ["/a/f"]).

(** What a collapse under root [r] leaves alone: the cached child lists,
    the roots, the loading map, the status annotations, the log, the
    listing calls, and the expansion and the selection of the other roots. *)
Definition collapse_frame (r : string) (s s' : Store) : Prop :=
  childKeyMap (_data s') = childKeyMap (_data s) ∧
  rootKeys (_data s') = rootKeys (_data s) ∧
  isLoadingMap (_data s') = isLoadingMap (_data s) ∧
  vcsStatusesByRoot (_data s') = vcsStatusesByRoot (_data s) ∧
  _logger s' = _logger s ∧
  fetchChildrenCalls s' = fetchChildrenCalls s ∧
  pendingFetches s' = pendingFetches s ∧
  (∀ r', r' ≠ r →
     expandedKeysByRoot (_data s') !! r' = expandedKeysByRoot (_data s) !! r') ∧
  (∀ r', r' ≠ r →
     selectedKeysByRoot (_data s') !! r' = selectedKeysByRoot (_data s) !! r').

(** The state after the [catch] callback of a failed listing of [k]. *)
Definition fetch_failure_recovered (st : Store) (k : string) (st' : Store) : Prop :=
  _logger st' = _logger st ++ [ErrorFetchingChildren k] ∧
  (∀ r, getRootForKey st k = Some r → isExpanded st' r k = false) ∧
  _getLoading st' k = None ∧
  childKeyMap (_data st') = childKeyMap (_data st) ∧
  isLoadingMap (_data st') = delete k (isLoadingMap (_data st)) ∧
  rootKeys (_data st') = rootKeys (_data st) ∧
  vcsStatusesByRoot (_data st') = vcsStatusesByRoot (_data st) ∧
  fetchChildrenCalls st' = fetchChildrenCalls st ∧
  (∀ r', getRootForKey st k ≠ Some r' →
     expandedKeysByRoot (_data st') !! r' = expandedKeysByRoot (_data st) !! r' ∧
     selectedKeysByRoot (_data st') !! r' = selectedKeysByRoot (_data st) !! r').

(** The listing of the directory of the selected file fails. *)
Definition failed_listing_store : Store :=
  default newStore (_fetchChildKeys_catch isDirKey_slash 4 selected_file_store "/a/d/").

(** A second listing of the directory of [one_root_store] settles. *)
Definition relisted_directory_store : Store :=
  default newStore
    (_fetchChildKeys_then isDirKey_slash getDirectoryByKey_watchable 4 one_root_store
       "/a/d/" ["/a/d/x"]).

(** A store without roots in which a listing is pending. *)
Definition rootless_pending_store : Store := (getChildKeys newStore "/a/" "/a/").1.

(** Why a node may appear in the list of visible nodes of root [r]: it is
    the root node, or its parent is listed too, has a known child list that
    is not dirty and holds the node, and, when the node is a container, is
    expanded under [r].  A container is listed under its own key, a leaf
    under the key of its parent. *)
Definition listed_for (isDirKey : string → bool) (st : Store) (r : string)
    (nodes : list FileTreeNode) (node : FileTreeNode) : Prop :=
  node = getNode r r ∨
  ∃ parent childKeys,
    getNode parent parent ∈ nodes ∧
    childKeyMap (_data st) !! parent = Some childKeys ∧
    isDirty st parent = false ∧
    node_nodeKey node ∈ childKeys ∧
    ((isDirKey (node_nodeKey node) = true ∧ isExpanded st r parent = true ∧
      node_rootKey node = node_nodeKey node) ∨
     (isDirKey (node_nodeKey node) = false ∧ node_rootKey node = parent)).

(** A directory is collapsed while its first listing is pending; the
    listing then settles. *)
Definition late_listing_trace : list Event :=
  [ Dispatch (SET_ROOT_KEYS ["/a/"]);
    Dispatch (EXPAND_NODE "/a/" "/a/");
    GetChildKeys "/a/" "/a/";
    FetchSettles 0 (Some ["/a/d/"; "/a/f"]);
    Dispatch (EXPAND_NODE "/a/" "/a/d/");
    GetChildKeys "/a/" "/a/d/";
    Dispatch (COLLAPSE_NODE "/a/" "/a/d/");
    FetchSettles 1 (Some ["/a/d/g"]) ].

Definition late_listing_store : Store :=
  default newStore
    (run isDirKey_slash getDirectoryByKey_watchable 3 newStore late_listing_trace).

Definition late_listing_visible : list FileTreeNode :=
  default [] (getVisibleNodes isDirKey_slash 5 late_listing_store "/a/").

(** [this._data.previouslyExpanded[rootKey] || {}]. *)
Definition previouslyExpanded_under (st : Store) (rootKey : string)
  : gmap string (list string) :=
  default ∅ (previouslyExpanded (_data st) !! rootKey).

(** The expansions remembered for a root follow the paths: a remembered
    child key is longer than the key it is remembered for. *)
Definition previouslyExpanded_extend (st : Store) (rootKey : string) : Prop :=
  ∀ k childKeys c,
    previouslyExpanded_under st rootKey !! k = Some childKeys → c ∈ childKeys →
    String.length k < String.length c.

(** A bound on the length of the keys remembered for a root. *)
Definition longest_previouslyExpanded (st : Store) (rootKey : string) : nat :=
  map_fold (λ _ childKeys n, foldr (λ c n, max (String.length c) n) n childKeys)
           0 (previouslyExpanded_under st rootKey).

(** The root of [selected_file_store] is collapsed, and expanded again. *)
Definition collapsed_tree_store : Store :=
  default newStore (_collapseNode isDirKey_slash 4 selected_file_store "/a/" "/a/").

Definition expanded_again_store : Store :=
  default newStore (_expandNode 4 collapsed_tree_store "/a/" "/a/").

(** Every subscription the store holds is live and held for one directory
    only, and no subscription has been disposed twice.  A [Disposable]
    returned by [onDidChange] is a new object; the counter
    [nextDisposable] bounds the ones handed out so far. *)
Definition subscriptions_safe (st : Store) : Prop :=
  (∀ k h, subscriptionMap (_data st) !! k = Some h →
          (h < nextDisposable st)%nat ∧ h ∉ disposedSubscriptions st) ∧
  (∀ k1 k2 h, subscriptionMap (_data st) !! k1 = Some h →
              subscriptionMap (_data st) !! k2 = Some h → k1 = k2) ∧
  NoDup (disposedSubscriptions st) ∧
  (∀ h, h ∈ disposedSubscriptions st → (h < nextDisposable st)%nat).

Definition same_subscriptions (s s' : Store) : Prop :=
  subscriptionMap (_data s') = subscriptionMap (_data s) ∧
  nextDisposable s' = nextDisposable s ∧
  disposedSubscriptions s' = disposedSubscriptions s.

Definition keeps_safe (s s' : Store) : Prop :=
  subscriptions_safe s → subscriptions_safe s'.

(** The directory holding the selection of [selected_file_store] is
    collapsed. *)
Definition collapsed_directory_store : Store :=
  default newStore (_collapseNode isDirKey_slash 4 selected_file_store "/a/" "/a/d/").

(** A child is created in the root of [one_root_store]. *)
Definition created_child_store : Store :=
  default newStore (_createChild isDirKey_slash 4 one_root_store "/a/" "/a/new").

(** A directory of [selected_file_store] is collapsed, the store is
    reloaded from an export without cached entries, the root, which is
    still watched, reports a change, and the store is reset. *)
Definition reloaded_trace : list Event :=
  selected_file_trace
  ++ [ Dispatch (COLLAPSE_NODE "/a/" "/a/d/");
       LoadData {| version := VERSION; ex_childKeyMap := ∅;
                   ex_expandedKeysByRoot := ∅; ex_rootKeys := ["/a/"];
                   ex_selectedKeysByRoot := ∅ |};
       DirectoryChanges "/a/";
       Reset ].

(** An environment in which no directory can be watched: [onDidChange]
    throws for every container key. *)
Definition getDirectoryByKey_unwatchable (key : string) : option Directory :=
  if isDirKey_slash key then Some {| onDidChange_throws := true |} else None.

(** The first listing of the root of [one_root_store] is pending. *)
Definition pending_root_store : Store :=
  default newStore
    (run isDirKey_slash getDirectoryByKey_unwatchable 3 newStore (take 3 one_root_trace)).

Definition unwatchable_listing_store : Store :=
  default newStore
    (_fetchChildKeys_then isDirKey_slash getDirectoryByKey_unwatchable 4
       pending_root_store "/a/" ["/a/f"]).

(** * Properties of the store *)

Section Proofs.

Variable isDirKey : string → bool.
Variable getDirectoryByKey : string → option Directory.

(** ** Runs and reachable states *)

Lemma run_reachable fuel events st st' :
  reachable isDirKey getDirectoryByKey st →
  run isDirKey getDirectoryByKey fuel st events = Some st' →
  reachable isDirKey getDirectoryByKey st'.
Proof.
  revert st. induction events as [|ev events IH]; intros st Hst Hrun; simpl in Hrun.
  - by simplify_eq.
  - destruct (step _ _ fuel st ev) as [st1|] eqn:Hstep; simpl in Hrun; [|done].
    eapply IH; [|done]. by eapply reachable_step.
Qed.

Lemma run_reachable_default fuel events :
  is_Some (run isDirKey getDirectoryByKey fuel newStore events) →
  reachable isDirKey getDirectoryByKey
    (default newStore (run isDirKey getDirectoryByKey fuel newStore events)).
Proof.
  intros [st Hst]. rewrite Hst. simpl.
  eapply run_reachable; [constructor|done].
Qed.

(** ** The single selected node *)

Lemma Object_keys_singleton {V} (m : gmap string V) r :
  Object_keys m = [r] ↔ ∃ v, m = {[ r := v ]}.
Proof.
  unfold Object_keys. split.
  - intros H. destruct (map_to_list m) as [|[r' v] [|? ?]] eqn:E; simplify_eq/=.
    exists v. rewrite <- (list_to_map_to_list m), E. simpl.
    by rewrite insert_empty.
  - intros [v ->]. by rewrite map_to_list_singleton.
Qed.

Lemma getSingleSelectedNode_Some st node :
  getSingleSelectedNode st = Some node ↔
  ∃ r k, selectedKeysByRoot (_data st) = {[ r := [k] ]} ∧ node = getNode r k.
Proof.
  unfold getSingleSelectedNode. split.
  - intros H.
    destruct (Object_keys (selectedKeysByRoot (_data st))) as [|r [|? ?]] eqn:E;
      try done.
    apply Object_keys_singleton in E as [v E].
    unfold getSelectedKeys in H. rewrite E, lookup_singleton_eq in H. simpl in H.
    destruct v as [|k [|? ?]]; simplify_eq. by exists r, k.
  - intros (r & k & E & ->).
    assert (Object_keys (selectedKeysByRoot (_data st)) = [r]) as ->.
    { apply Object_keys_singleton. eauto. }
    unfold getSelectedKeys. by rewrite E, lookup_singleton_eq.
Qed.

(** What [getSingleSelectedNode] computes: it returns a node exactly when
    [selectedKeysByRoot] has one single entry and the selection of that
    entry has one single key; the node is that key under that root.
    Whenever a node is returned, exactly one root has a non-empty selection
    and that selection has exactly one key. *)
Lemma getSingleSelectedNode_spec st :
  (∀ node, getSingleSelectedNode st = Some node ↔
     ∃ r k, selectedKeysByRoot (_data st) = {[ r := [k] ]} ∧ node = getNode r k) ∧
  (is_Some (getSingleSelectedNode st) → exactly_one_root_selects_one_key st).
Proof.
  split; [apply getSingleSelectedNode_Some|].
  intros [node H]. apply getSingleSelectedNode_Some in H as (r & k & E & _).
  exists r, k. rewrite E. split; [apply lookup_singleton_eq|].
  intros r1 s Hs _. by apply lookup_singleton_Some in Hs as [-> _].
Qed.

(** ** Export and import *)

Lemma oset_merge_NoDup s l : NoDup (s ++ l) → oset_merge s l = s ++ l.
Proof.
  unfold oset_merge. revert s. induction l as [|k l IH]; intros s Hnd; simpl.
  - by rewrite app_nil_r.
  - assert (oset_add s k = s ++ [k]) as ->.
    { unfold oset_add, oset_has. rewrite bool_decide_eq_false_2; [done|].
      apply NoDup_app in Hnd as (_ & Hnd & _). intros Hk.
      apply (Hnd k Hk). left. }
    rewrite IH; rewrite <- app_assoc; done.
Qed.

Lemma OrderedSet_NoDup l : NoDup l → OrderedSet l = l.
Proof. intros. unfold OrderedSet. by rewrite oset_merge_NoDup. Qed.

(** Subscribing and fetching leave the roots, the expansion and the
    selection alone. *)
Definition same_view (st st' : Store) : Prop :=
  rootKeys (_data st') = rootKeys (_data st) ∧
  expandedKeysByRoot (_data st') = expandedKeysByRoot (_data st) ∧
  selectedKeysByRoot (_data st') = selectedKeysByRoot (_data st).

Lemma same_view_trans st1 st2 st3 :
  same_view st1 st2 → same_view st2 st3 → same_view st1 st3.
Proof. unfold same_view. intros (?&?&?) (?&?&?). split_and!; congruence. Qed.

Lemma _addSubscription_same_view st k :
  same_view st (_addSubscription getDirectoryByKey st k).
Proof.
  unfold _addSubscription, same_view.
  destruct (getDirectoryByKey k) as [d|]; [|done]. simpl.
  destruct (subscriptionMap (_data st) !! k); [done|].
  by destruct (onDidChange_throws d).
Qed.

Lemma _fetchChildKeys_same_view st k : same_view st (_fetchChildKeys st k).1.
Proof.
  unfold _fetchChildKeys, same_view. by destruct (_getLoading st k).
Qed.

Lemma loadData_loop_same_view keys st :
  same_view st
    (foldl (λ st nodeKey,
              (_fetchChildKeys (_addSubscription getDirectoryByKey st nodeKey)
                 nodeKey).1) st keys).
Proof.
  revert st. induction keys as [|k keys IH]; intros st; simpl; [done|].
  eapply same_view_trans; [|apply IH].
  eapply same_view_trans; [apply _addSubscription_same_view|].
  apply _fetchChildKeys_same_view.
Qed.

(** C7.  Importing what a store exported gives a store with the same
    root list, the same expansion sets and the same selections, whatever
    the importing store held before; importing data of another version
    leaves the store as it was. *)
Theorem loadData_exportData st :
  (∀ st0, selections_are_sets st →
     same_view st (loadData getDirectoryByKey st0 (exportData st))) ∧
  (∀ data, version data ≠ VERSION → loadData getDirectoryByKey st data = st).
Proof.
  split.
  - intros st0 Hsel. unfold loadData. simpl.
    eapply same_view_trans; [|apply loadData_loop_same_view].
    unfold same_view, mapValues. simpl. split_and!; [done| |].
    + apply map_eq. intros r. rewrite !lookup_fmap.
      destruct (expandedKeysByRoot (_data st) !! r) as [s|]; simpl; [|done].
      by rewrite list_to_set_elements_L.
    + apply map_eq. intros r. rewrite !lookup_fmap.
      destruct (selectedKeysByRoot (_data st) !! r) as [s|] eqn:E; simpl; [|done].
      by rewrite OrderedSet_NoDup; [|eapply Hsel].
  - intros data Hv. unfold loadData.
    destruct (Nat.eqb_spec (version data) VERSION); done.
Qed.

(** ** Fetching children once *)

Lemma _fetchChildKeys_pending st k p :
  _getLoading st k = Some p → _fetchChildKeys st k = (st, p).
Proof. intros H. unfold _fetchChildKeys. by rewrite H. Qed.

Lemma getChildKeys_uncached_pending st r k p :
  childKeyMap (_data st) !! k = None → _getLoading st k = Some p →
  (getChildKeys st r k).1 = st.
Proof.
  intros Hc Hp. unfold getChildKeys. rewrite Hc. simpl.
  by rewrite (_fetchChildKeys_pending _ _ p).
Qed.

Lemma getChildKeys_calls_pending st rs k p :
  childKeyMap (_data st) !! k = None → _getLoading st k = Some p →
  getChildKeys_calls st rs k = st.
Proof.
  intros Hc Hp. unfold getChildKeys_calls.
  induction rs as [|r rs IH]; [done|]. cbn [foldl].
  by rewrite (getChildKeys_uncached_pending _ _ _ p).
Qed.

(** C3.  A fetch request for a key with a pending fetch returns the
    pending promise and changes nothing, so no listing call is made; and
    any number of [getChildKeys] calls (at least one) for an uncached key
    with no fetch pending make exactly one call to the listing
    collaborator, whose promise is the single entry of the key in the
    loading map. *)
Theorem _fetchChildKeys_once st k :
  (∀ p, _getLoading st k = Some p → _fetchChildKeys st k = (st, p)) ∧
  (∀ rs, rs ≠ [] →
     childKeyMap (_data st) !! k = None → _getLoading st k = None →
     let st' := getChildKeys_calls st rs k in
     fetchChildrenCalls st' = fetchChildrenCalls st ++ [k] ∧
     _getLoading st' k = Some (nextPromise st) ∧
     (_fetchChildKeys st' k).2 = nextPromise st).
Proof.
  split; [apply _fetchChildKeys_pending|].
  intros [|r rs] Hrs Hc Hl; [done|]. cbv zeta.
  unfold getChildKeys_calls. cbn [foldl].
  set (st1 := (getChildKeys st r k).1).
  assert (fetchChildrenCalls st1 = fetchChildrenCalls st ++ [k] ∧
          childKeyMap (_data st1) !! k = None ∧
          _getLoading st1 k = Some (nextPromise st)) as (Hf & Hc1 & Hl1).
  { unfold st1, getChildKeys, _fetchChildKeys. rewrite Hc, Hl. simpl.
    split_and!; [done..|]. unfold _getLoading, setProperty. simpl.
    apply lookup_insert_eq. }
  fold (getChildKeys_calls st1 rs k).
  rewrite (getChildKeys_calls_pending _ _ _ _ Hc1 Hl1).
  split_and!; [done..|]. by rewrite (_fetchChildKeys_pending _ _ _ Hl1).
Qed.

(** ** Coalesced change notifications *)

Section Notifications.
Variable Data : Type.
Abbreviation State := (Notification.State Data).

(** At most one callback is queued, and [_timer] is its handle. *)
Definition one_timer (st : State) : Prop :=
  Notification.immediates Data st = [] ∨
  ∃ h, Notification._timer Data st = Some h ∧
       Notification.immediates Data st = [h].

Lemma clearImmediate_timer st :
  one_timer st →
  Notification.immediates Data
    (Notification.clearImmediate Data st (Notification._timer Data st)) = [].
Proof.
  intros [Hq | (h & Ht & Hq)]; unfold Notification.clearImmediate.
  - destruct (Notification._timer Data st); simpl; by rewrite Hq.
  - rewrite Ht. simpl. rewrite Hq. rewrite filter_cons_False by tauto. done.
Qed.

Lemma _set_debounced st d :
  one_timer st →
  let st' := Notification._set Data st (Some d) false in
  Notification.immediates Data st' = [Notification.nextImmediate Data st] ∧
  Notification._timer Data st' = Some (Notification.nextImmediate Data st) ∧
  Notification.emitted Data st' = Notification.emitted Data st.
Proof.
  intros Hinv. simpl.
  pose proof (clearImmediate_timer st Hinv) as Hc.
  unfold Notification.clearImmediate in *.
  destruct (Notification._timer Data st); simpl in *; by rewrite ?Hc, ?Hinv.
Qed.

Lemma _set_flushed st d :
  one_timer st →
  let st' := Notification._set Data st (Some d) true in
  Notification.immediates Data st' = [] ∧
  Notification.emitted Data st' = S (Notification.emitted Data st).
Proof.
  intros Hinv. simpl.
  pose proof (clearImmediate_timer st Hinv) as Hc.
  unfold Notification.clearImmediate in *.
  destruct (Notification._timer Data st); simpl in *; by rewrite ?Hc.
Qed.

Lemma _set_one_timer st newData flush :
  one_timer st → one_timer (Notification._set Data st newData flush).
Proof.
  intros Hinv. destruct newData as [d|]; [|done]. destruct flush.
  - left. by apply _set_flushed.
  - right. destruct (_set_debounced st d Hinv) as (? & ? & _). eauto.
Qed.

Lemma reachable_one_timer st : Notification.reachable Data st → one_timer st.
Proof.
  induction 1 as [data|st newData flush _ IH|st _ IH].
  - by left.
  - by apply _set_one_timer.
  - by left.
Qed.

(** A run of non-flushing [_set] calls emits nothing; once one of them
    has replaced the data, exactly one callback is queued. *)
Lemma apply_mutation_queue st m :
  one_timer st →
  let st' := Notification.apply_mutation Data st m in
  one_timer st' ∧
  Notification.emitted Data st' = Notification.emitted Data st ∧
  ((Notification.state_changing Data m ∨
    List.length (Notification.immediates Data st) = 1) →
   List.length (Notification.immediates Data st') = 1).
Proof.
  unfold Notification.apply_mutation, Notification.state_changing.
  revert st. induction m as [|c m IH]; intros st Hinv; cbn [foldl].
  - split_and!; [done..|]. intros [[d Hd]|H]; [|done]. by apply elem_of_nil in Hd.
  - destruct (IH (Notification._set Data st c false)) as (Hinv' & He & Hq);
      [by apply _set_one_timer|].
    split_and!; [done| |].
    + rewrite He. destruct c as [d|]; [|done]. by apply _set_debounced.
    + intros Hch. apply Hq. destruct c as [d|].
      * right. destruct (_set_debounced st d Hinv) as (-> & _). done.
      * destruct Hch as [[d Hd]|Hlen]; [|by right].
        left. exists d. apply elem_of_cons in Hd as [?|?]; done.
Qed.

Lemma apply_mutations_queue st ms :
  one_timer st →
  Forall (Notification.state_changing Data) ms →
  let st' := Notification.apply_mutations Data st ms in
  one_timer st' ∧
  Notification.emitted Data st' = Notification.emitted Data st ∧
  (ms ≠ [] ∨ List.length (Notification.immediates Data st) = 1 →
   List.length (Notification.immediates Data st') = 1).
Proof.
  unfold Notification.apply_mutations.
  revert st. induction ms as [|m ms IH]; intros st Hinv Hall; cbn [foldl].
  - split_and!; [done..|]. by intros [?|?].
  - apply Forall_cons in Hall as [Hm Hall].
    destruct (apply_mutation_queue st m Hinv) as (Hinv1 & He1 & Hq1).
    destruct (IH _ Hinv1 Hall) as (Hinv2 & He2 & Hq2).
    split_and!; [done|congruence|].
    intros _. apply Hq2. right. apply Hq1. by left.
Qed.

(** C5.  In every state of the emitter: any non-empty sequence of
    state-changing, non-flushing mutations emits nothing while it runs
    and leaves exactly one callback queued, so that the end of the tick
    delivers exactly one ['change']; a debounced [_set] that replaces the
    data leaves only its own callback queued, the one scheduled before is
    cancelled; and setting the tracked node emits one ['change'] at once
    and leaves no callback queued. *)
Theorem change_notifications_coalesce (st : State) :
  Notification.reachable Data st →
  (∀ ms, ms ≠ [] → Forall (Notification.state_changing Data) ms →
     let st' := Notification.apply_mutations Data st ms in
     Notification.emitted Data st' = Notification.emitted Data st ∧
     Notification.emitted Data (Notification.runImmediates Data st')
     = Notification.emitted Data st + 1) ∧
  (∀ d, Notification.immediates Data (Notification._set Data st (Some d) false)
        = [Notification.nextImmediate Data st]) ∧
  (∀ d, let st' := Notification._setTrackedNode Data st d in
        Notification.emitted Data st' = Notification.emitted Data st + 1 ∧
        Notification.immediates Data st' = []).
Proof.
  intros Hinv%reachable_one_timer. split_and!.
  - intros ms Hne Hall.
    destruct (apply_mutations_queue st ms Hinv Hall) as (_ & He & Hq).
    cbv zeta in *. split; [done|].
    unfold Notification.runImmediates. simpl. rewrite He, Hq; [done|by left].
  - intros d. by apply _set_debounced.
  - intros d. destruct (_set_flushed st d Hinv) as [Hq He].
    unfold Notification._setTrackedNode. cbv zeta in *. split; [lia|done].
Qed.

End Notifications.

(** ** Watch subscriptions *)

Lemma hasRemainingSubscribers_spec st r k :
  existsb (λ otherRootKey,
             negb (bool_decide (otherRootKey = r)) && isExpanded st otherRootKey k)
          (rootKeys (_data st)) = true ↔
  other_root_expands st r k.
Proof.
  rewrite existsb_exists. unfold other_root_expands, isExpanded.
  split; intros (r' & Hin & H); exists r'.
  - apply andb_true_iff in H as [H1 H2].
    apply negb_true_iff, bool_decide_eq_false in H1.
    apply bool_decide_eq_true in H2. by rewrite list_elem_of_In.
  - destruct H as [H1 H2]. split; [by apply list_elem_of_In|].
    apply andb_true_iff. split.
    + by apply negb_true_iff, bool_decide_eq_false.
    + by apply bool_decide_eq_true.
Qed.

Lemma _addSubscription_held st k h :
  subscriptionMap (_data st) !! k = Some h →
  subscriptionMap (_data (_addSubscription getDirectoryByKey st k))
  = subscriptionMap (_data st) ∧
  onDidChangeCalls (_addSubscription getDirectoryByKey st k) = onDidChangeCalls st ∧
  disposedSubscriptions (_addSubscription getDirectoryByKey st k)
  = disposedSubscriptions st.
Proof.
  intros H. unfold _addSubscription.
  destruct (getDirectoryByKey k); [|done]. simpl. by rewrite H.
Qed.

Lemma _addSubscription_acquires st k d :
  getDirectoryByKey k = Some d → onDidChange_throws d = false →
  is_Some (subscriptionMap (_data (_addSubscription getDirectoryByKey st k)) !! k).
Proof.
  intros Hd Ht. unfold _addSubscription. rewrite Hd. simpl.
  destruct (subscriptionMap (_data st) !! k) eqn:E; [simpl; rewrite E; eauto|].
  rewrite Ht. simpl. unfold setProperty. rewrite lookup_insert_eq. eauto.
Qed.

Lemma _checkTrackedNode_subscriptionMap st :
  subscriptionMap (_data (_checkTrackedNode st)) = subscriptionMap (_data st).
Proof.
  unfold _checkTrackedNode. destruct (trackedNode _); [|done].
  by destruct (decide _).
Qed.

(** ** The purge cascade *)

Lemma elem_of_Object_keys {V} (m : gmap string V) r :
  r ∈ Object_keys m ↔ is_Some (m !! r).
Proof.
  unfold Object_keys. rewrite list_elem_of_fmap. split.
  - intros ([r' v] & -> & H). apply elem_of_map_to_list in H. eauto.
  - intros [v H]. exists (r, v). split; [done|]. by apply elem_of_map_to_list.
Qed.

Lemma oset_delete_notin s k : k ∉ s → oset_delete s k = s.
Proof.
  unfold oset_delete. induction s as [|x s IH]; intros Hk; [done|].
  apply not_elem_of_cons in Hk as [Hx Hs].
  rewrite filter_cons_True by done. by rewrite IH.
Qed.

Lemma elem_of_oset_delete s k d : d ∈ oset_delete s k ↔ d ∈ s ∧ d ≠ k.
Proof. unfold oset_delete. rewrite list_elem_of_filter. tauto. Qed.

(** The loop over the roots of the expansion map removes the key from every
    expansion set and touches nothing else. *)
Lemma purge_expanded_spec st k :
  let st' := purge_expanded st k in
  expandedKeysByRoot (_data st')
  = (λ s : gset string, s ∖ {[k]}) <$> expandedKeysByRoot (_data st) ∧
  childKeyMap (_data st') = childKeyMap (_data st) ∧
  subscriptionMap (_data st') = subscriptionMap (_data st) ∧
  selectedKeysByRoot (_data st') = selectedKeysByRoot (_data st).
Proof.
  unfold purge_expanded.
  set (m := expandedKeysByRoot (_data st)).
  assert (∀ l,
    let st' := foldl (λ st rootKey,
                 match m !! rootKey with
                 | Some expandedKeys =>
                     if bool_decide (k ∈ expandedKeys)
                     then _setExpandedKeys st rootKey (expandedKeys ∖ {[k]})
                     else st
                 | None => st
                 end) st l in
    (∀ r, expandedKeysByRoot (_data st') !! r
          = if decide (r ∈ l) then (λ s : gset string, s ∖ {[k]}) <$> m !! r
            else m !! r) ∧
    childKeyMap (_data st') = childKeyMap (_data st) ∧
    subscriptionMap (_data st') = subscriptionMap (_data st) ∧
    selectedKeysByRoot (_data st') = selectedKeysByRoot (_data st)) as Hloop.
  { induction l as [|x l IH] using rev_ind; cbv zeta.
    - split_and!; try done.
      all: intros r; rewrite decide_False; [done|apply not_elem_of_nil].
    - rewrite foldl_app. cbn [foldl]. cbv zeta in IH.
      destruct IH as (HE & Hc & Hs & Hsel).
      destruct (m !! x) as [s|] eqn:Hx; [destruct (bool_decide_reflect (k ∈ s))|].
      + simpl. split_and!; try done. intros r. unfold setProperty.
        destruct (decide (r = x)) as [->|Hne].
        * rewrite lookup_insert_eq, Hx. simpl.
          rewrite decide_True; [done|]. set_solver.
        * rewrite lookup_insert_ne by done. rewrite HE.
          destruct (decide (r ∈ l)).
          -- rewrite decide_True; [done|]. set_solver.
          -- rewrite decide_False; [done|]. set_solver.
      + split_and!; try done. intros r. rewrite HE.
        destruct (decide (r = x)) as [->|Hne].
        * rewrite Hx. simpl. rewrite (decide_True (P := x ∈ l ++ [x])) by set_solver.
          assert (s ∖ {[k]} = s) as -> by set_solver.
          by destruct (decide (x ∈ l)).
        * destruct (decide (r ∈ l)).
          -- rewrite decide_True; [done|]. set_solver.
          -- rewrite decide_False; [done|]. set_solver.
      + split_and!; try done. intros r. rewrite HE.
        destruct (decide (r = x)) as [->|Hne].
        * rewrite Hx. simpl. by repeat destruct (decide _).
        * destruct (decide (r ∈ l)).
          -- rewrite decide_True; [done|]. set_solver.
          -- rewrite decide_False; [done|]. set_solver. }
  destruct (Hloop (Object_keys m)) as (HE & Hrest). split; [|done].
  apply map_eq. intros r. rewrite HE, lookup_fmap.
  destruct (decide (r ∈ Object_keys m)) as [|Hn]; [done|].
  rewrite elem_of_Object_keys in Hn.
  destruct (m !! r); [|done]. destruct Hn. eauto.
Qed.

(** The loop over the roots of the selection map removes the key from every
    selection; it also resets the tracked node. *)
Lemma purge_selected_spec st k :
  let st' := purge_selected st k in
  selectedKeysByRoot (_data st')
  = (λ s, oset_delete s k) <$> selectedKeysByRoot (_data st) ∧
  childKeyMap (_data st') = childKeyMap (_data st) ∧
  subscriptionMap (_data st') = subscriptionMap (_data st) ∧
  expandedKeysByRoot (_data st') = expandedKeysByRoot (_data st).
Proof.
  unfold purge_selected.
  set (m := selectedKeysByRoot (_data st)).
  assert (∀ l,
    let st' := foldl (λ st rootKey,
                 match m !! rootKey with
                 | Some selectedKeys =>
                     if oset_has selectedKeys k
                     then _setSelectedKeys st rootKey (oset_delete selectedKeys k)
                     else st
                 | None => st
                 end) st l in
    (∀ r, selectedKeysByRoot (_data st') !! r
          = if decide (r ∈ l) then (λ s, oset_delete s k) <$> m !! r else m !! r) ∧
    childKeyMap (_data st') = childKeyMap (_data st) ∧
    subscriptionMap (_data st') = subscriptionMap (_data st) ∧
    expandedKeysByRoot (_data st') = expandedKeysByRoot (_data st)) as Hloop.
  { induction l as [|x l IH] using rev_ind; cbv zeta.
    - split_and!; try done.
      all: intros r; rewrite decide_False; [done|apply not_elem_of_nil].
    - rewrite foldl_app. cbn [foldl]. cbv zeta in IH.
      destruct IH as (HE & Hc & Hs & Hsel).
      destruct (m !! x) as [s|] eqn:Hx;
        [unfold oset_has; destruct (bool_decide_reflect (k ∈ s))|].
      + simpl. split_and!; try done. intros r. unfold setProperty.
        destruct (decide (r = x)) as [->|Hne].
        * rewrite lookup_insert_eq, Hx. simpl.
          rewrite decide_True; [done|]. set_solver.
        * rewrite lookup_insert_ne by done. rewrite HE.
          destruct (decide (r ∈ l)).
          -- rewrite decide_True; [done|]. set_solver.
          -- rewrite decide_False; [done|]. set_solver.
      + split_and!; try done. intros r. rewrite HE.
        destruct (decide (r = x)) as [->|Hne].
        * rewrite Hx. simpl. rewrite (decide_True (P := x ∈ l ++ [x])) by set_solver.
          rewrite oset_delete_notin by done.
          by destruct (decide (x ∈ l)).
        * destruct (decide (r ∈ l)).
          -- rewrite decide_True; [done|]. set_solver.
          -- rewrite decide_False; [done|]. set_solver.
      + split_and!; try done. intros r. rewrite HE.
        destruct (decide (r = x)) as [->|Hne].
        * rewrite Hx. simpl. by repeat destruct (decide _).
        * destruct (decide (r ∈ l)).
          -- rewrite decide_True; [done|]. set_solver.
          -- rewrite decide_False; [done|]. set_solver. }
  destruct (Hloop (Object_keys m)) as (HE & Hrest). split; [|done].
  apply map_eq. intros r. rewrite HE, lookup_fmap.
  destruct (decide (r ∈ Object_keys m)) as [|Hn]; [done|].
  rewrite elem_of_Object_keys in Hn.
  destruct (m !! r); [|done]. destruct Hn. eauto.
Qed.

(** The last part of [_purgeDirectory]: the subscription of the key goes,
    and the key leaves every expansion set and every selection. *)
Lemma purge_node_spec st k :
  let st' := purge_selected (purge_expanded (_removeAllSubscriptions st k) k) k in
  childKeyMap (_data st') = childKeyMap (_data st) ∧
  subscriptionMap (_data st') = delete k (subscriptionMap (_data st)) ∧
  expandedKeysByRoot (_data st')
  = (λ s : gset string, s ∖ {[k]}) <$> expandedKeysByRoot (_data st) ∧
  selectedKeysByRoot (_data st')
  = (λ s, oset_delete s k) <$> selectedKeysByRoot (_data st).
Proof.
  cbv zeta.
  destruct (purge_selected_spec (purge_expanded (_removeAllSubscriptions st k) k) k)
    as (-> & -> & -> & ->).
  destruct (purge_expanded_spec (_removeAllSubscriptions st k) k)
    as (-> & -> & -> & ->).
  unfold _removeAllSubscriptions.
  destruct (subscriptionMap (_data st) !! k) eqn:E; simpl; split_and!; try done.
  by rewrite delete_id.
Qed.

(** A store holds no more than another one: fewer cached child lists,
    fewer subscriptions, smaller expansion sets and selections. *)
Definition shrinks (st st' : Store) : Prop :=
  childKeyMap (_data st') ⊆ childKeyMap (_data st) ∧
  subscriptionMap (_data st') ⊆ subscriptionMap (_data st) ∧
  (∀ r s', expandedKeysByRoot (_data st') !! r = Some s' →
     ∃ s, expandedKeysByRoot (_data st) !! r = Some s ∧ s' ⊆ s) ∧
  (∀ r s', selectedKeysByRoot (_data st') !! r = Some s' →
     ∃ s, selectedKeysByRoot (_data st) !! r = Some s ∧ s' ⊆ s).

Lemma shrinks_refl st : shrinks st st.
Proof. unfold shrinks. split_and!; eauto. Qed.

Lemma shrinks_trans st1 st2 st3 : shrinks st1 st2 → shrinks st2 st3 → shrinks st1 st3.
Proof.
  intros (Hc1 & Hs1 & He1 & Hk1) (Hc2 & Hs2 & He2 & Hk2). split_and!.
  - by etrans.
  - by etrans.
  - intros r s3 H3. destruct (He2 _ _ H3) as (s2 & H2 & ?).
    destruct (He1 _ _ H2) as (s1 & H1 & ?). exists s1. split; [done|]. by etrans.
  - intros r s3 H3. destruct (Hk2 _ _ H3) as (s2 & H2 & ?).
    destruct (Hk1 _ _ H2) as (s1 & H1 & ?). exists s1. split; [done|]. by etrans.
Qed.

Lemma shrinks_purged st st' d : shrinks st st' → purged st d → purged st' d.
Proof.
  intros (Hc & Hs & He & Hk) (Pc & Ps & Pe & Pk). split_and!.
  - destruct (childKeyMap (_data st') !! d) eqn:E; [|done].
    eapply lookup_weaken in E; [|done]. congruence.
  - destruct (subscriptionMap (_data st') !! d) eqn:E; [|done].
    eapply lookup_weaken in E; [|done]. congruence.
  - intros r s' H' Hd. destruct (He _ _ H') as (s & H & Hsub).
    apply (Pe _ _ H). by apply Hsub.
  - intros r s' H' Hd. destruct (Hk _ _ H') as (s & H & Hsub).
    apply (Pk _ _ H). by apply Hsub.
Qed.

Lemma purge_node_shrinks st k :
  shrinks st (purge_selected (purge_expanded (_removeAllSubscriptions st k) k) k).
Proof.
  destruct (purge_node_spec st k) as (Hc & Hs & He & Hk). cbv zeta in *.
  unfold shrinks. rewrite Hc, Hs, He, Hk. split_and!.
  - done.
  - apply delete_subseteq.
  - intros r s'. rewrite lookup_fmap. intros H.
    apply fmap_Some in H as (s & ? & ->). exists s. split; [done|]. set_solver.
  - intros r s'. rewrite lookup_fmap. intros H.
    apply fmap_Some in H as (s & ? & ->). exists s. split; [done|].
    intros x. rewrite elem_of_oset_delete. tauto.
Qed.

Lemma purge_node_purged st k :
  childKeyMap (_data st) !! k = None →
  purged (purge_selected (purge_expanded (_removeAllSubscriptions st k) k) k) k.
Proof.
  intros Hn. destruct (purge_node_spec st k) as (Hc & Hs & He & Hk). cbv zeta in *.
  unfold purged. rewrite Hc, Hs, He, Hk. split_and!.
  - done.
  - apply lookup_delete_eq.
  - intros r s'. rewrite lookup_fmap. intros H.
    apply fmap_Some in H as (s & ? & ->). set_solver.
  - intros r s'. rewrite lookup_fmap. intros H.
    apply fmap_Some in H as (s & ? & ->). rewrite elem_of_oset_delete. tauto.
Qed.

Lemma _set_childKeyMap_delete_shrinks st k :
  shrinks st (_set_childKeyMap st (deleteProperty (childKeyMap (_data st)) k)).
Proof.
  unfold shrinks, deleteProperty. simpl. split_and!; eauto. apply delete_subseteq.
Qed.

(** Once the cached child list of a key of the original store is gone,
    every container key that was below it is purged. *)
Definition cascade_closed (st0 st : Store) : Prop :=
  ∀ x childKeys,
    childKeyMap (_data st0) !! x = Some childKeys →
    childKeyMap (_data st) !! x = None →
    ∀ d, container_descendant isDirKey st0 x d → purged st d.

Lemma purge_cascade st0 fuel :
  ∀ st k st',
    _purgeDirectory isDirKey fuel st k = Some st' →
    shrinks st0 st → cascade_closed st0 st →
    shrinks st st' ∧ cascade_closed st0 st' ∧
    (∀ d, container_descendant isDirKey st0 k d → purged st' d).
Proof.
  induction fuel as [|fuel IH]; intros st k st' Hrun Hsh Hcl; [done|].
  simpl in Hrun.
  (* the loop over the children *)
  assert (∀ l st st1,
    forEachM (λ st childKey,
                if isDirKey childKey then _purgeDirectory isDirKey fuel st childKey
                else Some st) l st = Some st1 →
    shrinks st0 st → cascade_closed st0 st →
    shrinks st st1 ∧ cascade_closed st0 st1 ∧
    (∀ c, c ∈ l → isDirKey c = true →
       ∀ d, container_descendant isDirKey st0 c d → purged st1 d)) as Hloop.
  { clear st k st' Hrun Hsh Hcl.
    induction l as [|c l IHl]; intros st st1 Hl Hsh Hcl; simpl in Hl.
    - simplify_eq. split_and!; [apply shrinks_refl|done|].
      intros c Hc. by apply elem_of_nil in Hc.
    - destruct (isDirKey c) eqn:Hdir.
      + destruct (_purgeDirectory isDirKey fuel st c) as [st2|] eqn:Hc; [|done].
        destruct (IH _ _ _ Hc Hsh Hcl) as (Hsh2 & Hcl2 & Hd2).
        destruct (IHl _ _ Hl (shrinks_trans _ _ _ Hsh Hsh2) Hcl2)
          as (Hsh1 & Hcl1 & Hd1).
        split_and!; [by eapply shrinks_trans|done|].
        intros c' Hc' Hdir' d Hdesc. apply elem_of_cons in Hc' as [->|Hc'].
        * apply (shrinks_purged st2); [done|]. by apply Hd2.
        * by eapply Hd1.
      + destruct (IHl _ _ Hl Hsh Hcl) as (Hsh1 & Hcl1 & Hd1).
        split_and!; [done..|].
        intros c' Hc' Hdir' d Hdesc. apply elem_of_cons in Hc' as [->|Hc'].
        * congruence.
        * by eapply Hd1. }
  destruct (childKeyMap (_data st) !! k) as [childKeys|] eqn:Hk.
  - destruct (forEachM _ childKeys st) as [st1|] eqn:Hl; simplify_eq/=.
    destruct (Hloop _ _ _ Hl Hsh Hcl) as (Hsh1 & Hcl1 & Hd1).
    set (st2 := _set_childKeyMap st1 (deleteProperty (childKeyMap (_data st1)) k)).
    assert (shrinks st1 st2) as Hsh2 by apply _set_childKeyMap_delete_shrinks.
    pose proof (purge_node_shrinks st2 k) as Hsh3.
    set (st3 := purge_selected _ _) in *.
    assert (shrinks st st3) as Hsh'
      by exact (shrinks_trans _ _ _ Hsh1 (shrinks_trans _ _ _ Hsh2 Hsh3)).
    assert (childKeyMap (_data st0) !! k = Some childKeys) as Hk0.
    { destruct Hsh as (Hc & _). by eapply lookup_weaken. }
    assert (∀ d, container_descendant isDirKey st0 k d → purged st3 d) as Hdesc.
    { intros d Hd. inversion Hd as [|? cs c ? Hcs Hc Hdir Hcd]; subst.
      - apply purge_node_purged. unfold st2, deleteProperty. simpl.
        apply lookup_delete_eq.
      - apply (shrinks_purged st1); [exact (shrinks_trans _ _ _ Hsh2 Hsh3)|].
        eapply Hd1; [|done..]. congruence. }
    split_and!; [done| |done].
    intros x cs Hx0 Hx3 d Hd.
    destruct (decide (x = k)) as [->|Hne]; [by apply Hdesc|].
    apply (shrinks_purged st1); [exact (shrinks_trans _ _ _ Hsh2 Hsh3)|].
    eapply Hcl1; [done| |done].
    destruct (purge_node_spec st2 k) as (Hc3 & _). cbv zeta in Hc3.
    fold st3 in Hc3. rewrite Hc3 in Hx3. unfold st2, deleteProperty in Hx3.
    simpl in Hx3. by rewrite lookup_delete_ne in Hx3.
  - simplify_eq/=.
    pose proof (purge_node_shrinks st k) as Hsh3.
    set (st3 := purge_selected _ _) in *.
    assert (∀ d, container_descendant isDirKey st0 k d → purged st3 d) as Hdesc.
    { intros d Hd.
      destruct (childKeyMap (_data st0) !! k) as [cs0|] eqn:Hk0.
      - apply (shrinks_purged st); [done|]. by eapply Hcl.
      - inversion Hd as [|? cs c ? Hcs Hc Hdir Hcd]; subst; [|congruence].
        by apply purge_node_purged. }
    split_and!; [done| |done].
    intros x cs Hx0 Hx3 d Hd.
    apply (shrinks_purged st); [done|]. eapply Hcl; [done| |done].
    destruct (purge_node_spec st k) as (Hc3 & _). cbv zeta in Hc3.
    fold st3 in Hc3. by rewrite Hc3 in Hx3.
Qed.

Lemma purge_cascade_shrinks fuel st k st' :
  _purgeDirectory isDirKey fuel st k = Some st' → shrinks st st'.
Proof.
  intros H. eapply (purge_cascade st) in H as (H & _); [done|apply shrinks_refl|].
  intros x cs Hx Hn. congruence.
Qed.

(** *** The cascade returns on a tree of paths *)

Lemma foldr_max_le (l : list string) (n : nat) :
  (n ≤ foldr (λ c n, max (String.length c) n) n l)%nat ∧
  ∀ c, c ∈ l → (String.length c ≤ foldr (λ c n, max (String.length c) n) n l)%nat.
Proof.
  induction l as [|x l [IH1 IH2]]; simpl.
  - split; [done|]. intros c Hc. by apply elem_of_nil in Hc.
  - split; [lia|]. intros c Hc. apply elem_of_cons in Hc as [->|Hc]; [lia|].
    specialize (IH2 c Hc). lia.
Qed.

Lemma longest_child_key_le st k childKeys c :
  childKeyMap (_data st) !! k = Some childKeys → c ∈ childKeys →
  (String.length c ≤ longest_child_key st)%nat.
Proof.
  unfold longest_child_key. revert k childKeys c.
  apply (map_fold_weak_ind
           (λ n (m : gmap string (list string)),
              ∀ k childKeys c, m !! k = Some childKeys → c ∈ childKeys →
                               (String.length c ≤ n)%nat)).
  - intros k cs c H. by rewrite lookup_empty in H.
  - intros i x m n Hi IH k cs c Hk Hc.
    destruct (foldr_max_le x n) as [Hn Hx].
    destruct (decide (k = i)) as [->|Hne].
    + rewrite lookup_insert_eq in Hk. simplify_eq. by apply Hx.
    + rewrite lookup_insert_ne in Hk by done. specialize (IH _ _ _ Hk Hc). lia.
Qed.

Lemma _purgeDirectory_returns st :
  child_keys_extend st →
  ∀ fuel st1 k,
    childKeyMap (_data st1) ⊆ childKeyMap (_data st) →
    longest_child_key st - String.length k < fuel →
    is_Some (_purgeDirectory isDirKey fuel st1 k).
Proof.
  intros Hext. induction fuel as [|fuel IH]; intros st1 k Hsub Hlen; [lia|].
  simpl.
  assert (∀ l st1,
    childKeyMap (_data st1) ⊆ childKeyMap (_data st) →
    (∀ c, c ∈ l → longest_child_key st - String.length c < fuel) →
    ∃ st2, forEachM (λ st childKey,
                if isDirKey childKey then _purgeDirectory isDirKey fuel st childKey
                else Some st) l st1 = Some st2) as Hloop.
  { clear st1 k Hsub Hlen.
    induction l as [|c l IHl]; intros st1 Hsub Hl; simpl; [eauto|].
    destruct (isDirKey c).
    - destruct (IH st1 c Hsub) as [st2 H2]; [apply Hl; left|]. rewrite H2.
      apply IHl; [|intros; apply Hl; by right].
      apply purge_cascade_shrinks in H2 as (Hc & _). by etrans.
    - apply IHl; [done|]. intros; apply Hl; by right. }
  destruct (childKeyMap (_data st1) !! k) as [childKeys|] eqn:Hk; simpl; [|eauto].
  destruct (Hloop childKeys st1 Hsub) as [st2 ->]; simpl; [|eauto].
  intros c Hc. eapply lookup_weaken in Hk; [|done].
  pose proof (Hext _ _ _ Hk Hc). pose proof (longest_child_key_le _ _ _ _ Hk Hc). lia.
Qed.

(** C1, amended.  On a cache that is a tree of paths [_purgeDirectory]
    returns; and whenever it returns, nothing is left of the key and of
    any container key below it in the cached hierarchy: no cached child
    list, no subscription, and no root has it expanded or selected.  Leaf
    keys below the purged key are not covered. *)
Theorem _purgeDirectory_cascade st k :
  (child_keys_extend st →
   ∀ fuel, longest_child_key st < fuel →
           is_Some (_purgeDirectory isDirKey fuel st k)) ∧
  (∀ fuel st', _purgeDirectory isDirKey fuel st k = Some st' →
     ∀ d, container_descendant isDirKey st k d → purged st' d).
Proof.
  split.
  - intros Hext fuel Hfuel. apply (_purgeDirectory_returns st); [done..|lia].
  - intros fuel st' H.
    eapply (purge_cascade st) in H as (_ & _ & H); [done|apply shrinks_refl|].
    intros x cs Hx Hn. congruence.
Qed.

(** ** Installing a new child list *)

(** A directory listed among its own children is never purged: the
    cascade does not return on it, and its entry survives every cascade
    that returns. *)
Lemma self_listed_directory fuel :
  (∀ st k cs,
     childKeyMap (_data st) !! k = Some cs → k ∈ cs → isDirKey k = true →
     _purgeDirectory isDirKey fuel st k = None) ∧
  (∀ st j st' k cs,
     _purgeDirectory isDirKey fuel st j = Some st' →
     childKeyMap (_data st) !! k = Some cs → k ∈ cs → isDirKey k = true →
     childKeyMap (_data st') !! k = Some cs).
Proof.
  induction fuel as [|fuel [IHQ IHR]]; [done|].
  assert (∀ l st k cs,
    childKeyMap (_data st) !! k = Some cs → k ∈ cs → isDirKey k = true →
    k ∈ l →
    forEachM (λ st childKey,
                if isDirKey childKey then _purgeDirectory isDirKey fuel st childKey
                else Some st) l st = None) as HB.
  { induction l as [|c l IHl]; intros st k cs Hk Hin Hdir Hl.
    - by apply elem_of_nil in Hl.
    - simpl. destruct (decide (c = k)) as [->|Hne].
      + by rewrite Hdir, (IHQ _ _ _ Hk Hin Hdir).
      + apply elem_of_cons in Hl as [?|Hl]; [done|].
        destruct (isDirKey c); [|by eapply (IHl st k cs)].
        destruct (_purgeDirectory isDirKey fuel st c) as [st2|] eqn:Hc; [|done].
        apply (IHl st2 k cs); [|done..]. by eapply IHR. }
  assert (∀ st k cs,
    childKeyMap (_data st) !! k = Some cs → k ∈ cs → isDirKey k = true →
    _purgeDirectory isDirKey (S fuel) st k = None) as HQ.
  { intros st k cs Hk Hin Hdir. simpl. rewrite Hk.
    by rewrite (HB cs st k cs). }
  split; [done|].
  intros st j st' k cs Hrun Hk Hin Hdir.
  destruct (decide (j = k)) as [->|Hne]; [by rewrite (HQ _ _ _ Hk Hin Hdir) in Hrun|].
  simpl in Hrun.
  assert (∀ l st st1,
    forEachM (λ st childKey,
                if isDirKey childKey then _purgeDirectory isDirKey fuel st childKey
                else Some st) l st = Some st1 →
    childKeyMap (_data st) !! k = Some cs →
    childKeyMap (_data st1) !! k = Some cs) as HA.
  { induction l as [|c l IHl]; intros st0 st1 Hl Hk0; simpl in Hl; [by simplify_eq|].
    destruct (isDirKey c); [|by eapply IHl].
    destruct (_purgeDirectory isDirKey fuel st0 c) as [st2|] eqn:Hc; [|done].
    eapply IHl; [done|]. by eapply IHR. }
  destruct (childKeyMap (_data st) !! j) as [childKeys|] eqn:Hj.
  - destruct (forEachM _ childKeys st) as [st1|] eqn:Hl; simplify_eq/=.
    destruct (purge_node_spec
                (_set_childKeyMap st1 (deleteProperty (childKeyMap (_data st1)) j)) j)
      as (-> & _).
    unfold deleteProperty. simpl. rewrite lookup_delete_ne by done. by eapply HA.
  - simplify_eq/=. by destruct (purge_node_spec st j) as (-> & _).
Qed.

Lemma _setChildKeys_loop_self_listed fuel (new l : list string) st k cs :
  childKeyMap (_data st) !! k = Some cs → k ∈ cs → isDirKey k = true →
  k ∉ new → k ∈ l →
  forEachM (λ st childKey,
              if isDirKey childKey && negb (bool_decide (childKey ∈ new))
              then _purgeDirectory isDirKey fuel st childKey
              else Some st) l st = None.
Proof.
  destruct (self_listed_directory fuel) as [HQ HR].
  intros Hk Hin Hdir Hnew. revert st Hk.
  induction l as [|c l IHl]; intros st Hk Hl.
  - by apply elem_of_nil in Hl.
  - simpl. destruct (decide (c = k)) as [->|Hne].
    + rewrite Hdir, bool_decide_eq_false_2 by done. simpl.
      by rewrite (HQ _ _ _ Hk Hin Hdir).
    + apply elem_of_cons in Hl as [?|Hl]; [done|].
      destruct (isDirKey c && negb (bool_decide (c ∈ new))); [|by eapply IHl].
      destruct (_purgeDirectory isDirKey fuel st c) as [st2|] eqn:Hc; [|done].
      eapply IHl; [|done]. by eapply HR.
Qed.

Lemma _setChildKeys_loop fuel (new : list string) st0 (l : list string) :
  ∀ st st1,
    forEachM (λ st childKey,
                if isDirKey childKey && negb (bool_decide (childKey ∈ new))
                then _purgeDirectory isDirKey fuel st childKey
                else Some st) l st = Some st1 →
    shrinks st0 st → cascade_closed st0 st →
    shrinks st st1 ∧ cascade_closed st0 st1 ∧
    (∀ c, c ∈ l → isDirKey c = true → c ∉ new →
       ∀ d, container_descendant isDirKey st0 c d → purged st1 d).
Proof.
  induction l as [|c l IHl]; intros st st1 Hl Hsh Hcl; simpl in Hl.
  - simplify_eq. split_and!; [apply shrinks_refl|done|].
    intros c Hc. by apply elem_of_nil in Hc.
  - destruct (isDirKey c && negb (bool_decide (c ∈ new))) eqn:Htest.
    + destruct (_purgeDirectory isDirKey fuel st c) as [st2|] eqn:Hc; [|done].
      destruct (purge_cascade st0 fuel _ _ _ Hc Hsh Hcl) as (Hsh2 & Hcl2 & Hd2).
      destruct (IHl _ _ Hl (shrinks_trans _ _ _ Hsh Hsh2) Hcl2)
        as (Hsh1 & Hcl1 & Hd1).
      split_and!; [by eapply shrinks_trans|done|].
      intros c' Hc' Hdir' Hnew' d Hdesc. apply elem_of_cons in Hc' as [->|Hc'].
      * apply (shrinks_purged st2); [done|]. by apply Hd2.
      * by eapply Hd1.
    + destruct (IHl _ _ Hl Hsh Hcl) as (Hsh1 & Hcl1 & Hd1).
      split_and!; [done..|].
      intros c' Hc' Hdir' Hnew' d Hdesc. apply elem_of_cons in Hc' as [->|Hc'].
      * rewrite Hdir', bool_decide_eq_false_2 in Htest by done. done.
      * by eapply Hd1.
Qed.

Lemma _setChildKeys_purges fuel st k new st' :
  _setChildKeys isDirKey fuel st k new = Some st' →
  removed_children_purged isDirKey st k new st'.
Proof.
  intros Hrun old c Hk Hc Hdir Hnew.
  unfold _setChildKeys in Hrun. rewrite Hk in Hrun.
  destruct (forEachM _ old st) as [st1|] eqn:Hl; simplify_eq/=.
  assert (c ≠ k) as Hne.
  { intros ->. by rewrite (_setChildKeys_loop_self_listed fuel new old st k old) in Hl. }
  destruct (_setChildKeys_loop fuel new st old st st1 Hl) as (_ & _ & Hd).
  { apply shrinks_refl. }
  { intros x cs Hx Hn. congruence. }
  assert (∀ d, d ≠ k → purged st1 d →
               purged (_set_childKeyMap st1
                         (setProperty (childKeyMap (_data st1)) k new)) d) as Hset.
  { intros d Hdk (Pc & Ps & Pe & Pk). unfold purged, setProperty. simpl.
    rewrite lookup_insert_ne by done. done. }
  split.
  - apply Hset; [done|]. eapply Hd; [done..|]. apply container_descendant_refl.
  - intros d Hdesc Hdk. apply Hset; [done|]. by eapply Hd.
Qed.

Lemma _checkTrackedNode_purged st d : purged st d → purged (_checkTrackedNode st) d.
Proof.
  unfold _checkTrackedNode. destruct (trackedNode _); [|done].
  by destruct (decide _).
Qed.

Lemma _addSubscription_purged st k d :
  d ≠ k → purged st d → purged (_addSubscription getDirectoryByKey st k) d.
Proof.
  intros Hne (Pc & Ps & Pe & Pk). unfold _addSubscription.
  destruct (getDirectoryByKey k) as [dir|]; [|done]. simpl.
  destruct (subscriptionMap (_data st) !! k); [done|].
  destruct (onDidChange_throws dir); [done|].
  unfold purged, setProperty. simpl. by rewrite lookup_insert_ne.
Qed.

Lemma _setChildKeys_returns st k new :
  child_keys_extend st →
  ∀ fuel, longest_child_key st < fuel →
          is_Some (_setChildKeys isDirKey fuel st k new).
Proof.
  intros Hext fuel Hfuel. unfold _setChildKeys.
  assert (∀ l st1,
    childKeyMap (_data st1) ⊆ childKeyMap (_data st) →
    ∃ st2, forEachM (λ st childKey,
              if isDirKey childKey && negb (bool_decide (childKey ∈ new))
              then _purgeDirectory isDirKey fuel st childKey
              else Some st) l st1 = Some st2) as Hloop.
  { induction l as [|c l IHl]; intros st1 Hsub; simpl; [eauto|].
    destruct (isDirKey c && negb (bool_decide (c ∈ new))); [|by apply IHl].
    destruct (_purgeDirectory_returns st Hext fuel st1 c Hsub) as [st2 H2]; [lia|].
    rewrite H2. apply IHl.
    apply purge_cascade_shrinks in H2 as (Hc & _). by etrans. }
  destruct (childKeyMap (_data st) !! k) as [old|]; simpl; [|eauto].
  destruct (Hloop old st) as [st2 ->]; simpl; eauto.
Qed.

Lemma _createChild_returns st k childKey :
  child_keys_extend st →
  ∀ fuel, longest_child_key st < fuel →
          is_Some (_createChild isDirKey fuel st k childKey).
Proof.
  intros Hext fuel Hfuel. unfold _createChild.
  destruct (_setChildKeys_returns st k [childKey] Hext fuel Hfuel) as [st1 ->].
  simpl. eauto.
Qed.

Lemma _fetchChildKeys_then_returns st k new :
  child_keys_extend st →
  ∀ fuel, longest_child_key st < fuel →
          is_Some (_fetchChildKeys_then isDirKey getDirectoryByKey fuel st k new).
Proof.
  intros Hext fuel Hfuel. unfold _fetchChildKeys_then.
  destruct (getRootForKey st k); [|eauto].
  destruct (_setChildKeys_returns st k new Hext fuel Hfuel) as [st1 ->].
  simpl. eauto.
Qed.

(** C10.  When [_setChildKeys] installs a new child list for a key, also
    through [_createChild] or through the callback of a listing that
    succeeded under a registered root, every container key of the previous
    list that is missing from the new one is purged: its cached children and
    its subscription are removed and no root has it expanded or selected,
    and the same holds for the container keys that were below it.  On a
    cache that is a tree of paths [_setChildKeys], [_createChild] and the
    callback return. *)
Theorem _setChildKeys_purges_removed_directories st k :
  (∀ fuel new st',
     _setChildKeys isDirKey fuel st k new = Some st' →
     removed_children_purged isDirKey st k new st') ∧
  (∀ fuel childKey st',
     _createChild isDirKey fuel st k childKey = Some st' →
     removed_children_purged isDirKey st k [childKey] st') ∧
  (∀ fuel new st',
     is_Some (getRootForKey st k) →
     _fetchChildKeys_then isDirKey getDirectoryByKey fuel st k new = Some st' →
     removed_children_purged isDirKey st k new st') ∧
  (child_keys_extend st →
   ∀ (fuel : nat) (new : list string),
     longest_child_key st < fuel →
     is_Some (_setChildKeys isDirKey fuel st k new) ∧
     (∀ childKey, is_Some (_createChild isDirKey fuel st k childKey)) ∧
     is_Some (_fetchChildKeys_then isDirKey getDirectoryByKey fuel st k new)).
Proof.
  split_and!.
  - intros fuel new st'. apply _setChildKeys_purges.
  - intros fuel childKey st' Hrun. unfold _createChild in Hrun.
    destruct (_setChildKeys isDirKey fuel st k [childKey]) as [st1|] eqn:H1;
      simplify_eq/=.
    intros old c Hk Hc Hdir Hnew.
    destruct (_setChildKeys_purges _ _ _ _ _ H1 old c Hk Hc Hdir Hnew) as [Hp Hd].
    split; [done|]. intros d Hdesc Hdk. by apply Hd.
  - intros fuel new st' [r Hr] Hrun. unfold _fetchChildKeys_then in Hrun.
    rewrite Hr in Hrun.
    destruct (_setChildKeys isDirKey fuel st k new) as [st1|] eqn:H1; simplify_eq/=.
    intros old c Hk Hc Hdir Hnew.
    destruct (_setChildKeys_purges _ _ _ _ _ H1 old c Hk Hc Hdir Hnew) as [Hp Hd].
    assert (c ≠ k) as Hne.
    { intros ->. destruct Hp as (Hp & _). unfold _setChildKeys in H1.
      destruct (match childKeyMap (_data st) !! k with
                | Some _ => _ | None => _ end) as [st2|]; simplify_eq/=.
      unfold setProperty in Hp. simpl in Hp. by rewrite lookup_insert_eq in Hp. }
    assert (∀ d, d ≠ k → purged st1 d →
                 purged (_clearLoading (_addSubscription getDirectoryByKey st1 k) k) d)
      as Hkeep.
    { intros d Hdk Hpd. unfold _clearLoading. apply _checkTrackedNode_purged.
      by apply (_addSubscription_purged st1 k d Hdk) in Hpd. }
    split; [by apply Hkeep|]. intros d Hdesc Hdk. apply Hkeep; [done|]. by apply Hd.
  - intros Hext fuel new Hfuel. split_and!.
    + by apply _setChildKeys_returns.
    + intros childKey. by apply _createChild_returns.
    + by apply _fetchChildKeys_then_returns.
Qed.

(** ** Collapsing a node *)

(** One child in the loop of [_collapseNode]: the child is unselected if it
    was selected, and collapsed in turn if it is an expanded directory. *)
Lemma _collapseNode_child_cases collapse r s sel acc c s2 sel2 acc2 :
  _collapseNode_child isDirKey collapse r (s, sel, acc) c = Some (s2, sel2, acc2) →
  ∃ s', (s' = s ∨ ∃ keys, s' = _setSelectedKeys s r keys) ∧
        ((isDirKey c = true ∧ isExpanded s' r c = true ∧
          collapse s' r c = Some s2 ∧ acc2 = acc ++ [c]) ∨
         (isDirKey c && isExpanded s' r c = false ∧ s2 = s' ∧ acc2 = acc)).
Proof.
  unfold _collapseNode_child. intros H.
  destruct sel as [keys|]; [destruct (oset_has keys c)|].
  - exists (_setSelectedKeys s r (oset_delete keys c)). split; [eauto|].
    destruct (isDirKey c && isExpanded _ r c) eqn:Htest.
    + apply andb_true_iff in Htest as [? ?].
      destruct (collapse _ r c) as [s3|] eqn:H3; simplify_eq/=. left. eauto.
    + simplify_eq/=. right. eauto.
  - exists s. split; [eauto|].
    destruct (isDirKey c && isExpanded _ r c) eqn:Htest.
    + apply andb_true_iff in Htest as [? ?].
      destruct (collapse _ r c) as [s3|] eqn:H3; simplify_eq/=. left. eauto.
    + simplify_eq/=. right. eauto.
  - exists s. split; [eauto|].
    destruct (isDirKey c && isExpanded _ r c) eqn:Htest.
    + apply andb_true_iff in Htest as [? ?].
      destruct (collapse _ r c) as [s3|] eqn:H3; simplify_eq/=. left. eauto.
    + simplify_eq/=. right. eauto.
Qed.

(** Whatever relates a store to the store after each of the four kinds of
    writes [_collapseNode] makes, relates the store before a collapse to
    the store after it. *)
Lemma _collapseNode_writes (R : Store → Store → Prop) r :
  (∀ s, R s s) →
  (∀ s1 s2 s3, R s1 s2 → R s2 s3 → R s1 s3) →
  (∀ s keys, R s (_setSelectedKeys s r keys)) →
  (∀ s pe, R s (_set_previouslyExpanded s
                  (setProperty (previouslyExpanded (_data s)) r pe))) →
  (∀ s keys, R s (_setExpandedKeys s r keys)) →
  (∀ s x, R s (_removeSubscription s r x)) →
  ∀ fuel s x s', _collapseNode isDirKey fuel s r x = Some s' → R s s'.
Proof.
  intros Hrefl Htrans Hsel Hpe Hexp Hsub.
  induction fuel as [|fuel IH]; intros s x s' Hrun; [done|].
  cbn [_collapseNode] in Hrun.
  assert (∀ l s sel acc s1 sel1 acc1,
    forEachM (_collapseNode_child isDirKey (_collapseNode isDirKey fuel) r) l
             (s, sel, acc) = Some (s1, sel1, acc1) → R s s1) as Hloop.
  { clear s x s' Hrun.
    induction l as [|c l IHl]; intros s sel acc s1 sel1 acc1 Hl; cbn [forEachM] in Hl.
    - by simplify_eq.
    - destruct (_collapseNode_child _ _ r (s, sel, acc) c)
        as [[[s2 sel2] acc2]|] eqn:Hc; [|done].
      eapply Htrans; [|by eapply IHl].
      apply _collapseNode_child_cases in Hc as (s0 & Hs0 & Hc).
      assert (R s s0) as H0 by (destruct Hs0 as [->|[keys ->]]; eauto).
      destruct Hc as [(_ & _ & Hc & _)|(_ & -> & _)]; [|done].
      eapply Htrans; [done|]. by eapply IH. }
  destruct (forEachM _ _ _) as [[[s1 sel1] acc1]|] eqn:Hl; [|done].
  cbn [mbind option_bind] in Hrun. simplify_eq.
  eapply Htrans; [by eapply Hloop|].
  eapply Htrans; [apply Hpe|]. eapply Htrans; [apply Hexp|]. apply Hsub.
Qed.

Lemma collapse_frame_refl r s : collapse_frame r s s.
Proof. unfold collapse_frame. split_and!; done. Qed.

Lemma collapse_frame_trans r s1 s2 s3 :
  collapse_frame r s1 s2 → collapse_frame r s2 s3 → collapse_frame r s1 s3.
Proof.
  unfold collapse_frame.
  intros (?&?&?&?&?&?&?&He&Hs) (?&?&?&?&?&?&?&He'&Hs').
  split_and!; try congruence.
  - intros r' Hr. rewrite He', He; done.
  - intros r' Hr. rewrite Hs', Hs; done.
Qed.

Lemma _removeSubscription_frame r s x : collapse_frame r s (_removeSubscription s r x).
Proof.
  unfold _removeSubscription, collapse_frame.
  destruct (subscriptionMap (_data s) !! x); [|done].
  by destruct (existsb _ _).
Qed.

Lemma _collapseNode_frame fuel s r x s' :
  _collapseNode isDirKey fuel s r x = Some s' → collapse_frame r s s'.
Proof.
  apply (_collapseNode_writes (collapse_frame r)).
  - apply collapse_frame_refl.
  - apply collapse_frame_trans.
  - intros s0 keys. unfold collapse_frame. simpl. unfold setProperty.
    split_and!; try done. intros r' Hr. by rewrite lookup_insert_ne.
  - intros s0 pe. unfold collapse_frame. simpl. done.
  - intros s0 keys. unfold collapse_frame. simpl. unfold setProperty.
    split_and!; try done. intros r' Hr. by rewrite lookup_insert_ne.
  - intros s0 x0. apply _removeSubscription_frame.
Qed.

Lemma _removeSubscription_expandedKeysByRoot s r x :
  expandedKeysByRoot (_data (_removeSubscription s r x)) = expandedKeysByRoot (_data s).
Proof.
  unfold _removeSubscription.
  destruct (subscriptionMap (_data s) !! x); [|done].
  by destruct (existsb _ _).
Qed.

Lemma _removeSubscription_previouslyExpanded s r x :
  previouslyExpanded (_data (_removeSubscription s r x)) = previouslyExpanded (_data s).
Proof.
  unfold _removeSubscription.
  destruct (subscriptionMap (_data s) !! x); [|done].
  by destruct (existsb _ _).
Qed.

Lemma _collapseNode_collapsed fuel s r x s' :
  _collapseNode isDirKey fuel s r x = Some s' → x ∉ _getExpandedKeys s' r.
Proof.
  destruct fuel as [|fuel]; [done|]. cbn [_collapseNode]. intros Hrun.
  destruct (forEachM _ _ _) as [[[s1 sel1] acc1]|] eqn:Hl; [|done].
  cbn [mbind option_bind] in Hrun. simplify_eq.
  unfold _getExpandedKeys. rewrite _removeSubscription_expandedKeysByRoot.
  unfold _setExpandedKeys, setProperty. simpl. rewrite lookup_insert_eq. simpl.
  set_solver.
Qed.

Lemma _collapseNode_returns st r :
  child_keys_extend st →
  ∀ fuel s x,
    childKeyMap (_data s) = childKeyMap (_data st) →
    longest_child_key st - String.length x < fuel →
    is_Some (_collapseNode isDirKey fuel s r x).
Proof.
  intros Hext. induction fuel as [|fuel IH]; intros s x Hcm Hlen; [lia|].
  cbn [_collapseNode].
  assert (∀ l s sel acc,
    childKeyMap (_data s) = childKeyMap (_data st) →
    (∀ c, c ∈ l → longest_child_key st - String.length c < fuel) →
    is_Some (forEachM (_collapseNode_child isDirKey (_collapseNode isDirKey fuel) r)
               l (s, sel, acc))) as Hloop.
  { clear s x Hcm Hlen.
    induction l as [|c l IHl]; intros s sel acc Hcm Hl; cbn [forEachM]; [eauto|].
    assert (∃ s2 sel2 acc2,
      _collapseNode_child isDirKey (_collapseNode isDirKey fuel) r (s, sel, acc) c
      = Some (s2, sel2, acc2) ∧
      childKeyMap (_data s2) = childKeyMap (_data st)) as (s2 & sel2 & acc2 & -> & Hcm2).
    { unfold _collapseNode_child.
      set (p := match sel with
                | Some keys => if oset_has keys c then _ else _
                | None => _ end).
      assert (childKeyMap (_data p.1) = childKeyMap (_data st)) as Hp.
      { unfold p. destruct sel as [keys|]; [destruct (oset_has keys c)|]; done. }
      destruct p as [s0 sel0]. simpl in Hp.
      destruct (isDirKey c && isExpanded s0 r c); [|eauto 10].
      destruct (IH s0 c Hp) as [s3 H3]; [apply Hl; left|].
      rewrite H3. simpl. do 3 eexists. split; [done|].
      apply _collapseNode_frame in H3 as (-> & _). done. }
    apply IHl; [done|]. intros; apply Hl; by right. }
  destruct (Hloop (default [] (childKeyMap (_data s) !! x)) s
              (selectedKeysByRoot (_data s) !! r) []) as [[[s1 sel1] acc1] ->];
    [done| |by eauto].
  intros c Hc. destruct (childKeyMap (_data s) !! x) as [cs|] eqn:Hx;
    [|by apply elem_of_nil in Hc].
  simpl in Hc. rewrite Hcm in Hx.
  pose proof (Hext _ _ _ Hx Hc). pose proof (longest_child_key_le _ _ _ _ Hx Hc). lia.
Qed.

Lemma _checkTrackedNode_frame s :
  childKeyMap (_data (_checkTrackedNode s)) = childKeyMap (_data s) ∧
  isLoadingMap (_data (_checkTrackedNode s)) = isLoadingMap (_data s) ∧
  rootKeys (_data (_checkTrackedNode s)) = rootKeys (_data s) ∧
  vcsStatusesByRoot (_data (_checkTrackedNode s)) = vcsStatusesByRoot (_data s) ∧
  expandedKeysByRoot (_data (_checkTrackedNode s)) = expandedKeysByRoot (_data s) ∧
  selectedKeysByRoot (_data (_checkTrackedNode s)) = selectedKeysByRoot (_data s) ∧
  _logger (_checkTrackedNode s) = _logger s ∧
  fetchChildrenCalls (_checkTrackedNode s) = fetchChildrenCalls s.
Proof.
  unfold _checkTrackedNode. destruct (trackedNode _); [|done].
  by destruct (decide _).
Qed.

(** C6.  When the listing of a key fails, the error is logged, the key is
    no longer expanded under the root it belongs to, its entry in the
    loading map is cleared and the cached child lists are what they were;
    the roots, the status annotations, the other loading entries, the
    listing calls made, and the expansion and selection of every other root
    are untouched.  On a cache that is a tree of paths the callback
    returns. *)
Theorem _fetchChildKeys_catch_recovers st k :
  (∀ fuel st',
     _fetchChildKeys_catch isDirKey fuel st k = Some st' →
     fetch_failure_recovered st k st') ∧
  (child_keys_extend st →
   ∀ fuel, longest_child_key st < fuel →
           is_Some (_fetchChildKeys_catch isDirKey fuel st k)).
Proof.
  split.
  - intros fuel st' Hrun. unfold _fetchChildKeys_catch in Hrun.
    set (st0 := logger_error st (ErrorFetchingChildren k)) in *.
    assert (getRootForKey st0 k = getRootForKey st k) as Hroot by done.
    rewrite Hroot in Hrun.
    destruct (getRootForKey st k) as [r|] eqn:Hr.
    + destruct (_collapseNode isDirKey fuel st0 r k) as [st1|] eqn:Hc; simplify_eq/=.
      pose proof (_collapseNode_collapsed _ _ _ _ _ Hc) as Hk.
      apply _collapseNode_frame in Hc as (Hcm & Hrk & Hld & Hvcs & Hlog & Hf & _ & He & Hs).
      unfold fetch_failure_recovered, _clearLoading, _getLoading, isExpanded,
        _getExpandedKeys, deleteProperty in *.
      destruct (_checkTrackedNode_frame
                  (_set_isLoadingMap st1 (delete k (isLoadingMap (_data st1)))))
        as (-> & -> & -> & -> & -> & -> & -> & ->).
      simpl. rewrite Hcm, Hrk, Hld, Hvcs, Hlog, Hf. simpl.
      split_and!; try done.
      * intros r' Hr'. simplify_eq. by apply bool_decide_eq_false.
      * apply lookup_delete_eq.
      * intros r' Hr'. assert (r' ≠ r) by congruence. by rewrite He, Hs.
    + simplify_eq/=.
      unfold fetch_failure_recovered, _clearLoading, _getLoading, deleteProperty.
      destruct (_checkTrackedNode_frame
                  (_set_isLoadingMap st0 (delete k (isLoadingMap (_data st0)))))
        as (-> & -> & -> & -> & -> & -> & -> & ->).
      simpl. split_and!; try done; [congruence|apply lookup_delete_eq].
  - intros Hext fuel Hfuel. unfold _fetchChildKeys_catch.
    set (st0 := logger_error st (ErrorFetchingChildren k)).
    destruct (getRootForKey st0 k) as [r|]; simpl; [|eauto].
    destruct (_collapseNode_returns st r Hext fuel st0 k) as [st1 ->];
      [done|lia|]. simpl. eauto.
Qed.

(** A check of [child_keys_extend] that can be run on a given store. *)
Lemma child_keys_extend_check st :
  map_Forall (λ k cs, Forall (λ c, String.length k < String.length c) cs)
             (childKeyMap (_data st)) →
  child_keys_extend st.
Proof.
  intros H k cs c Hk Hc. specialize (H k cs Hk). rewrite Forall_forall in H.
  by apply H.
Qed.

(** ** Purging twice *)

Lemma foldl_id {A B} (f : A → B → A) (a : A) (l : list B) :
  (∀ x, x ∈ l → f a x = a) → foldl f a l = a.
Proof.
  clear isDirKey getDirectoryByKey.
  induction l as [|x l IH]; intros H; simpl; [done|].
  rewrite H by left. apply IH. intros y Hy. apply H. by right.
Qed.

Lemma _purgeDirectory_purged fuel st k :
  purged st k → _purgeDirectory isDirKey (S fuel) st k = Some st.
Proof.
  intros (Pc & Ps & Pe & Pk). cbn [_purgeDirectory]. rewrite Pc.
  cbn [mbind option_bind]. unfold _removeAllSubscriptions. rewrite Ps.
  assert (purge_expanded st k = st) as ->.
  { unfold purge_expanded. apply foldl_id. intros r _.
    destruct (expandedKeysByRoot (_data st) !! r) as [s|] eqn:Hr; [|done].
    rewrite bool_decide_eq_false_2; [done|]. by eapply Pe. }
  f_equal. unfold purge_selected. apply foldl_id. intros r _.
  destruct (selectedKeysByRoot (_data st) !! r) as [s|] eqn:Hr; [|done].
  unfold oset_has. rewrite bool_decide_eq_false_2; [done|]. by eapply Pk.
Qed.

(** A key of which the store holds nothing is purged without any write,
    and a second purge of a key changes nothing: the cascade is
    idempotent. *)
Theorem _purgeDirectory_idempotent fuel st k st' :
  _purgeDirectory isDirKey fuel st k = Some st' →
  ∀ fuel', _purgeDirectory isDirKey (S fuel') st' k = Some st'.
Proof.
  intros H fuel'. apply _purgeDirectory_purged.
  eapply (purge_cascade st) in H as (_ & _ & H).
  - apply H, container_descendant_refl.
  - apply shrinks_refl.
  - intros x cs Hx Hn. congruence.
Qed.

(** ** A listing that succeeds *)

(** Whatever relates a store to the store after each of the four kinds of
    writes of the purge cascade, relates the store before a purge to the
    store after it. *)
Lemma foldl_writes {A} (R : Store → Store → Prop) (f : Store → A → Store) l :
  (∀ s, R s s) →
  (∀ s1 s2 s3, R s1 s2 → R s2 s3 → R s1 s3) →
  (∀ s x, R s (f s x)) →
  ∀ s, R s (foldl f s l).
Proof.
  clear isDirKey getDirectoryByKey.
  intros Hrefl Htrans Hf. induction l as [|x l IH]; intros s; simpl; [done|].
  eapply Htrans; [apply Hf|apply IH].
Qed.

Lemma _purgeDirectory_writes (R : Store → Store → Prop) :
  (∀ s, R s s) →
  (∀ s1 s2 s3, R s1 s2 → R s2 s3 → R s1 s3) →
  (∀ s k, R s (_set_childKeyMap s (deleteProperty (childKeyMap (_data s)) k))) →
  (∀ s k, R s (_removeAllSubscriptions s k)) →
  (∀ s r keys, R s (_setExpandedKeys s r keys)) →
  (∀ s r keys, R s (_setSelectedKeys s r keys)) →
  ∀ fuel s k s', _purgeDirectory isDirKey fuel s k = Some s' → R s s'.
Proof.
  intros Hrefl Htrans Hcm Hsub Hexp Hsel.
  induction fuel as [|fuel IH]; intros s k s' Hrun; [done|].
  cbn [_purgeDirectory] in Hrun.
  assert (∀ l s s1,
    forEachM (λ st childKey,
                if isDirKey childKey then _purgeDirectory isDirKey fuel st childKey
                else Some st) l s = Some s1 → R s s1) as Hloop.
  { induction l as [|c l IHl]; intros s0 s1 Hl; cbn [forEachM] in Hl;
      [by simplify_eq|].
    destruct (isDirKey c); [|by eapply IHl].
    destruct (_purgeDirectory isDirKey fuel s0 c) as [s2|] eqn:Hc; [|done].
    eapply Htrans; [by eapply IH|by eapply IHl]. }
  assert (∀ s, R s (purge_selected (purge_expanded (_removeAllSubscriptions s k) k) k))
    as Hnode.
  { intros s0. eapply Htrans; [apply Hsub|].
    apply (Htrans _ (purge_expanded (_removeAllSubscriptions s0 k) k)).
    - unfold purge_expanded. cbv zeta. apply foldl_writes; [done..|].
      intros s1 x. destruct (_ !! x); [|done]. by destruct (bool_decide _).
    - unfold purge_selected. cbv zeta. apply foldl_writes; [done..|].
      intros s1 x. destruct (_ !! x); [|done]. by destruct (oset_has _ _). }
  destruct (childKeyMap (_data s) !! k) as [cs|].
  - destruct (forEachM _ cs s) as [s1|] eqn:Hl; [|done].
    cbn [mbind option_bind] in Hrun. simplify_eq.
    eapply Htrans; [by eapply Hloop|]. eapply Htrans; [apply Hcm|]. apply Hnode.
  - cbn [mbind option_bind] in Hrun. simplify_eq. apply Hnode.
Qed.

Lemma _setChildKeys_writes (R : Store → Store → Prop) :
  (∀ s, R s s) →
  (∀ s1 s2 s3, R s1 s2 → R s2 s3 → R s1 s3) →
  (∀ s k, R s (_set_childKeyMap s (deleteProperty (childKeyMap (_data s)) k))) →
  (∀ s k, R s (_removeAllSubscriptions s k)) →
  (∀ s r keys, R s (_setExpandedKeys s r keys)) →
  (∀ s r keys, R s (_setSelectedKeys s r keys)) →
  (∀ s k childKeys,
     R s (_set_childKeyMap s (setProperty (childKeyMap (_data s)) k childKeys))) →
  ∀ fuel s k childKeys s',
    _setChildKeys isDirKey fuel s k childKeys = Some s' → R s s'.
Proof.
  intros Hrefl Htrans Hcm Hsub Hexp Hsel Hset fuel s k childKeys s' Hrun.
  unfold _setChildKeys in Hrun.
  assert (∀ l s s1,
    forEachM (λ st childKey,
                if isDirKey childKey && negb (bool_decide (childKey ∈ childKeys))
                then _purgeDirectory isDirKey fuel st childKey
                else Some st) l s = Some s1 → R s s1) as Hloop.
  { induction l as [|c l IHl]; intros s0 s1 Hl; cbn [forEachM] in Hl;
      [by simplify_eq|].
    destruct (isDirKey c && negb (bool_decide (c ∈ childKeys))); [|by eapply IHl].
    destruct (_purgeDirectory isDirKey fuel s0 c) as [s2|] eqn:Hc; [|done].
    eapply Htrans; [|by eapply IHl].
    by eapply (_purgeDirectory_writes R). }
  destruct (childKeyMap (_data s) !! k) as [old|].
  - destruct (forEachM _ old s) as [s1|] eqn:Hl; [|done].
    cbn [mbind option_bind] in Hrun. simplify_eq.
    eapply Htrans; [by eapply Hloop|]. apply Hset.
  - cbn [mbind option_bind] in Hrun. simplify_eq. apply Hset.
Qed.

Lemma _setChildKeys_installs fuel st k childKeys st' :
  _setChildKeys isDirKey fuel st k childKeys = Some st' →
  childKeyMap (_data st') !! k = Some childKeys ∧
  isLoadingMap (_data st') = isLoadingMap (_data st) ∧
  rootKeys (_data st') = rootKeys (_data st).
Proof.
  intros H. split.
  - unfold _setChildKeys in H.
    destruct (match childKeyMap (_data st) !! k with
              | Some _ => _ | None => _ end) as [s1|]; [|done].
    cbn [mbind option_bind] in H. simplify_eq. simpl.
    unfold setProperty. by rewrite lookup_insert_eq.
  - revert H.
    apply (_setChildKeys_writes
             (λ s s', isLoadingMap (_data s') = isLoadingMap (_data s) ∧
                      rootKeys (_data s') = rootKeys (_data s))); try done.
    + intros s1 s2 s3 [-> ->] [-> ->]. done.
    + intros s k0. unfold _removeAllSubscriptions.
      by destruct (subscriptionMap _ !! k0).
Qed.

(** When the listing of a key settles with its child keys and the key
    belongs to a registered root, the child list is installed as it came,
    the loading entry of the key is cleared and, for a directory, so is its
    dirty mark.  When no registered root contains the key any more, the
    result is dropped and the store stays as it is, the loading entry of the
    key included: a later fetch of the key is answered with the settled
    promise and asks for no new listing.  On a cache that is a tree of paths
    the callback returns. *)
Theorem _fetchChildKeys_then_settles fuel st k childKeys :
  (∀ st', is_Some (getRootForKey st k) →
     _fetchChildKeys_then isDirKey getDirectoryByKey fuel st k childKeys = Some st' →
     getCachedChildKeys st' k k = childKeys ∧
     isLoading st' k k = false ∧
     (is_Some (getDirectoryByKey k) → isDirty st' k = false)) ∧
  (∀ p, getRootForKey st k = None → _getLoading st k = Some p →
     ∃ st', _fetchChildKeys_then isDirKey getDirectoryByKey fuel st k childKeys
            = Some st' ∧
            st' = st ∧ isLoading st' k k = true ∧ _fetchChildKeys st' k = (st', p)) ∧
  (child_keys_extend st → longest_child_key st < fuel →
   is_Some (_fetchChildKeys_then isDirKey getDirectoryByKey fuel st k childKeys)).
Proof.
  split_and!.
  - intros st' [r Hr] H. unfold _fetchChildKeys_then in H. rewrite Hr in H.
    destruct (_setChildKeys isDirKey fuel st k childKeys) as [s1|] eqn:H1;
      simplify_eq/=.
    apply _setChildKeys_installs in H1 as (Hk & _).
    assert (childKeyMap (_data (_addSubscription getDirectoryByKey s1 k)) !! k
            = Some childKeys ∧
            (is_Some (getDirectoryByKey k) →
             isDirtyMap (_data (_addSubscription getDirectoryByKey s1 k)) !! k = None))
      as [Hc Hd].
    { unfold _addSubscription. destruct (getDirectoryByKey k) as [dir|].
      - assert (∀ s : Store, childKeyMap (_data s) = childKeyMap (_data s1) →
                  isDirtyMap (_data s) = delete k (isDirtyMap (_data s1)) →
                  childKeyMap (_data s) !! k = Some childKeys ∧
                  (is_Some (Some dir) → isDirtyMap (_data s) !! k = None)) as Hs.
        { intros s -> ->. split; [done|]. intros _. apply lookup_delete_eq. }
        simpl. destruct (subscriptionMap (_data s1) !! k); [by apply Hs|].
        destruct (onDidChange_throws dir); by apply Hs.
      - split; [done|]. by intros [? ?]. }
    unfold getCachedChildKeys, isLoading, isDirty, _getLoading, _clearLoading.
    destruct (_checkTrackedNode_frame
                (_set_isLoadingMap (_addSubscription getDirectoryByKey s1 k)
                   (deleteProperty
                      (isLoadingMap (_data (_addSubscription getDirectoryByKey s1 k))) k)))
      as (-> & -> & _).
    split_and!.
    + simpl. by rewrite Hc.
    + simpl. unfold deleteProperty. rewrite lookup_delete_eq.
      apply bool_decide_eq_false. by intros [? ?].
    + intros Hdir.
      assert (isDirtyMap (_data (_checkTrackedNode
                (_set_isLoadingMap (_addSubscription getDirectoryByKey s1 k)
                   (deleteProperty
                      (isLoadingMap
                         (_data (_addSubscription getDirectoryByKey s1 k))) k))))
              = isDirtyMap (_data (_addSubscription getDirectoryByKey s1 k))) as ->.
      { unfold _checkTrackedNode. destruct (trackedNode _); [|done].
        by destruct (decide _). }
      by rewrite Hd.
  - intros p Hr Hp. exists st. unfold _fetchChildKeys_then. rewrite Hr.
    split_and!; [done..| |].
    + unfold isLoading. rewrite Hp. apply bool_decide_eq_true. eauto.
    + unfold _fetchChildKeys. by rewrite Hp.
  - intros Hext Hfuel. by apply _fetchChildKeys_then_returns.
Qed.

(** ** Replacing the roots *)

Lemma _purgeRoot_spec st r :
  let st' := _purgeRoot isDirKey st r in
  expandedKeysByRoot (_data st') = delete r (expandedKeysByRoot (_data st)) ∧
  selectedKeysByRoot (_data st') = delete r (selectedKeysByRoot (_data st)) ∧
  vcsStatusesByRoot (_data st') = delete r (vcsStatusesByRoot (_data st)) ∧
  rootKeys (_data st') = rootKeys (_data st) ∧
  (∀ k, childKeyMap (_data st') !! k
        = match childKeyMap (_data st) !! r with
          | Some childKeys =>
              if decide (k = r ∨ (k ∈ childKeys ∧ isDirKey k = true)) then None
              else childKeyMap (_data st) !! k
          | None => childKeyMap (_data st) !! k
          end).
Proof.
  clear getDirectoryByKey.
  cbv zeta. unfold _purgeRoot.
  set (st1 := match expandedKeysByRoot (_data st) !! r with
              | Some _ => _ | None => _ end).
  assert (expandedKeysByRoot (_data st1) = delete r (expandedKeysByRoot (_data st)) ∧
          selectedKeysByRoot (_data st1) = selectedKeysByRoot (_data st) ∧
          vcsStatusesByRoot (_data st1) = vcsStatusesByRoot (_data st) ∧
          rootKeys (_data st1) = rootKeys (_data st) ∧
          childKeyMap (_data st1) = childKeyMap (_data st)) as (He & Hs & Hv & Hr & Hc).
  { unfold st1. destruct (expandedKeysByRoot (_data st) !! r) as [keys|] eqn:Hk.
    - pose proof (foldl_writes
        (λ s s', expandedKeysByRoot (_data s') = expandedKeysByRoot (_data s) ∧
                 selectedKeysByRoot (_data s') = selectedKeysByRoot (_data s) ∧
                 vcsStatusesByRoot (_data s') = vcsStatusesByRoot (_data s) ∧
                 rootKeys (_data s') = rootKeys (_data s) ∧
                 childKeyMap (_data s') = childKeyMap (_data s))
        (λ st nodeKey, _removeSubscription st r nodeKey) (elements keys)) as Hf.
      destruct (Hf ltac:(done)) with (s := st) as (He & Hs & Hv & Hr & Hc).
      + intros s1 s2 s3 (-> & -> & -> & -> & ->) (-> & -> & -> & -> & ->). done.
      + intros s x. unfold _removeSubscription.
        destruct (subscriptionMap (_data s) !! x); [|done].
        by destruct (existsb _ _).
      + simpl. unfold deleteProperty. rewrite He, Hs, Hv, Hr, Hc. done.
    - split_and!; try done. symmetry. by apply delete_id. }
  clearbody st1.
  set (st2 := _set_selectedKeysByRoot st1 _).
  assert (∀ l s,
    let s' := foldl (λ st childKey,
                if isDirKey childKey
                then _set_childKeyMap st (deleteProperty (childKeyMap (_data st)) childKey)
                else st) s l in
    expandedKeysByRoot (_data s') = expandedKeysByRoot (_data s) ∧
    selectedKeysByRoot (_data s') = selectedKeysByRoot (_data s) ∧
    vcsStatusesByRoot (_data s') = vcsStatusesByRoot (_data s) ∧
    rootKeys (_data s') = rootKeys (_data s) ∧
    ∀ k, childKeyMap (_data s') !! k
         = if decide (k ∈ l ∧ isDirKey k = true) then None
           else childKeyMap (_data s) !! k) as Hloop.
  { induction l as [|c l IHl] using rev_ind; intros s; cbv zeta.
    - split_and!; try done.
      all: intros k; rewrite decide_False; [done|];
        intros [Hk _]; by apply elem_of_nil in Hk.
    - rewrite foldl_app. cbn [foldl].
      destruct (IHl s) as (He' & Hs' & Hv' & Hr' & Hc').
      destruct (isDirKey c) eqn:Hdir.
      + simpl. split_and!; try done. intros k. unfold deleteProperty.
        destruct (decide (k = c)) as [->|Hne].
        * rewrite lookup_delete_eq. rewrite decide_True; [done|].
          split; [set_solver|done].
        * rewrite lookup_delete_ne by done. rewrite Hc'.
          destruct (decide (k ∈ l ∧ isDirKey k = true)) as [[? ?]|Hn].
          -- rewrite decide_True; [done|]. split; [set_solver|done].
          -- rewrite decide_False; [done|]. intros [Hin ?]. apply Hn.
             split; [|done]. set_solver.
      + split_and!; try done. intros k. rewrite Hc'.
        destruct (decide (k ∈ l ∧ isDirKey k = true)) as [[? ?]|Hn].
        * rewrite decide_True; [done|]. split; [set_solver|done].
        * rewrite decide_False; [done|]. intros [Hin ?]. apply Hn.
          split; [|done]. apply elem_of_app in Hin as [?|Hin]; [done|].
          apply list_elem_of_singleton in Hin. congruence. }
  assert (childKeyMap (_data st2) = childKeyMap (_data st) ∧
          expandedKeysByRoot (_data st2) = delete r (expandedKeysByRoot (_data st)) ∧
          selectedKeysByRoot (_data st2) = delete r (selectedKeysByRoot (_data st)) ∧
          vcsStatusesByRoot (_data st2) = vcsStatusesByRoot (_data st) ∧
          rootKeys (_data st2) = rootKeys (_data st)) as (Hc2 & He2 & Hs2 & Hv2 & Hr2).
  { unfold st2, deleteProperty. simpl. by rewrite He, Hs, Hv, Hr, Hc. }
  clearbody st2. rewrite Hc2.
  destruct (childKeyMap (_data st) !! r) as [childKeys|] eqn:Hcs.
  - destruct (Hloop childKeys st2) as (He' & Hs' & Hv' & Hr' & Hc').
    cbv zeta in *.
    set (s3 := foldl _ st2 childKeys) in *. clearbody s3.
    simpl. unfold deleteProperty.
    rewrite He', Hs', Hv', Hr', He2, Hs2, Hv2, Hr2.
    split_and!; try done. intros k.
    destruct (decide (k = r)) as [->|Hne].
    + rewrite lookup_delete_eq. rewrite decide_True; [done|]. by left.
    + rewrite lookup_delete_ne by done. rewrite Hc', Hc2.
      destruct (decide (k ∈ childKeys ∧ isDirKey k = true)) as [?|Hn].
      * rewrite decide_True; [done|]. by right.
      * rewrite decide_False; [done|]. intros [?|?]; done.
  - simpl. unfold deleteProperty. rewrite He2, Hs2, Hv2, Hr2, Hc2. done.
Qed.

(** [_setRootKeys] installs the new list of roots.  A root that is dropped
    loses its expansion set, its selection and its status annotations, and
    its cached child list; the expansion, selection and status annotations
    of every other root are what they were, and no cached child list is
    added or changed. *)
Theorem _setRootKeys_spec st (new : list string) :
  let st' := _setRootKeys isDirKey st new in
  let dropped r := r ∈ rootKeys (_data st) ∧ r ∉ new in
  rootKeys (_data st') = new ∧
  (∀ r, expandedKeysByRoot (_data st') !! r
        = if decide (dropped r) then None else expandedKeysByRoot (_data st) !! r) ∧
  (∀ r, selectedKeysByRoot (_data st') !! r
        = if decide (dropped r) then None else selectedKeysByRoot (_data st) !! r) ∧
  (∀ r, vcsStatusesByRoot (_data st') !! r
        = if decide (dropped r) then None else vcsStatusesByRoot (_data st) !! r) ∧
  childKeyMap (_data st') ⊆ childKeyMap (_data st) ∧
  (∀ r, dropped r → childKeyMap (_data st') !! r = None).
Proof.
  clear getDirectoryByKey.
  cbv zeta. unfold _setRootKeys, getRootKeys. simpl.
  generalize (rootKeys (_data st)) as l.
  assert (∀ l,
    let s' := foldl (λ st rootKey,
                if bool_decide (rootKey ∈ new) then st
                else _purgeRoot isDirKey st rootKey) st l in
    (∀ r, expandedKeysByRoot (_data s') !! r
          = if decide (r ∈ l ∧ r ∉ new) then None
            else expandedKeysByRoot (_data st) !! r) ∧
    (∀ r, selectedKeysByRoot (_data s') !! r
          = if decide (r ∈ l ∧ r ∉ new) then None
            else selectedKeysByRoot (_data st) !! r) ∧
    (∀ r, vcsStatusesByRoot (_data s') !! r
          = if decide (r ∈ l ∧ r ∉ new) then None
            else vcsStatusesByRoot (_data st) !! r) ∧
    childKeyMap (_data s') ⊆ childKeyMap (_data st) ∧
    (∀ r, r ∈ l ∧ r ∉ new → childKeyMap (_data s') !! r = None)) as Hloop.
  { induction l as [|x l IHl] using rev_ind; cbv zeta.
    - split_and!; try done.
      all: intros r; try (rewrite decide_False; [done|]); intros [Hr _];
        by apply elem_of_nil in Hr.
    - rewrite foldl_app. cbn [foldl]. cbv zeta in IHl.
      destruct IHl as (He & Hs & Hv & Hc & Hd).
      assert (∀ r, (r ∈ l ++ [x] ∧ r ∉ new) ↔ (r ∈ l ∧ r ∉ new) ∨ (r = x ∧ x ∉ new))
        as Hsplit.
      { intros r. rewrite elem_of_app, list_elem_of_singleton.
        split.
        - intros [[Hr| ->] Hn]; eauto.
        - intros [[Hr Hn]|[-> Hn]]; eauto. }
      destruct (bool_decide_reflect (x ∈ new)) as [Hx|Hx].
      + assert (∀ r, (r ∈ l ++ [x] ∧ r ∉ new) ↔ (r ∈ l ∧ r ∉ new)) as Hsame.
        { intros r. rewrite Hsplit. split; [|eauto].
          intros [Hr|[-> Hn]]; done. }
        split_and!; try done.
        * intros r. rewrite He. apply decide_ext. by rewrite Hsame.
        * intros r. rewrite Hs. apply decide_ext. by rewrite Hsame.
        * intros r. rewrite Hv. apply decide_ext. by rewrite Hsame.
        * intros r Hr. apply Hd. by apply Hsame.
      + destruct (_purgeRoot_spec (foldl (λ st rootKey,
                    if bool_decide (rootKey ∈ new) then st
                    else _purgeRoot isDirKey st rootKey) st l) x)
          as (He' & Hs' & Hv' & _ & Hc'). cbv zeta in *.
        set (s1 := foldl _ st l) in *.
        assert (childKeyMap (_data (_purgeRoot isDirKey s1 x)) ⊆ childKeyMap (_data s1))
          as Hsub.
        { apply map_subseteq_spec. intros k v. rewrite Hc'.
          destruct (childKeyMap (_data s1) !! x); [|done]. by destruct (decide _). }
        assert (∀ {V} (m' m1 m : gmap string V),
          m' = delete x m1 →
          (∀ r, m1 !! r = if decide (r ∈ l ∧ r ∉ new) then None else m !! r) →
          ∀ r, m' !! r = if decide (r ∈ l ++ [x] ∧ r ∉ new) then None else m !! r)
          as Hdel.
        { intros V m' m1 m -> H1 r.
          destruct (decide (r = x)) as [->|Hne].
          - rewrite lookup_delete_eq. rewrite decide_True; [done|].
            apply Hsplit. by right.
          - rewrite lookup_delete_ne by done. rewrite H1. apply decide_ext.
            rewrite Hsplit. split; [eauto|]. intros [Hr|[Hr Hn]]; done. }
        split_and!.
        * by eapply Hdel.
        * by eapply Hdel.
        * by eapply Hdel.
        * by etrans.
        * intros r Hr. apply Hsplit in Hr as [Hr|[-> _]].
          -- specialize (Hd r Hr).
             destruct (childKeyMap (_data (_purgeRoot isDirKey s1 x)) !! r) eqn:E;
               [|done].
             eapply lookup_weaken in E; [|done]. congruence.
          -- rewrite Hc'. destruct (childKeyMap (_data s1) !! x); [|done].
             rewrite decide_True; [done|]. by left. }
  intros l. destruct (Hloop l) as (He & Hs & Hv & Hc & Hd). cbv zeta in *.
  split_and!; done.
Qed.

(** ** Setting the selection of the whole tree *)

(** [_setSelectedKeysByRoot] gives every registered root the selection the
    argument holds for it, and no selection entry when the argument holds
    none; entries of the argument for keys that are no registered roots are
    ignored, and the selection entries of such keys stay as they are.  The
    roots themselves do not change. *)
Theorem _setSelectedKeysByRoot_spec st (selection : gmap string (list string)) :
  let st' := _setSelectedKeysByRoot st selection in
  rootKeys (_data st') = rootKeys (_data st) ∧
  expandedKeysByRoot (_data st') = expandedKeysByRoot (_data st) ∧
  ∀ r, selectedKeysByRoot (_data st') !! r
       = if decide (r ∈ rootKeys (_data st)) then selection !! r
         else selectedKeysByRoot (_data st) !! r.
Proof.
  clear isDirKey getDirectoryByKey.
  cbv zeta. unfold _setSelectedKeysByRoot, getRootKeys.
  assert (∀ l : list string,
    let s' := foldl (λ st rootKey,
                match selection !! rootKey with
                | Some selectedKeys => _setSelectedKeys st rootKey selectedKeys
                | None => _deleteSelectedKeys st rootKey
                end) st l in
    rootKeys (_data s') = rootKeys (_data st) ∧
    expandedKeysByRoot (_data s') = expandedKeysByRoot (_data st) ∧
    ∀ r, selectedKeysByRoot (_data s') !! r
         = if decide (r ∈ l) then selection !! r
           else selectedKeysByRoot (_data st) !! r) as Hloop.
  { induction l as [|x l IHl] using rev_ind; cbv zeta.
    - split_and!; try done.
    - rewrite foldl_app. cbn [foldl]. cbv zeta in IHl. destruct IHl as (Hr & He & Hs).
      set (s1 := foldl _ st l) in *. clearbody s1.
      assert (∀ r, (if decide (r = x) then selection !! x
                    else selectedKeysByRoot (_data s1) !! r)
                   = if decide (r ∈ l ++ [x]) then selection !! r
                     else selectedKeysByRoot (_data st) !! r) as Hcase.
      { intros r. destruct (decide (r = x)) as [->|Hne].
        - rewrite decide_True; [done|]. set_solver.
        - rewrite Hs. apply decide_ext. set_solver. }
      destruct (selection !! x) as [keys|] eqn:Hx.
      + unfold _setSelectedKeys, setProperty. simpl. split_and!; try done.
        intros r. rewrite <- Hcase. destruct (decide (r = x)) as [->|Hne].
        * by rewrite lookup_insert_eq.
        * by rewrite lookup_insert_ne.
      + unfold _deleteSelectedKeys, deleteProperty. simpl. split_and!; try done.
        intros r. rewrite <- Hcase. destruct (decide (r = x)) as [->|Hne].
        * by rewrite lookup_delete_eq.
        * by rewrite lookup_delete_ne. }
  apply Hloop.
Qed.

(** ** Resetting the store *)

Lemma omap_lookup_keys {V} (m : gmap string V) (l : list (string * V)) :
  (∀ k v, (k, v) ∈ l → m !! k = Some v) →
  omap (λ k, m !! k) l.*1 = l.*2.
Proof.
  clear isDirKey getDirectoryByKey.
  induction l as [|[k v] l IH]; intros H; simpl; [done|].
  rewrite (H k v) by left. f_equal. apply IH. intros k' v' Hin. apply H. by right.
Qed.

(** [reset] disposes every subscription the store holds, each of them
    once, disposes nothing else, and puts the data back to its defaults. *)
Theorem reset_spec st :
  _data (reset st) = _getDefaults ∧
  disposedSubscriptions (reset st)
  = disposedSubscriptions st ++ (map_to_list (subscriptionMap (_data st))).*2 ∧
  (∀ k h, subscriptionMap (_data st) !! k = Some h → h ∈ disposedSubscriptions (reset st)).
Proof.
  unfold reset.
  assert (∀ l s,
    let s' := foldl (λ st nodeKey,
                match subscriptionMap (_data st) !! nodeKey with
                | Some subscription => dispose st subscription
                | None => st
                end) s l in
    _data s' = _data s ∧
    disposedSubscriptions s'
    = disposedSubscriptions s ++ omap (λ k, subscriptionMap (_data s) !! k) l) as Hloop.
  { induction l as [|x l IHl]; intros s; cbv zeta; simpl.
    - by rewrite app_nil_r.
    - destruct (subscriptionMap (_data s) !! x) as [h|] eqn:Hx.
      + destruct (IHl (dispose s h)) as [-> ->]. simpl.
        by rewrite <- app_assoc.
      + apply IHl. }
  destruct (Hloop (Object_keys (subscriptionMap (_data st))) st) as [Hd Hdisp].
  cbv zeta in *. simpl.
  assert (disposedSubscriptions
            (foldl (λ st nodeKey,
               match subscriptionMap (_data st) !! nodeKey with
               | Some subscription => dispose st subscription
               | None => st
               end) st (Object_keys (subscriptionMap (_data st))))
          = disposedSubscriptions st ++ (map_to_list (subscriptionMap (_data st))).*2)
    as Heq.
  { rewrite Hdisp. f_equal. unfold Object_keys. apply omap_lookup_keys.
    intros k v. apply elem_of_map_to_list. }
  split_and!; [done|done|].
  intros k h Hk. rewrite Heq. apply elem_of_app. right.
  apply list_elem_of_fmap. exists (k, h). split; [done|].
  by apply elem_of_map_to_list.
Qed.

(** ** What is exported, and what an import starts *)

Lemma foldl_insert_lookup {V} (f : string → V) (l : list string)
    (a : gmap string V) k :
  foldl (λ a n, <[n := f n]> a) a l !! k
  = if decide (k ∈ l) then Some (f k) else a !! k.
Proof.
  clear isDirKey getDirectoryByKey.
  induction l as [|x l IH] using rev_ind.
  - rewrite decide_False; [done|]. apply not_elem_of_nil.
  - rewrite foldl_app. cbn [foldl]. destruct (decide (k = x)) as [->|Hne].
    + rewrite lookup_insert_eq. rewrite decide_True; [done|]. set_solver.
    + rewrite lookup_insert_ne by done. rewrite IH. apply decide_ext. set_solver.
Qed.

Lemma foldl_foldl_bind {A B C} (h : A → C → A) (g : B → list C) (l : list B) a :
  foldl (λ a r, foldl h a (g r)) a l = foldl h a (l ≫= g).
Proof.
  clear isDirKey getDirectoryByKey.
  revert a. induction l as [|x l IH]; intros a; simpl; [done|].
  by rewrite foldl_app, IH.
Qed.

(** [exportData] exports the cached child list of exactly the keys that are
    expanded under some root, be the list known or not; it exports the
    roots as they are, under the current version. *)
Theorem exportData_childKeyMap st k :
  version (exportData st) = VERSION ∧
  ex_rootKeys (exportData st) = rootKeys (_data st) ∧
  ((∃ r s, expandedKeysByRoot (_data st) !! r = Some s ∧ k ∈ s) →
   ex_childKeyMap (exportData st) !! k = Some (childKeyMap (_data st) !! k)) ∧
  ((∀ r s, expandedKeysByRoot (_data st) !! r = Some s → k ∉ s) →
   ex_childKeyMap (exportData st) !! k = None).
Proof.
  clear isDirKey getDirectoryByKey.
  unfold exportData. simpl. split_and!; [done..| |].
  - intros (r & s & Hr & Hk).
    rewrite (foldl_foldl_bind
               (λ a n, <[n := childKeyMap (_data st) !! n]> a)
               (λ r, elements (default ∅ (expandedKeysByRoot (_data st) !! r)))).
    rewrite (foldl_insert_lookup (λ n, childKeyMap (_data st) !! n)).
    rewrite decide_True; [done|].
    apply list_elem_of_bind. exists r. split.
    + rewrite Hr. simpl. by apply elem_of_elements.
    + apply elem_of_Object_keys. eauto.
  - intros Hno.
    rewrite (foldl_foldl_bind
               (λ a n, <[n := childKeyMap (_data st) !! n]> a)
               (λ r, elements (default ∅ (expandedKeysByRoot (_data st) !! r)))).
    rewrite (foldl_insert_lookup (λ n, childKeyMap (_data st) !! n)).
    rewrite decide_False; [done|].
    intros (r & Hk & Hr)%list_elem_of_bind.
    apply elem_of_Object_keys in Hr as [s Hs]. rewrite Hs in Hk. simpl in Hk.
    apply elem_of_elements in Hk. by eapply Hno.
Qed.

(** An import of data of the current version replaces the cached child
    lists by the imported ones and starts one listing for every imported key,
    which is then loading; it subscribes to imported directories only, and
    it disposes none of the subscriptions the store held before. *)
Theorem loadData_refetches st data :
  version data = VERSION →
  let st' := loadData getDirectoryByKey st data in
  childKeyMap (_data st') = omap id (ex_childKeyMap data) ∧
  fetchChildrenCalls st'
  = fetchChildrenCalls st ++ Object_keys (ex_childKeyMap data) ∧
  (∀ k, isLoading st' k k = true ↔ is_Some (ex_childKeyMap data !! k)) ∧
  (∀ k, is_Some (subscriptionMap (_data st') !! k) →
        is_Some (ex_childKeyMap data !! k) ∧ is_Some (getDirectoryByKey k)) ∧
  disposedSubscriptions st' = disposedSubscriptions st.
Proof.
  clear isDirKey.
  intros Hv. cbv zeta. unfold loadData. rewrite Hv. simpl.
  set (s0 := with_data _ st).
  assert (∀ l s,
    NoDup l →
    (∀ k, k ∈ l → isLoadingMap (_data s) !! k = None) →
    let s' := foldl (λ st nodeKey,
                (_fetchChildKeys (_addSubscription getDirectoryByKey st nodeKey)
                   nodeKey).1) s l in
    childKeyMap (_data s') = childKeyMap (_data s) ∧
    fetchChildrenCalls s' = fetchChildrenCalls s ++ l ∧
    (∀ k, is_Some (isLoadingMap (_data s') !! k)
          ↔ k ∈ l ∨ is_Some (isLoadingMap (_data s) !! k)) ∧
    (∀ k, is_Some (subscriptionMap (_data s') !! k) →
          (k ∈ l ∧ is_Some (getDirectoryByKey k))
          ∨ is_Some (subscriptionMap (_data s) !! k)) ∧
    disposedSubscriptions s' = disposedSubscriptions s) as Hloop.
  { induction l as [|x l IHl]; intros s Hnd Hfree; cbv zeta; simpl.
    - rewrite app_nil_r. split_and!; try done.
      + intros k. split; [eauto|]. intros [Hk|?]; [|done]. by apply elem_of_nil in Hk.
      + eauto.
    - apply NoDup_cons in Hnd as [Hx Hnd].
      set (s1 := _addSubscription getDirectoryByKey s x).
      assert (childKeyMap (_data s1) = childKeyMap (_data s) ∧
              fetchChildrenCalls s1 = fetchChildrenCalls s ∧
              isLoadingMap (_data s1) = isLoadingMap (_data s) ∧
              disposedSubscriptions s1 = disposedSubscriptions s ∧
              (∀ k, is_Some (subscriptionMap (_data s1) !! k) →
                    (k = x ∧ is_Some (getDirectoryByKey k))
                    ∨ is_Some (subscriptionMap (_data s) !! k)))
        as (Hc1 & Hf1 & Hl1 & Hd1 & Hs1).
      { unfold s1, _addSubscription.
        destruct (getDirectoryByKey x) as [dir|] eqn:Hdir; [|by eauto 10].
        simpl. destruct (subscriptionMap (_data s) !! x) eqn:Hsx; [by eauto 10|].
        destruct (onDidChange_throws dir); [by eauto 10|].
        simpl. split_and!; try done. intros k. unfold setProperty.
        destruct (decide (k = x)) as [->|Hne].
        - left. rewrite Hdir. eauto.
        - rewrite lookup_insert_ne by done. eauto. }
      clearbody s1.
      set (s2 := (_fetchChildKeys s1 x).1).
      assert (childKeyMap (_data s2) = childKeyMap (_data s1) ∧
              fetchChildrenCalls s2 = fetchChildrenCalls s1 ++ [x] ∧
              isLoadingMap (_data s2) = <[x := nextPromise s1]> (isLoadingMap (_data s1)) ∧
              disposedSubscriptions s2 = disposedSubscriptions s1 ∧
              subscriptionMap (_data s2) = subscriptionMap (_data s1))
        as (Hc2 & Hf2 & Hl2 & Hd2 & Hs2).
      { unfold s2, _fetchChildKeys, _getLoading. rewrite Hl1, (Hfree x) by left.
        simpl. unfold setProperty. by rewrite Hl1. }
      clearbody s2.
      destruct (IHl s2 Hnd) as (Hc & Hf & Hl & Hs & Hd).
      { intros k Hk. rewrite Hl2, Hl1. rewrite lookup_insert_ne; [|set_solver].
        apply Hfree. by right. }
      cbv zeta in *. split_and!.
      + congruence.
      + rewrite Hf, Hf2, Hf1. by rewrite <- app_assoc.
      + intros k. rewrite Hl, Hl2, Hl1. rewrite elem_of_cons.
        destruct (decide (k = x)) as [->|Hne].
        * rewrite lookup_insert_eq. split; [eauto|]. intros _. right. eauto.
        * rewrite lookup_insert_ne by done. split; intros [?|?]; eauto.
          destruct H as [?|?]; [done|eauto].
      + intros k Hk. apply Hs in Hk as [[Hin Hdir]|Hk].
        * left. split; [by right|done].
        * rewrite Hs2 in Hk. apply Hs1 in Hk as [[-> Hdir]|Hk]; [|eauto].
          left. split; [by left|done].
      + congruence. }
  destruct (Hloop (Object_keys (ex_childKeyMap data)) s0) as (Hc & Hf & Hl & Hs & Hd).
  { unfold Object_keys. apply NoDup_fst_map_to_list. }
  { intros k _. unfold s0. simpl. apply lookup_empty. }
  cbv zeta in *. split_and!.
  - by rewrite Hc.
  - by rewrite Hf.
  - intros k. unfold isLoading, _getLoading. rewrite bool_decide_eq_true, Hl.
    rewrite elem_of_Object_keys. unfold s0. simpl. rewrite lookup_empty.
    split; [intros [?|[? ?]]; done|eauto].
  - intros k Hk. apply Hs in Hk as [[Hin Hdir]|Hk].
    + by apply elem_of_Object_keys in Hin.
    + unfold s0 in Hk. simpl in Hk. rewrite lookup_empty in Hk. by destruct Hk.
  - by rewrite Hd.
Qed.

(** ** The visible nodes *)

Lemma listed_for_mono st r nodes nodes' node :
  nodes ⊆ nodes' → listed_for isDirKey st r nodes node →
  listed_for isDirKey st r nodes' node.
Proof.
  clear getDirectoryByKey.
  intros Hsub [->|(parent & cs & Hin & H)]; [by left|].
  right. exists parent, cs. split; [by apply Hsub|done].
Qed.

Lemma getVisibleNodes_loop_listed fuel st r :
  ∀ stack visibleNodes nodes,
    Forall (λ key, listed_for isDirKey st r visibleNodes (getNode key key)) stack →
    Forall (listed_for isDirKey st r visibleNodes) visibleNodes →
    getVisibleNodes_loop isDirKey fuel st r stack visibleNodes = Some nodes →
    Forall (listed_for isDirKey st r nodes) nodes ∧ visibleNodes ⊆ nodes.
Proof.
  clear getDirectoryByKey.
  induction fuel as [|fuel IH]; intros stack vis nodes Hstack Hvis Hrun.
  - destruct stack; simplify_eq/=. done.
  - destruct stack as [|key stack]; [by simplify_eq/=|].
    cbn [getVisibleNodes_loop] in Hrun.
    apply Forall_cons in Hstack as [Hkey Hstack].
    set (vis1 := vis ++ [getNode key key]) in *.
    assert (vis ⊆ vis1) as Hsub1 by (unfold vis1; set_solver).
    assert (Forall (listed_for isDirKey st r vis1) vis1) as Hvis1.
    { unfold vis1 at 2. apply Forall_app. split.
      - eapply Forall_impl; [done|]. intros n. by apply listed_for_mono.
      - apply Forall_singleton. by eapply listed_for_mono. }
    assert (Forall (λ key, listed_for isDirKey st r vis1 (getNode key key)) stack)
      as Hstack1.
    { eapply Forall_impl; [done|]. intros n. by apply listed_for_mono. }
    assert (∀ nodes, getVisibleNodes_loop isDirKey fuel st r stack vis1 = Some nodes →
              Forall (listed_for isDirKey st r nodes) nodes ∧ vis ⊆ nodes) as Hskip.
    { intros nodes' H'. destruct (IH _ _ _ Hstack1 Hvis1 H') as [? ?].
      split; [done|]. by etrans. }
    destruct (childKeyMap (_data st) !! key) as [childKeys|] eqn:Hc; [|by apply Hskip].
    destruct (isDirty st key) eqn:Hdirty; [by apply Hskip|].
    assert (∀ l stack0 vis0,
      l ⊆ childKeys → vis1 ⊆ vis0 →
      Forall (λ key, listed_for isDirKey st r vis0 (getNode key key)) stack0 →
      Forall (listed_for isDirKey st r vis0) vis0 →
      let '(stack', vis') :=
        foldl (λ '(stack, visibleNodes) childKey,
                 if isDirKey childKey
                 then if isExpanded st r key then (childKey :: stack, visibleNodes)
                      else (stack, visibleNodes)
                 else (stack, visibleNodes ++ [getNode key childKey]))
              (stack0, vis0) l in
      Forall (λ key, listed_for isDirKey st r vis' (getNode key key)) stack' ∧
      Forall (listed_for isDirKey st r vis') vis' ∧ vis0 ⊆ vis') as Hfold.
    { induction l as [|c l IHl]; intros stack0 vis0 Hl Hv0 Hs0 Hl0; simpl; [done|].
      assert (c ∈ childKeys) as Hcin by (apply Hl; left).
      assert (l ⊆ childKeys) as Hl' by (intros y Hy; apply Hl; by right).
      assert (getNode key key ∈ vis0) as Hparent.
      { apply Hv0. unfold vis1. set_solver. }
      destruct (isDirKey c) eqn:Hdir; [destruct (isExpanded st r key) eqn:Hexp|].
      - apply IHl; [done..| |done].
        apply Forall_cons. split; [|done].
        right. exists key, childKeys. split_and!; try done. by left.
      - by apply IHl.
      - specialize (IHl stack0 (vis0 ++ [getNode key c]) Hl').
        destruct (foldl _ (stack0, vis0 ++ [getNode key c]) l) as [stack' vis'].
        destruct IHl as (? & ? & Hsub); [set_solver| | |].
        + eapply Forall_impl; [done|]. intros n. apply listed_for_mono. set_solver.
        + apply Forall_app. split.
          * eapply Forall_impl; [done|]. intros n. apply listed_for_mono. set_solver.
          * apply Forall_singleton. right. exists key, childKeys.
            split_and!; try done; [set_solver|]. by right.
        + split_and!; [done..|]. set_solver. }
    specialize (Hfold childKeys stack vis1).
    destruct (foldl _ (stack, vis1) childKeys) as [stack' vis'].
    destruct Hfold as (Hs' & Hv' & Hsub'); [done..|].
    destruct (IH _ _ _ Hs' Hv' Hrun) as [? ?]. split; [done|].
    etrans; [done|]. by etrans.
Qed.

Lemma getVisibleNodes_children_prefix st r key l :
  ∀ stack vis,
    vis `prefix_of`
      (foldl (λ '(stack, visibleNodes) childKey,
                if isDirKey childKey
                then if isExpanded st r key then (childKey :: stack, visibleNodes)
                     else (stack, visibleNodes)
                else (stack, visibleNodes ++ [getNode key childKey]))
             (stack, vis) l).2.
Proof.
  clear getDirectoryByKey.
  induction l as [|c l IHl]; intros stack vis; simpl; [done|].
  destruct (isDirKey c); [destruct (isExpanded st r key)|]; try apply IHl.
  etrans; [|apply IHl]. by apply prefix_app_r.
Qed.

Lemma getVisibleNodes_loop_prefix fuel st r :
  ∀ stack visibleNodes nodes,
    getVisibleNodes_loop isDirKey fuel st r stack visibleNodes = Some nodes →
    visibleNodes `prefix_of` nodes.
Proof.
  clear getDirectoryByKey.
  induction fuel as [|fuel IH]; intros stack vis nodes Hrun.
  - destruct stack; simplify_eq/=. done.
  - destruct stack as [|key stack]; [by simplify_eq/=|].
    cbn [getVisibleNodes_loop] in Hrun.
    assert (vis `prefix_of` vis ++ [getNode key key]) as Hp by by apply prefix_app_r.
    destruct (childKeyMap (_data st) !! key) as [childKeys|];
      [|etrans; [done|by eapply IH]].
    destruct (isDirty st key); [etrans; [done|by eapply IH]|].
    pose proof (getVisibleNodes_children_prefix st r key childKeys stack
                  (vis ++ [getNode key key])) as Hf.
    destruct (foldl _ (stack, vis ++ [getNode key key]) childKeys) as [stack' vis'].
    simpl in Hf. etrans; [done|]. etrans; [done|]. by eapply IH.
Qed.

(** *** The traversal returns on a tree of paths *)

Lemma getVisibleNodes_children_stack st r key l :
  ∀ vis, ∃ pushed vis',
    (∀ c, c ∈ pushed → c ∈ l) ∧
    ∀ stack,
      foldl (λ '(stack, visibleNodes) childKey,
               if isDirKey childKey
               then if isExpanded st r key then (childKey :: stack, visibleNodes)
                    else (stack, visibleNodes)
               else (stack, visibleNodes ++ [getNode key childKey]))
            (stack, vis) l = (pushed ++ stack, vis').
Proof.
  clear getDirectoryByKey.
  induction l as [|c l IH]; intros vis; simpl.
  - exists [], vis. split; [|done]. intros c Hc. by apply elem_of_nil in Hc.
  - destruct (isDirKey c).
    + destruct (isExpanded st r key).
      * destruct (IH vis) as (pushed & vis' & Hin & Hf).
        exists (pushed ++ [c]), vis'. split.
        -- intros c' [Hc'|Hc'%list_elem_of_singleton]%elem_of_app.
           ++ right. by apply Hin.
           ++ subst c'. by left.
        -- intros stack. rewrite Hf. by rewrite <- app_assoc.
      * destruct (IH vis) as (pushed & vis' & Hin & Hf).
        exists pushed, vis'. split; [|done]. intros c' Hc'. right. by apply Hin.
    + destruct (IH (vis ++ [getNode key c])) as (pushed & vis' & Hin & Hf).
      exists pushed, vis'. split; [|done]. intros c' Hc'. right. by apply Hin.
Qed.

Lemma getVisibleNodes_loop_fuel st r :
  ∀ fuel stack vis nodes,
    getVisibleNodes_loop isDirKey fuel st r stack vis = Some nodes →
    ∀ fuel' : nat, (fuel ≤ fuel')%nat →
             getVisibleNodes_loop isDirKey fuel' st r stack vis = Some nodes.
Proof.
  clear getDirectoryByKey.
  induction fuel as [|fuel IH]; intros stack vis nodes Hrun fuel' Hle.
  - destruct stack; [|done]. by destruct fuel'.
  - destruct stack as [|key stack]; [by destruct fuel'|].
    destruct fuel' as [|fuel']; [lia|].
    cbn [getVisibleNodes_loop] in *.
    destruct (childKeyMap (_data st) !! key) as [childKeys|];
      [|apply (IH _ _ _ Hrun); lia].
    destruct (isDirty st key); [apply (IH _ _ _ Hrun); lia|].
    destruct (foldl _ (stack, vis ++ [getNode key key]) childKeys) as [stack' vis'].
    apply (IH _ _ _ Hrun). lia.
Qed.

Lemma getVisibleNodes_loop_app st r :
  ∀ fuel1 stack1 vis nodes1 fuel2 stack2 nodes2,
    getVisibleNodes_loop isDirKey fuel1 st r stack1 vis = Some nodes1 →
    getVisibleNodes_loop isDirKey fuel2 st r stack2 nodes1 = Some nodes2 →
    getVisibleNodes_loop isDirKey (fuel1 + fuel2) st r (stack1 ++ stack2) vis
    = Some nodes2.
Proof.
  clear getDirectoryByKey.
  induction fuel1 as [|fuel1 IH]; intros stack1 vis nodes1 fuel2 stack2 nodes2 H1 H2.
  - destruct stack1; [|done]. simpl in H1. by simplify_eq.
  - destruct stack1 as [|key stack1].
    + simpl in H1. simplify_eq. apply (getVisibleNodes_loop_fuel _ _ _ _ _ _ H2). lia.
    + change (S fuel1 + fuel2) with (S (fuel1 + fuel2)).
      change ((key :: stack1) ++ stack2) with (key :: (stack1 ++ stack2)).
      cbn [getVisibleNodes_loop] in *.
      destruct (childKeyMap (_data st) !! key) as [childKeys|]; [|by eapply IH].
      destruct (isDirty st key); [by eapply IH|].
      destruct (getVisibleNodes_children_stack st r key childKeys
                  (vis ++ [getNode key key])) as (pushed & vis' & _ & Hf).
      rewrite Hf in H1. rewrite Hf. rewrite app_assoc. by eapply IH.
Qed.

Lemma getVisibleNodes_loop_returns st r :
  child_keys_extend st →
  ∀ n stack vis,
    (∀ key, key ∈ stack → longest_child_key st - String.length key < n) →
    ∃ fuel nodes, getVisibleNodes_loop isDirKey fuel st r stack vis = Some nodes.
Proof.
  clear getDirectoryByKey.
  intros Hext. induction n as [|n IHn]; intros stack vis Hstack.
  - destruct stack as [|key stack]; [by exists 0, vis|].
    pose proof (Hstack key (list_elem_of_here _ _)). lia.
  - revert vis. induction stack as [|key stack IHs]; intros vis; [by exists 0, vis|].
    assert (∃ fuel nodes,
      getVisibleNodes_loop isDirKey fuel st r [key] vis = Some nodes)
      as (fuel1 & nodes1 & H1).
    { destruct (childKeyMap (_data st) !! key) as [childKeys|] eqn:Hk.
      - destruct (isDirty st key) eqn:Hd.
        + exists 1, (vis ++ [getNode key key]). simpl. by rewrite Hk, Hd.
        + destruct (getVisibleNodes_children_stack st r key childKeys
                      (vis ++ [getNode key key])) as (pushed & vis' & Hin & Hf).
          destruct (IHn (pushed ++ []) vis') as (fuel & nodes & Hrun).
          { intros c Hc. rewrite app_nil_r in Hc. apply Hin in Hc.
            pose proof (Hext _ _ _ Hk Hc).
            pose proof (longest_child_key_le _ _ _ _ Hk Hc).
            pose proof (Hstack key (list_elem_of_here _ _)). lia. }
          exists (S fuel), nodes. cbn [getVisibleNodes_loop].
          by rewrite Hk, Hd, Hf.
      - exists 1, (vis ++ [getNode key key]). simpl. by rewrite Hk. }
    destruct (IHs (λ key' Hin, Hstack key' (list_elem_of_further _ _ _ Hin)) nodes1)
      as (fuel2 & nodes2 & H2).
    exists (fuel1 + fuel2), nodes2.
    by apply (getVisibleNodes_loop_app st r fuel1 [key] vis nodes1 fuel2 stack nodes2).
Qed.

Lemma getVisibleNodes_returns st r :
  child_keys_extend st →
  ∃ n : nat, ∀ fuel : nat, (n ≤ fuel)%nat → is_Some (getVisibleNodes isDirKey fuel st r).
Proof.
  clear getDirectoryByKey.
  intros Hext. unfold getVisibleNodes.
  destruct (isRootKey st r); simpl; [|exists 0; eauto].
  destruct (isExpanded st r r); simpl; [|exists 0; eauto].
  destruct (getVisibleNodes_loop_returns st r Hext (S (longest_child_key st)) [r] [])
    as (n & nodes & Hrun).
  { intros key _. lia. }
  exists n. intros fuel Hle. exists nodes.
  by apply (getVisibleNodes_loop_fuel st r n).
Qed.

(** [getVisibleNodes] lists nothing for a key that is no root, and the root
    node alone for a collapsed root.  On a cache that is a tree of paths it
    returns a list for every root.  For an expanded root the list starts
    with the root node, and every other listed node has a listed parent
    whose child list is known, is not dirty and holds the node; a container
    is listed only when that parent is expanded under the root. *)
Theorem getVisibleNodes_listed st r :
  (isRootKey st r = false → ∀ fuel, getVisibleNodes isDirKey fuel st r = Some []) ∧
  (isRootKey st r = true → isExpanded st r r = false →
   ∀ fuel, getVisibleNodes isDirKey fuel st r = Some [getNode r r]) ∧
  (child_keys_extend st →
   ∃ n : nat, ∀ fuel : nat, (n ≤ fuel)%nat → is_Some (getVisibleNodes isDirKey fuel st r)) ∧
  (∀ fuel nodes,
     getVisibleNodes isDirKey fuel st r = Some nodes →
     (isRootKey st r = true → head nodes = Some (getNode r r)) ∧
     Forall (listed_for isDirKey st r nodes) nodes).
Proof.
  clear getDirectoryByKey.
  split_and!.
  - intros Hroot fuel. unfold getVisibleNodes. by rewrite Hroot.
  - intros Hroot Hexp fuel. unfold getVisibleNodes. by rewrite Hroot, Hexp.
  - apply getVisibleNodes_returns.
  - unfold getVisibleNodes. intros fuel nodes Hrun.
    destruct (isRootKey st r) eqn:Hroot; simpl in Hrun.
    + destruct (isExpanded st r r) eqn:Hexp; simpl in Hrun.
      * split.
        -- intros _. destruct fuel as [|fuel]; [done|].
           cbn [getVisibleNodes_loop] in Hrun.
           assert ([getNode r r] `prefix_of` nodes) as [rest ->]; [|done].
           destruct (childKeyMap (_data st) !! r) as [childKeys|];
             [|by eapply getVisibleNodes_loop_prefix].
           destruct (isDirty st r); [by eapply getVisibleNodes_loop_prefix|].
           pose proof (getVisibleNodes_children_prefix st r r childKeys []
                         ([] ++ [getNode r r])) as Hf.
           destruct (foldl _ ([], [] ++ [getNode r r]) childKeys) as [stack' vis'].
           simpl in Hf. etrans; [done|]. by eapply getVisibleNodes_loop_prefix.
        -- eapply (getVisibleNodes_loop_listed fuel st r [r] []).
           ++ apply Forall_singleton. by left.
           ++ done.
           ++ done.
      * simplify_eq. split; [done|]. apply Forall_singleton. by left.
    + simplify_eq. split; done.
Qed.

(** What the traversal owes to a listed container [d]: its leaf children
    are listed, and its container children are listed or wait on the stack
    when [d] is expanded under the root. *)
Definition children_listed (st : Store) (r : string) (stack : list string)
    (nodes : list FileTreeNode) : Prop :=
  ∀ d childKeys c,
    getNode d d ∈ nodes →
    childKeyMap (_data st) !! d = Some childKeys → isDirty st d = false →
    c ∈ childKeys →
    (isDirKey c = false → getNode d c ∈ nodes) ∧
    (isDirKey c = true → isExpanded st r d = true →
     getNode c c ∈ nodes ∨ c ∈ stack).

Lemma getVisibleNodes_loop_complete fuel st r :
  ∀ stack visibleNodes nodes,
    children_listed st r stack visibleNodes →
    getVisibleNodes_loop isDirKey fuel st r stack visibleNodes = Some nodes →
    children_listed st r [] nodes.
Proof.
  clear getDirectoryByKey.
  induction fuel as [|fuel IH]; intros stack vis nodes Hinv Hrun.
  - destruct stack; simplify_eq/=. done.
  - destruct stack as [|key stack]; [by simplify_eq/=|].
    cbn [getVisibleNodes_loop] in Hrun.
    set (vis1 := vis ++ [getNode key key]) in *.
    (* what is owed for the containers listed before [key] *)
    assert (∀ d childKeys c,
      getNode d d ∈ vis → childKeyMap (_data st) !! d = Some childKeys →
      isDirty st d = false → c ∈ childKeys →
      (isDirKey c = false → getNode d c ∈ vis1) ∧
      (isDirKey c = true → isExpanded st r d = true →
       getNode c c ∈ vis1 ∨ c ∈ stack)) as Hold.
    { intros d cs c Hd Hcs Hdirty Hc. destruct (Hinv d cs c Hd Hcs Hdirty Hc) as [Hl Hk].
      split.
      - intros Hleaf. unfold vis1. apply elem_of_app. left. by apply Hl.
      - intros Hdir Hexp. destruct (Hk Hdir Hexp) as [?|Hin].
        + left. unfold vis1. apply elem_of_app. by left.
        + apply elem_of_cons in Hin as [->|?]; [|by right].
          left. unfold vis1. apply elem_of_app. right. by left. }
    assert (∀ d, getNode d d ∈ vis1 → getNode d d ∈ vis ∨ d = key) as Hnew.
    { intros d Hd. unfold vis1 in Hd. apply elem_of_app in Hd as [?|Hd]; [by left|].
      apply list_elem_of_singleton in Hd. right. by injection Hd. }
    destruct (childKeyMap (_data st) !! key) as [childKeys|] eqn:Hc.
    + destruct (isDirty st key) eqn:Hdirty.
      * eapply IH; [|done]. intros d cs c Hd Hcs Hdd Hcin.
        destruct (Hnew d Hd) as [?| ->]; [by eapply Hold|congruence].
      * (* the children of [key] are listed or pushed *)
        assert (∀ l stack0 vis0,
          let '(stack', vis') :=
            foldl (λ '(stack, visibleNodes) childKey,
                     if isDirKey childKey
                     then if isExpanded st r key then (childKey :: stack, visibleNodes)
                          else (stack, visibleNodes)
                     else (stack, visibleNodes ++ [getNode key childKey]))
                  (stack0, vis0) l in
          stack0 ⊆ stack' ∧ vis0 ⊆ vis' ∧
          (∀ n, n ∈ vis' → n ∈ vis0 ∨ ∃ c, c ∈ l ∧ isDirKey c = false ∧
                                            n = getNode key c) ∧
          (∀ c, c ∈ l →
             (isDirKey c = false → getNode key c ∈ vis') ∧
             (isDirKey c = true → isExpanded st r key = true → c ∈ stack')))
          as Hfold.
        { induction l as [|c l IHl]; intros stack0 vis0; simpl.
          - split_and!; [done|done|eauto|]. intros c Hc'. by apply elem_of_nil in Hc'.
          - destruct (isDirKey c) eqn:Hdir; [destruct (isExpanded st r key) eqn:Hexp|].
            + specialize (IHl (c :: stack0) vis0).
              destruct (foldl _ (c :: stack0, vis0) l) as [stack' vis'].
              destruct IHl as (Hs & Hv & Hn & Hch). split_and!.
              * set_solver.
              * done.
              * intros n Hin. destruct (Hn n Hin) as [?|(c' & ? & ? & ?)]; [by left|].
                right. exists c'. split; [by right|done].
              * intros c' Hc'. apply elem_of_cons in Hc' as [->|Hc']; [|by apply Hch].
                split; [congruence|]. intros _ _. apply Hs. by left.
            + specialize (IHl stack0 vis0).
              destruct (foldl _ (stack0, vis0) l) as [stack' vis'].
              destruct IHl as (Hs & Hv & Hn & Hch). split_and!; [done..| |].
              * intros n Hin. destruct (Hn n Hin) as [?|(c' & ? & ? & ?)]; [by left|].
                right. exists c'. split; [by right|done].
              * intros c' Hc'. apply elem_of_cons in Hc' as [->|Hc']; [|by apply Hch].
                split; congruence.
            + specialize (IHl stack0 (vis0 ++ [getNode key c])).
              destruct (foldl _ (stack0, vis0 ++ [getNode key c]) l) as [stack' vis'].
              destruct IHl as (Hs & Hv & Hn & Hch). split_and!.
              * done.
              * set_solver.
              * intros n Hin. destruct (Hn n Hin) as [Hin'|(c' & ? & ? & ?)].
                -- apply elem_of_app in Hin' as [?|Hin']; [by left|].
                   apply list_elem_of_singleton in Hin'. right. exists c.
                   split; [by left|done].
                -- right. exists c'. split; [by right|done].
              * intros c' Hc'. apply elem_of_cons in Hc' as [->|Hc']; [|by apply Hch].
                split; [|congruence]. intros _. apply Hv. set_solver. }
        specialize (Hfold childKeys stack vis1).
        destruct (foldl _ (stack, vis1) childKeys) as [stack' vis'].
        destruct Hfold as (Hs & Hv & Hn & Hch).
        eapply IH; [|done]. intros d cs c Hd Hcs Hdd Hcin.
        assert (getNode d d ∈ vis ∨ d = key) as [Hd'| ->].
        { destruct (Hn _ Hd) as [?|(c' & Hc' & Hleaf & Heq)]; [by apply Hnew|].
          right. by injection Heq. }
        -- destruct (Hold d cs c Hd' Hcs Hdd Hcin) as [Hl Hk]. split.
           ++ intros Hleaf. apply Hv. by apply Hl.
           ++ intros Hdir Hexp. destruct (Hk Hdir Hexp) as [?|?].
              ** left. by apply Hv.
              ** right. by apply Hs.
        -- simplify_eq. destruct (Hch c Hcin) as [Hl Hk]. split; [done|].
           intros Hdir Hexp. right. by apply Hk.
    + eapply IH; [|done]. intros d cs c Hd Hcs Hdd Hcin.
      destruct (Hnew d Hd) as [?| ->]; [by eapply Hold|congruence].
Qed.

(** On a cache that is a tree of paths [getVisibleNodes] returns a list
    for an expanded root.  In that list every leaf child of a listed
    container with a known child list that is not dirty is listed, whether
    that container is expanded or not; its container children are listed
    when it is expanded under the root.  Expansion guards the descent into
    container children only. *)
Theorem getVisibleNodes_children st r :
  isExpanded st r r = true →
  (child_keys_extend st →
   ∃ n : nat, ∀ fuel : nat, (n ≤ fuel)%nat → is_Some (getVisibleNodes isDirKey fuel st r)) ∧
  ∀ fuel nodes,
    getVisibleNodes isDirKey fuel st r = Some nodes →
    ∀ d childKeys c,
      getNode d d ∈ nodes →
      childKeyMap (_data st) !! d = Some childKeys → isDirty st d = false →
      c ∈ childKeys →
      (isDirKey c = false → getNode d c ∈ nodes) ∧
      (isDirKey c = true → isExpanded st r d = true → getNode c c ∈ nodes).
Proof.
  clear getDirectoryByKey.
  intros Hexp. split; [apply getVisibleNodes_returns|].
  unfold getVisibleNodes. intros fuel nodes Hrun d cs c Hd Hcs Hdd Hc.
  destruct (isRootKey st r) eqn:Hroot; simpl in Hrun;
    [|simplify_eq; by apply elem_of_nil in Hd].
  rewrite Hexp in Hrun. simpl in Hrun.
  apply (getVisibleNodes_loop_complete fuel st r [r] []) in Hrun.
  - destruct (Hrun d cs c Hd Hcs Hdd Hc) as [Hl Hk]. split; [done|].
    intros Hdir He. destruct (Hk Hdir He) as [?|Hin]; [done|].
    by apply elem_of_nil in Hin.
  - intros d' cs' c' Hd'. by apply elem_of_nil in Hd'.
Qed.

(** ** Expanding a node *)

Lemma _expandNode_writes (R : Store → Store → Prop) r :
  (∀ s, R s s) →
  (∀ s1 s2 s3, R s1 s2 → R s2 s3 → R s1 s3) →
  (∀ s x, R s (_setExpandedKeys s r ({[x]} ∪ _getExpandedKeys s r))) →
  (∀ s pe, R s (_set_previouslyExpanded s
                  (setProperty (previouslyExpanded (_data s)) r pe))) →
  ∀ fuel s x s', _expandNode fuel s r x = Some s' → R s s'.
Proof.
  clear isDirKey getDirectoryByKey.
  intros Hrefl Htrans Hexp Hpe.
  induction fuel as [|fuel IH]; intros s x s' Hrun; [done|].
  cbn [_expandNode] in Hrun.
  set (s0 := _setExpandedKeys s r ({[x]} ∪ _getExpandedKeys s r)) in *.
  assert (R s s0) as H0 by apply Hexp. clearbody s0.
  destruct (default ∅ (previouslyExpanded (_data s0) !! r) !! x) as [childKeys|];
    [|by simplify_eq].
  destruct (forEachM _ childKeys s0) as [s1|] eqn:Hl; [|done].
  cbn [mbind option_bind] in Hrun. simplify_eq.
  eapply Htrans; [done|]. eapply Htrans; [|apply Hpe].
  clear H0. revert s0 s1 Hl. induction childKeys as [|c l IHl]; intros s0 s1 Hl;
    cbn [forEachM] in Hl; [by simplify_eq|].
  destruct (_expandNode fuel s0 r c) as [s2|] eqn:Hc; [|done].
  eapply Htrans; [by eapply IH|by eapply IHl].
Qed.

Lemma _expandNode_effect fuel st r k st' :
  _expandNode fuel st r k = Some st' →
  k ∈ _getExpandedKeys st' r ∧
  _getExpandedKeys st r ⊆ _getExpandedKeys st' r ∧
  previouslyExpanded_under st' r = delete k (previouslyExpanded_under st r) ∧
  childKeyMap (_data st') = childKeyMap (_data st) ∧
  (∀ r', r' ≠ r →
     expandedKeysByRoot (_data st') !! r' = expandedKeysByRoot (_data st) !! r').
Proof.
  clear isDirKey getDirectoryByKey.
  intros Hrun.
  assert (_getExpandedKeys st r ⊆ _getExpandedKeys st' r ∧
          childKeyMap (_data st') = childKeyMap (_data st) ∧
          (∀ r', r' ≠ r →
             expandedKeysByRoot (_data st') !! r'
             = expandedKeysByRoot (_data st) !! r')) as (Hsub & Hcm & Hother).
  { revert Hrun.
    apply (_expandNode_writes
             (λ s s', _getExpandedKeys s r ⊆ _getExpandedKeys s' r ∧
                      childKeyMap (_data s') = childKeyMap (_data s) ∧
                      (∀ r', r' ≠ r →
                         expandedKeysByRoot (_data s') !! r'
                         = expandedKeysByRoot (_data s) !! r'))).
    - done.
    - intros s1 s2 s3 (H1 & -> & Ho1) (H2 & -> & Ho2). split_and!; [by etrans|done|].
      intros r' Hr'. by rewrite Ho2, Ho1.
    - intros s x. unfold _getExpandedKeys, _setExpandedKeys, setProperty. simpl.
      rewrite lookup_insert_eq. simpl. split_and!; [set_solver|done|].
      intros r' Hr'. by rewrite lookup_insert_ne.
    - intros s pe. done. }
  destruct fuel as [|fuel]; [done|]. cbn [_expandNode] in Hrun.
  set (s0 := _setExpandedKeys st r ({[k]} ∪ _getExpandedKeys st r)) in *.
  assert (k ∈ _getExpandedKeys s0 r ∧
          previouslyExpanded (_data s0) = previouslyExpanded (_data st)) as [Hk Hpe].
  { unfold s0, _getExpandedKeys, _setExpandedKeys, setProperty. simpl.
    rewrite lookup_insert_eq. simpl. split; [set_solver|done]. }
  clearbody s0. unfold previouslyExpanded_under. rewrite <- Hpe.
  destruct (default ∅ (previouslyExpanded (_data s0) !! r) !! k) as [childKeys|] eqn:Hx.
  - destruct (forEachM _ childKeys s0) as [s1|] eqn:Hl; [|done].
    cbn [mbind option_bind] in Hrun. simplify_eq. split_and!; try done.
    + assert (_getExpandedKeys s0 r ⊆ _getExpandedKeys s1 r) as Hs1; [|by apply Hs1].
      clear Hsub Hcm Hother Hx Hk Hpe. revert s0 s1 Hl.
      induction childKeys as [|c l IHl]; intros s0 s1 Hl; cbn [forEachM] in Hl;
        [by simplify_eq|].
      destruct (_expandNode fuel s0 r c) as [s2|] eqn:Hc; [|done].
      etrans; [|by eapply IHl].
      revert Hc. apply (_expandNode_writes
                          (λ s s', _getExpandedKeys s r ⊆ _getExpandedKeys s' r)).
      * done.
      * intros ? ? ? ? ?. by etrans.
      * intros s x. unfold _getExpandedKeys, _setExpandedKeys, setProperty. simpl.
        rewrite lookup_insert_eq. simpl. set_solver.
      * intros s pe. done.
    + simpl. unfold setProperty, deleteProperty. by rewrite lookup_insert_eq.
  - simplify_eq. split_and!; try done. symmetry. by apply delete_id.
Qed.

(** *** Expanding returns when the remembered expansions follow the paths *)

Lemma longest_previouslyExpanded_le st r k childKeys c :
  previouslyExpanded_under st r !! k = Some childKeys → c ∈ childKeys →
  (String.length c ≤ longest_previouslyExpanded st r)%nat.
Proof.
  clear isDirKey getDirectoryByKey.
  unfold longest_previouslyExpanded. revert k childKeys c.
  apply (map_fold_weak_ind
           (λ n (m : gmap string (list string)),
              ∀ k childKeys c, m !! k = Some childKeys → c ∈ childKeys →
                               (String.length c ≤ n)%nat)).
  - intros k cs c H. by rewrite lookup_empty in H.
  - intros i x m n Hi IH k cs c Hk Hc.
    destruct (foldr_max_le x n) as [Hn Hx].
    destruct (decide (k = i)) as [->|Hne].
    + rewrite lookup_insert_eq in Hk. simplify_eq. by apply Hx.
    + rewrite lookup_insert_ne in Hk by done. specialize (IH _ _ _ Hk Hc). lia.
Qed.

Lemma _expandNode_returns st r :
  previouslyExpanded_extend st r →
  ∀ fuel s k,
    previouslyExpanded_under s r ⊆ previouslyExpanded_under st r →
    longest_previouslyExpanded st r - String.length k < fuel →
    is_Some (_expandNode fuel s r k).
Proof.
  clear isDirKey getDirectoryByKey.
  intros Hext. induction fuel as [|fuel IH]; intros s k Hsub Hlen; [lia|].
  cbn [_expandNode].
  set (s0 := _setExpandedKeys s r ({[k]} ∪ _getExpandedKeys s r)).
  assert (previouslyExpanded_under s0 r = previouslyExpanded_under s r) as Hpe by done.
  change (default ∅ (previouslyExpanded (_data s0) !! r))
    with (previouslyExpanded_under s0 r).
  clearbody s0. rewrite <- Hpe in Hsub. clear Hpe.
  destruct (previouslyExpanded_under s0 r !! k) as [childKeys|] eqn:Hk; [|eauto].
  assert (∀ l s1,
    previouslyExpanded_under s1 r ⊆ previouslyExpanded_under st r →
    (∀ c, c ∈ l → longest_previouslyExpanded st r - String.length c < fuel) →
    is_Some (forEachM (λ st childKey, _expandNode fuel st r childKey) l s1)) as Hloop.
  { induction l as [|c l IHl]; intros s1 Hs1 Hl; cbn [forEachM]; [eauto|].
    destruct (IH s1 c Hs1) as [s2 H2]; [apply Hl; left|].
    rewrite H2. apply IHl; [|intros; apply Hl; by right].
    apply _expandNode_effect in H2 as (_ & _ & -> & _).
    etrans; [apply delete_subseteq|done]. }
  destruct (Hloop childKeys s0 Hsub) as [s1 ->]; [|simpl; eauto].
  intros c Hc.
  pose proof (lookup_weaken _ _ _ _ Hk Hsub) as Hk'.
  pose proof (Hext _ _ _ Hk' Hc).
  pose proof (longest_previouslyExpanded_le _ _ _ _ _ Hk' Hc). lia.
Qed.

(** A check of [previouslyExpanded_extend] that can be run on a given
    store. *)
Lemma previouslyExpanded_extend_check st r :
  map_Forall (λ k cs, Forall (λ c, String.length k < String.length c) cs)
             (previouslyExpanded_under st r) →
  previouslyExpanded_extend st r.
Proof.
  clear isDirKey getDirectoryByKey.
  intros H k cs c Hk Hc. specialize (H k cs Hk). rewrite Forall_forall in H.
  by apply H.
Qed.

(** [_expandNode(r, k)] returns when the expansions remembered for [r]
    follow the paths.  It leaves [k] expanded under [r] and collapses
    nothing.  Of the remembered expansions of [r] it drops the entry of [k]
    and keeps every other entry as it was before the call, the entries of
    the children it re-expanded included: those are written back with the
    copy taken before the children were expanded.  The cached child lists
    and the expansion of the other roots are untouched. *)
Theorem _expandNode_spec fuel st r k :
  (previouslyExpanded_extend st r → longest_previouslyExpanded st r < fuel →
   is_Some (_expandNode fuel st r k)) ∧
  (∀ st',
     _expandNode fuel st r k = Some st' →
     k ∈ _getExpandedKeys st' r ∧
     _getExpandedKeys st r ⊆ _getExpandedKeys st' r ∧
     previouslyExpanded_under st' r = delete k (previouslyExpanded_under st r) ∧
     childKeyMap (_data st') = childKeyMap (_data st) ∧
     (∀ r', r' ≠ r →
        expandedKeysByRoot (_data st') !! r' = expandedKeysByRoot (_data st) !! r')).
Proof.
  clear isDirKey getDirectoryByKey.
  split.
  - intros Hext Hfuel. apply (_expandNode_returns st r Hext); [done|lia].
  - intros st'. apply _expandNode_effect.
Qed.

(** ** Collapsing and expanding again *)

(** What a write of [_collapseNode] under root [r] does to the expansion
    set of [r], to the remembered expansions of [r] and to the cache. *)
Lemma _setSelectedKeys_view s r keys :
  _getExpandedKeys (_setSelectedKeys s r keys) r = _getExpandedKeys s r ∧
  previouslyExpanded_under (_setSelectedKeys s r keys) r = previouslyExpanded_under s r ∧
  childKeyMap (_data (_setSelectedKeys s r keys)) = childKeyMap (_data s).
Proof. done. Qed.

Lemma _removeSubscription_view s r x :
  _getExpandedKeys (_removeSubscription s r x) r = _getExpandedKeys s r ∧
  previouslyExpanded_under (_removeSubscription s r x) r = previouslyExpanded_under s r ∧
  childKeyMap (_data (_removeSubscription s r x)) = childKeyMap (_data s).
Proof.
  unfold _removeSubscription. destruct (subscriptionMap (_data s) !! x); [|done].
  by destruct (existsb _ _).
Qed.

(** The keys a collapse removed from the expansion set of the root. *)
Definition collapsed_keys (s s1 : Store) (r : string) : gset string :=
  _getExpandedKeys s r ∖ _getExpandedKeys s1 r.

(** What a later [_expandNode(r, x)] does in any store whose remembered
    expansions agree, on the collapsed keys, with those the collapse left. *)
Definition restorable (fuel : nat) (s1 : Store) (r x : string) (T : gset string)
  : Prop :=
  ∀ sa,
    (∀ y, y ∈ T → previouslyExpanded_under sa r !! y = previouslyExpanded_under s1 r !! y) →
    ∃ sa', _expandNode fuel sa r x = Some sa' ∧
           _getExpandedKeys sa' r = _getExpandedKeys sa r ∪ T ∧
           previouslyExpanded_under sa' r = delete x (previouslyExpanded_under sa r).

Lemma _collapseNode_restorable st0 r :
  child_keys_extend st0 →
  ∀ fuel s x s1,
    childKeyMap (_data s) = childKeyMap (_data st0) →
    x ∈ _getExpandedKeys s r →
    _collapseNode isDirKey fuel s r x = Some s1 →
    _getExpandedKeys s1 r ⊆ _getExpandedKeys s r ∧
    (x ∉ _getExpandedKeys s1 r) ∧
    (∀ y, y ∈ collapsed_keys s s1 r → (String.length x ≤ String.length y)%nat) ∧
    (∀ y, y ∉ collapsed_keys s s1 r →
          previouslyExpanded_under s1 r !! y = previouslyExpanded_under s r !! y) ∧
    childKeyMap (_data s1) = childKeyMap (_data s) ∧
    restorable fuel s1 r x (collapsed_keys s s1 r).
Proof.
  intros Hext. induction fuel as [|fuel IH]; intros s x s1 Hcm Hx Hrun; [done|].
  cbn [_collapseNode] in Hrun.
  (* the loop over the children *)
  assert (∀ l s sel acc s1 sel1 acc1,
    (∀ c, c ∈ l → String.length x < String.length c) →
    childKeyMap (_data s) = childKeyMap (_data st0) →
    forEachM (_collapseNode_child isDirKey (_collapseNode isDirKey fuel) r) l
             (s, sel, acc) = Some (s1, sel1, acc1) →
    ∃ accl, acc1 = acc ++ accl ∧
      _getExpandedKeys s1 r ⊆ _getExpandedKeys s r ∧
      (∀ y, y ∈ collapsed_keys s s1 r → String.length x < String.length y) ∧
      (∀ y, y ∉ collapsed_keys s s1 r →
            previouslyExpanded_under s1 r !! y = previouslyExpanded_under s r !! y) ∧
      childKeyMap (_data s1) = childKeyMap (_data s) ∧
      (accl = [] → _getExpandedKeys s1 r = _getExpandedKeys s r) ∧
      (∀ sa,
         (∀ y, y ∈ collapsed_keys s s1 r →
               previouslyExpanded_under sa r !! y = previouslyExpanded_under s1 r !! y) →
         ∃ sa', forEachM (λ st childKey, _expandNode fuel st r childKey) accl sa
                = Some sa' ∧
                _getExpandedKeys sa' r = _getExpandedKeys sa r ∪ collapsed_keys s s1 r ∧
                (∀ y, y ∉ collapsed_keys s s1 r →
                      previouslyExpanded_under sa' r !! y
                      = previouslyExpanded_under sa r !! y))) as Hloop.
  { clear s s1 Hcm Hx Hrun.
    induction l as [|c l IHl]; intros s sel acc s1 sel1 acc1 Hlen Hcm Hl;
      cbn [forEachM] in Hl.
    - simplify_eq. exists []. rewrite app_nil_r. unfold collapsed_keys.
      split_and!; try done; [set_solver|].
      intros sa _. exists sa. cbn [forEachM]. split_and!; [done|set_solver|done].
    - destruct (_collapseNode_child _ _ r (s, sel, acc) c)
        as [[[s2 sel2] acc2]|] eqn:Hc; [|done].
      apply _collapseNode_child_cases in Hc as (s0 & Hs0 & Hc).
      assert (_getExpandedKeys s0 r = _getExpandedKeys s r ∧
              previouslyExpanded_under s0 r = previouslyExpanded_under s r ∧
              childKeyMap (_data s0) = childKeyMap (_data s)) as (HE0 & HP0 & HC0).
      { destruct Hs0 as [->|[keys ->]]; [done|apply _setSelectedKeys_view]. }
      clear Hs0.
      assert (∀ c', c' ∈ l → String.length x < String.length c') as Hlen'
        by (intros; apply Hlen; by right).
      destruct Hc as [(Hdir & Hexp & Hc & ->)|(_ & -> & ->)].
      + (* the child is collapsed in turn *)
        apply bool_decide_eq_true in Hexp.
        destruct (IH s0 c s2) as (Hsub2 & Hc2 & Hlen2 & Hpe2 & Hcm2 & Hres2);
          [congruence|done|done|].
        destruct (IHl s2 sel2 (acc ++ [c]) s1 sel1 acc1) as
          (accl & -> & Hsub1 & Hlen1 & Hpe1 & Hcm1 & _ & Hres1);
          [done|congruence|done|].
        exists (c :: accl). rewrite <- app_assoc. simpl.
        assert (String.length x < String.length c) as Hxc by (apply Hlen; left).
        unfold collapsed_keys in *. rewrite HE0, ?HP0 in *.
        split_and!; try done.
        * set_solver.
        * intros y Hy. destruct (decide (y ∈ _getExpandedKeys s2 r)).
          -- apply Hlen1. set_solver.
          -- assert (String.length c ≤ String.length y)%nat; [|lia].
             apply Hlen2. set_solver.
        * intros y Hy. rewrite Hpe1 by set_solver. apply Hpe2. set_solver.
        * congruence.
        * intros sa Hagree.
          destruct (Hres2 sa) as (sa2 & Hrun2 & HE2 & HP2).
          { intros y Hy. rewrite Hagree by set_solver. apply Hpe1. set_solver. }
          destruct (Hres1 sa2) as (sa' & Hrun' & HE' & HP').
          { intros y Hy. rewrite HP2.
            rewrite lookup_delete_ne by (intros ->; set_solver).
            apply Hagree. set_solver. }
          exists sa'. cbn [forEachM]. rewrite Hrun2. split_and!; [done| |].
          -- rewrite HE', HE2. apply set_eq. intros y.
             destruct (decide (y ∈ _getExpandedKeys s2 r)); set_solver.
          -- intros y Hy. rewrite HP' by set_solver. rewrite HP2.
             apply lookup_delete_ne. intros ->. set_solver.
      + destruct (IHl s0 sel2 acc s1 sel1 acc1) as
          (accl & -> & Hsub1 & Hlen1 & Hpe1 & Hcm1 & Hnil & Hres1);
          [done|congruence|done|].
        exists accl. unfold collapsed_keys in *. rewrite HE0, ?HP0, ?HC0 in *.
        split_and!; done. }
  destruct (forEachM _ _ (s, selectedKeysByRoot (_data s) !! r, []))
    as [[[s1' sel1] acc1]|] eqn:Hl; [|done].
  cbn [mbind option_bind] in Hrun. simplify_eq.
  assert (∀ c, c ∈ default [] (childKeyMap (_data s) !! x) →
               String.length x < String.length c) as Hchildren.
  { intros c Hc. destruct (childKeyMap (_data s) !! x) as [cs|] eqn:Hcs;
      [|by apply elem_of_nil in Hc].
    simpl in Hc. rewrite Hcm in Hcs. by eapply Hext. }
  destruct (Hloop _ _ _ _ _ _ _ Hchildren Hcm Hl)
    as (accl & Hacc & Hsub & Hlen & Hpe & Hcm1 & Hnil & Hres).
  simpl in Hacc. subst acc1.
  set (pe' := match accl with
              | [] => deleteProperty (default ∅ (previouslyExpanded (_data s1') !! r)) x
              | _ :: _ => setProperty (default ∅ (previouslyExpanded (_data s1') !! r))
                            x accl
              end) in *.
  set (s2 := _set_previouslyExpanded s1' _).
  set (s3 := _setExpandedKeys s2 r _).
  destruct (_removeSubscription_view s3 r x) as (HE4 & HP4 & HC4).
  assert (_getExpandedKeys s3 r = _getExpandedKeys s1' r ∖ {[x]} ∧
          previouslyExpanded_under s3 r = pe' ∧
          childKeyMap (_data s3) = childKeyMap (_data s1')) as (HE3 & HP3 & HC3).
  { unfold s3, s2, _getExpandedKeys, previouslyExpanded_under, _setExpandedKeys,
      setProperty. simpl. by rewrite !lookup_insert_eq. }
  clearbody s3. clear s2.
  set (s4 := _removeSubscription s3 r x) in *. clearbody s4.
  rewrite HE3 in HE4. rewrite HP3 in HP4. rewrite HC3 in HC4. clear HE3 HP3 HC3 s3.
  assert (x ∈ _getExpandedKeys s1' r) as Hx1.
  { destruct (decide (x ∈ _getExpandedKeys s1' r)); [done|].
    assert (String.length x < String.length x); [|lia].
    apply Hlen. unfold collapsed_keys. set_solver. }
  assert (collapsed_keys s s4 r = collapsed_keys s s1' r ∪ {[x]}) as HT.
  { unfold collapsed_keys. rewrite HE4. apply set_eq. intros y.
    destruct (decide (y = x)); set_solver. }
  assert (∀ y, y ≠ x → pe' !! y = previouslyExpanded_under s1' r !! y) as Hpe'.
  { intros y Hy. unfold pe', previouslyExpanded_under, setProperty, deleteProperty.
    destruct accl; [by rewrite lookup_delete_ne|by rewrite lookup_insert_ne]. }
  rewrite HT. split_and!.
  - rewrite HE4. set_solver.
  - rewrite HE4. set_solver.
  - intros y [Hy|Hy%elem_of_singleton]%elem_of_union; [|by subst].
    specialize (Hlen y Hy). lia.
  - intros y Hy. rewrite HP4, Hpe' by set_solver. apply Hpe. set_solver.
  - congruence.
  - intros sa Hagree. cbn [_expandNode].
    set (sa0 := _setExpandedKeys sa r ({[x]} ∪ _getExpandedKeys sa r)).
    assert (_getExpandedKeys sa0 r = {[x]} ∪ _getExpandedKeys sa r ∧
            previouslyExpanded (_data sa0) = previouslyExpanded (_data sa))
      as [HEa HPa].
    { unfold sa0, _getExpandedKeys, _setExpandedKeys, setProperty. simpl.
      by rewrite lookup_insert_eq. }
    clearbody sa0. rewrite HPa.
    assert (previouslyExpanded_under sa r !! x = pe' !! x) as Hxa.
    { rewrite Hagree by set_solver. by rewrite HP4. }
    unfold previouslyExpanded_under in Hxa at 1. rewrite Hxa.
    destruct accl as [|c accl].
    + unfold pe', deleteProperty. rewrite lookup_delete_eq.
      exists sa0. split_and!; [done| |].
      * rewrite HEa. unfold collapsed_keys. rewrite (Hnil eq_refl). set_solver.
      * unfold previouslyExpanded_under. rewrite HPa. symmetry. apply delete_id.
        fold (previouslyExpanded_under sa r). rewrite Hagree by set_solver.
        rewrite HP4. unfold pe', deleteProperty. apply lookup_delete_eq.
    + unfold pe', setProperty. rewrite lookup_insert_eq.
      destruct (Hres sa0) as (sa1 & Hrun1 & HE1 & HP1).
      { intros y Hy. unfold previouslyExpanded_under at 1. rewrite HPa.
        fold (previouslyExpanded_under sa r).
        assert (y ≠ x) by (intros ->; specialize (Hlen x Hy); lia).
        rewrite Hagree by set_solver. rewrite HP4. by apply Hpe'. }
      rewrite Hrun1. cbn [mbind option_bind]. eexists. split_and!; [done| |].
      * unfold _getExpandedKeys at 1. simpl. fold (_getExpandedKeys sa1 r).
        rewrite HE1, HEa. set_solver.
      * unfold previouslyExpanded_under at 1. simpl. unfold setProperty.
        by rewrite lookup_insert_eq.
Qed.

(** On a cache that is a tree of paths, collapsing a node that is expanded
    under a root returns and leaves the node collapsed; expanding the node
    again then returns too, every root has exactly the keys expanded that it
    had before the collapse, and the remembered expansion of the node is
    gone. *)
Theorem _collapseNode_then_expandNode st r k :
  child_keys_extend st → k ∈ _getExpandedKeys st r →
  (∀ fuel, longest_child_key st < fuel →
           is_Some (_collapseNode isDirKey fuel st r k)) ∧
  (∀ fuel st1,
     _collapseNode isDirKey fuel st r k = Some st1 →
     (k ∉ _getExpandedKeys st1 r) ∧
     ∃ st2, _expandNode fuel st1 r k = Some st2 ∧
            expandedKeysByRoot (_data st2) = expandedKeysByRoot (_data st) ∧
            previouslyExpanded_under st2 r !! k = None).
Proof.
  intros Hext Hk. split.
  - intros fuel Hfuel. apply (_collapseNode_returns st r Hext); [done|lia].
  - intros fuel st1 Hrun.
    destruct (_collapseNode_restorable st r Hext fuel st k st1 eq_refl Hk Hrun)
      as (Hsub & Hk1 & _ & _ & _ & Hres).
    split; [done|].
    destruct (Hres st1) as (st2 & Hrun2 & HE2 & HP2); [done|].
    exists st2. split_and!; [done| |by rewrite HP2, lookup_delete_eq].
    apply _collapseNode_frame in Hrun as (_ & _ & _ & _ & _ & _ & _ & Hother & _).
    destruct (_expandNode_effect _ _ _ _ _ Hrun2) as (Hk2 & _ & _ & _ & Hother2).
    apply map_eq. intros r'. destruct (decide (r' = r)) as [->|Hne].
    + assert (_getExpandedKeys st2 r = _getExpandedKeys st r) as Heq.
      { rewrite HE2. unfold collapsed_keys. apply set_eq. intros y.
        destruct (decide (y ∈ _getExpandedKeys st1 r)); set_solver. }
      unfold _getExpandedKeys in Heq, Hk2, Hk.
      destruct (expandedKeysByRoot (_data st2) !! r) as [s2|];
        [|by apply not_elem_of_empty in Hk2].
      destruct (expandedKeysByRoot (_data st) !! r) as [s|];
        [|by apply not_elem_of_empty in Hk].
      simpl in Heq. by rewrite Heq.
    + by rewrite Hother2, Hother.
Qed.

(** ** The root of a key, the tracked node, created children *)

(** [getRootForKey] returns the first registered root, in the order of the
    root list, that is a prefix of the key, and nothing exactly when no
    registered root is a prefix of the key. *)
Theorem getRootForKey_first st k :
  (∀ r, getRootForKey st k = Some r →
     ∃ before after,
       rootKeys (_data st) = before ++ r :: after ∧
       String.prefix r k = true ∧
       ∀ r', r' ∈ before → String.prefix r' k = false) ∧
  (getRootForKey st k = None ↔
   ∀ r, r ∈ rootKeys (_data st) → String.prefix r k = false).
Proof.
  clear isDirKey getDirectoryByKey.
  unfold getRootForKey. generalize (rootKeys (_data st)) as l.
  induction l as [|x l [IH1 IH2]]; simpl.
  - split; [done|]. split; [|done]. intros _ r Hr. by apply elem_of_nil in Hr.
  - destruct (String.prefix x k) eqn:Hx.
    + split.
      * intros r Hr. simplify_eq. exists [], l. split_and!; [done..|].
        intros r' Hr'. by apply elem_of_nil in Hr'.
      * split; [done|]. intros H. specialize (H x). rewrite Hx in H.
        discriminate H. by left.
    + split.
      * intros r Hr. destruct (IH1 r Hr) as (before & after & -> & Hp & Hb).
        exists (x :: before), after. split_and!; [done..|].
        intros r' Hr'. apply elem_of_cons in Hr' as [->|?]; [done|by apply Hb].
      * rewrite IH2. split.
        -- intros H r Hr. apply elem_of_cons in Hr as [->|?]; [done|by apply H].
        -- intros H r Hr. apply H. by right.
Qed.

(** Clearing the loading entry of a key forgets the tracked node exactly
    when no other key is loading; while another listing is pending the
    tracked node is kept.  Nothing else but the loading entry changes. *)
Theorem _clearLoading_trackedNode st k :
  isLoadingMap (_data (_clearLoading st k)) = delete k (isLoadingMap (_data st)) ∧
  trackedNode (_data (_clearLoading st k))
  = (if decide (delete k (isLoadingMap (_data st)) = ∅) then None
     else trackedNode (_data st)) ∧
  childKeyMap (_data (_clearLoading st k)) = childKeyMap (_data st) ∧
  isDirtyMap (_data (_clearLoading st k)) = isDirtyMap (_data st) ∧
  subscriptionMap (_data (_clearLoading st k)) = subscriptionMap (_data st) ∧
  expandedKeysByRoot (_data (_clearLoading st k)) = expandedKeysByRoot (_data st) ∧
  selectedKeysByRoot (_data (_clearLoading st k)) = selectedKeysByRoot (_data st).
Proof.
  clear isDirKey getDirectoryByKey.
  unfold _clearLoading, _checkTrackedNode, deleteProperty. simpl.
  destruct (trackedNode (_data st)) as [node|] eqn:Ht; simpl.
  - destruct (decide (delete k (isLoadingMap (_data st)) = ∅)); simpl;
      rewrite ?Ht; done.
  - rewrite Ht. split_and!; try done. by destruct (decide _).
Qed.

(** On a cache that is a tree of paths [_createChild] returns.  It installs
    the child as the whole child list of the node and marks the node dirty,
    so that the next [getChildKeys] answers with that single child and,
    when no listing of the node is pending, starts one. *)
Theorem _createChild_spec fuel st k childKey :
  (child_keys_extend st → longest_child_key st < fuel →
   is_Some (_createChild isDirKey fuel st k childKey)) ∧
  (∀ st',
     _createChild isDirKey fuel st k childKey = Some st' →
     getCachedChildKeys st' k k = [childKey] ∧
     isDirty st' k = true ∧
     ∀ r, (getChildKeys st' r k).2 = [childKey] ∧
          (_getLoading st k = None →
           fetchChildrenCalls (getChildKeys st' r k).1
           = fetchChildrenCalls st' ++ [k])).
Proof.
  split; [intros Hext Hfuel; by apply _createChild_returns|].
  unfold _createChild. intros st' H.
  destruct (_setChildKeys isDirKey fuel st k [childKey]) as [s1|] eqn:H1; [|done].
  cbn [mbind option_bind] in H. simplify_eq.
  apply _setChildKeys_installs in H1 as (Hc & Hl & _).
  unfold getCachedChildKeys, isDirty, getChildKeys, _fetchChildKeys, _getLoading.
  simpl. unfold setProperty. rewrite Hc, lookup_insert_eq, Hl. simpl.
  split_and!; [done..|]. intros r. split; [done|].
  intros ->. unfold isDirty. simpl. by rewrite lookup_insert_eq.
Qed.

(** ** The selected keys and nodes of the whole tree *)

Lemma foldl_add_new {A} `{EqDecision A} (l : list A) (acc : list A) :
  let res := foldl (λ acc x, if bool_decide (x ∈ acc) then acc else acc ++ [x]) acc l in
  (∀ x, x ∈ res ↔ x ∈ acc ∨ x ∈ l) ∧ (NoDup acc → NoDup res).
Proof.
  clear isDirKey getDirectoryByKey.
  revert acc. induction l as [|y l IH]; intros acc; cbv zeta; simpl.
  - split; [|done]. intros x. rewrite elem_of_nil. tauto.
  - destruct (IH (if bool_decide (y ∈ acc) then acc else acc ++ [y])) as [Hin Hnd].
    cbv zeta in *. split.
    + intros x. rewrite Hin, elem_of_cons.
      destruct (bool_decide_reflect (y ∈ acc)) as [Hy|Hy].
      * split; [tauto|]. intros [?|[->|?]]; tauto.
      * rewrite elem_of_app, list_elem_of_singleton. tauto.
    + intros Hacc. apply Hnd.
      destruct (bool_decide_reflect (y ∈ acc)) as [Hy|Hy]; [done|].
      apply NoDup_app. split_and!; [done| |apply NoDup_singleton].
      intros x Hx Hx'. apply list_elem_of_singleton in Hx'. by subst.
Qed.

Lemma oset_merge_spec s t :
  (∀ x, x ∈ oset_merge s t ↔ x ∈ s ∨ x ∈ t) ∧ (NoDup s → NoDup (oset_merge s t)).
Proof.
  clear isDirKey getDirectoryByKey.
  apply (foldl_add_new t s).
Qed.

Lemma getSelectedNodes_bind st :
  getSelectedNodes st
  = rootKeys (_data st) ≫= λ r, getNode r <$> getSelectedKeys st (Some r).
Proof.
  clear isDirKey getDirectoryByKey.
  unfold getSelectedNodes.
  assert (∀ r (keys : list string) acc,
    foldl (λ selectedNodes nodeKey, selectedNodes ++ [getNode r nodeKey]) acc keys
    = acc ++ (getNode r <$> keys)) as Hinner.
  { intros r keys. induction keys as [|k keys IHk]; intros acc; simpl.
    - by rewrite app_nil_r.
    - rewrite IHk. by rewrite <- app_assoc. }
  assert (∀ (l : list string) acc,
    foldl (λ selectedNodes rootKey,
             foldl (λ selectedNodes nodeKey, selectedNodes ++ [getNode rootKey nodeKey])
                   selectedNodes (getSelectedKeys st (Some rootKey))) acc l
    = acc ++ (l ≫= λ r, getNode r <$> getSelectedKeys st (Some r))) as Houter.
  { induction l as [|x l IH]; intros acc; cbn [foldl].
    - by rewrite app_nil_r.
    - rewrite IH, Hinner, bind_cons. by rewrite <- app_assoc. }
  apply (Houter _ []).
Qed.

(** Without a root, [getSelectedKeys] returns each key selected under some
    entry of the selection map once.  [getSelectedNodes] returns the nodes
    of the keys selected under the registered roots, one for each key of
    each root of the list of roots; the selection entries of keys that are
    no registered roots do not count there. *)
Theorem selected_keys_and_nodes st :
  (∀ k, k ∈ getSelectedKeys st None ↔
        ∃ r s, selectedKeysByRoot (_data st) !! r = Some s ∧ k ∈ s) ∧
  NoDup (getSelectedKeys st None) ∧
  (∀ node, node ∈ getSelectedNodes st ↔
           ∃ r s, r ∈ rootKeys (_data st) ∧
                  selectedKeysByRoot (_data st) !! r = Some s ∧
                  node_nodeKey node ∈ s ∧ node_rootKey node = r) ∧
  List.length (getSelectedNodes st)
  = sum_list_with (λ r, List.length (getSelectedKeys st (Some r))) (rootKeys (_data st)).
Proof.
  clear isDirKey getDirectoryByKey.
  assert (∀ (l : list string) acc,
    let res := foldl (λ selectedKeys root,
                 oset_merge selectedKeys
                   (default [] (selectedKeysByRoot (_data st) !! root))) acc l in
    (∀ k, k ∈ res ↔ k ∈ acc ∨ ∃ r, r ∈ l ∧
                      k ∈ default [] (selectedKeysByRoot (_data st) !! r)) ∧
    (NoDup acc → NoDup res)) as Hkeys.
  { induction l as [|x l IH]; intros acc; cbv zeta; simpl.
    - split; [|done]. intros k. split; [eauto|].
      intros [?|(r & Hr & _)]; [done|]. by apply elem_of_nil in Hr.
    - destruct (IH (oset_merge acc (default [] (selectedKeysByRoot (_data st) !! x))))
        as [Hin Hnd].
      destruct (oset_merge_spec acc (default [] (selectedKeysByRoot (_data st) !! x)))
        as [Hm Hmd].
      cbv zeta in *. split; [|by intros; apply Hnd, Hmd].
      intros k. rewrite Hin, Hm. split.
      + intros [[?|?]|(r & Hr & ?)]; [by left| |].
        * right. exists x. split; [by left|done].
        * right. exists r. split; [by right|done].
      + intros [?|(r & Hr & ?)]; [by left; left|].
        apply elem_of_cons in Hr as [->|?]; [by left; right|].
        right. exists r. done. }
  split_and!.
  - intros k. unfold getSelectedKeys.
    destruct (Hkeys (Object_keys (selectedKeysByRoot (_data st))) []) as [-> _].
    rewrite elem_of_nil. split.
    + intros [[]|(r & Hr & Hk)].
      destruct (selectedKeysByRoot (_data st) !! r) as [s|] eqn:Hs; [eauto|].
      by apply elem_of_nil in Hk.
    + intros (r & s & Hs & Hk). right. exists r. rewrite Hs. split; [|done].
      apply elem_of_Object_keys. eauto.
  - unfold getSelectedKeys. apply Hkeys, NoDup_nil_2.
  - intros node. rewrite getSelectedNodes_bind, list_elem_of_bind.
    unfold getSelectedKeys. split.
    + intros (r & (k & -> & Hk)%list_elem_of_fmap & Hr). simpl.
      destruct (selectedKeysByRoot (_data st) !! r) as [s|] eqn:Hs;
        [by eauto 10|]. by apply elem_of_nil in Hk.
    + intros (r & s & Hr & Hs & Hk & Hroot). exists r. split; [|done].
      rewrite Hs. simpl. apply list_elem_of_fmap. exists (node_nodeKey node).
      split; [|done]. destruct node. simpl in *. by subst.
  - rewrite getSelectedNodes_bind.
    induction (rootKeys (_data st)) as [|x l IH]; [done|].
    rewrite bind_cons, length_app, length_fmap, IH. done.
Qed.

(** ** Collapsing unselects the children *)

Lemma oset_delete_elem (s : list string) (k d : string) :
  d ∈ oset_delete s k ↔ d ∈ s ∧ d ≠ k.
Proof.
  clear isDirKey getDirectoryByKey.
  unfold oset_delete. rewrite list_elem_of_filter. tauto.
Qed.

Lemma _collapseNode_child_selection collapse r s sel acc c s2 sel2 acc2 :
  _collapseNode_child isDirKey collapse r (s, sel, acc) c = Some (s2, sel2, acc2) →
  ∃ s0,
    ((sel2 = sel ∧ s0 = s ∧ c ∉ default [] sel) ∨
     (∃ keys, sel = Some keys ∧ c ∈ keys ∧ sel2 = Some (oset_delete keys c) ∧
              s0 = _setSelectedKeys s r (oset_delete keys c))) ∧
    (collapse s0 r c = Some s2 ∨ s2 = s0).
Proof.
  clear getDirectoryByKey.
  unfold _collapseNode_child. intros H.
  destruct sel as [keys|];
    [unfold oset_has in H; destruct (bool_decide_reflect (c ∈ keys))|].
  - exists (_setSelectedKeys s r (oset_delete keys c)).
    destruct (isDirKey c && isExpanded _ r c).
    + destruct (collapse _ r c) as [s3|] eqn:H3; simplify_eq/=.
      split; [right; by exists keys|by left].
    + simplify_eq/=. split; [right; by exists keys|by right].
  - exists s.
    destruct (isDirKey c && isExpanded _ r c).
    + destruct (collapse _ r c) as [s3|] eqn:H3; simplify_eq/=.
      split; [by left|by left].
    + simplify_eq/=. split; [by left|by right].
  - exists s.
    destruct (isDirKey c && isExpanded _ r c).
    + destruct (collapse _ r c) as [s3|] eqn:H3; simplify_eq/=.
      split; [left|by left]. split_and!; [done..|]. apply not_elem_of_nil.
    + simplify_eq/=. split; [left|by right]. split_and!; [done..|].
      apply not_elem_of_nil.
Qed.

Lemma _collapseNode_selection fuel r :
  ∀ s x s',
    _collapseNode isDirKey fuel s r x = Some s' →
    (∀ k, k ∈ getSelectedKeys s' (Some r) → k ∈ getSelectedKeys s (Some r)) ∧
    (∀ c, c ∈ getCachedChildKeys s r x → c ∉ getSelectedKeys s' (Some r)).
Proof.
  clear getDirectoryByKey.
  induction fuel as [|fuel IH]; intros s x s' Hrun; [done|].
  cbn [_collapseNode] in Hrun.
  set (S0 := getSelectedKeys s (Some r)).
  assert (∀ l done_ s1 sel acc s2 sel2 acc2,
    forEachM (_collapseNode_child isDirKey (_collapseNode isDirKey fuel) r) l
             (s1, sel, acc) = Some (s2, sel2, acc2) →
    (∀ k, k ∈ getSelectedKeys s1 (Some r) → k ∈ S0) →
    (∀ k, k ∈ default [] sel → k ∈ S0) →
    (∀ k, k ∈ S0 → k ∈ default [] sel ∨ k ∈ done_) →
    (∀ c, c ∈ done_ → (c ∉ getSelectedKeys s1 (Some r)) ∧ (c ∉ default [] sel)) →
    (∀ k, k ∈ getSelectedKeys s2 (Some r) → k ∈ S0) ∧
    (∀ c, c ∈ done_ ++ l → c ∉ getSelectedKeys s2 (Some r))) as Hloop.
  { induction l as [|c l IHl]; intros done_ s1 sel acc s2 sel2 acc2 Hl H1 H2 H3 H4;
      cbn [forEachM] in Hl.
    - simplify_eq. split; [done|]. rewrite app_nil_r. intros c Hc. by apply H4.
    - destruct (_collapseNode_child _ _ r (s1, sel, acc) c)
        as [[[s3 sel3] acc3]|] eqn:Hc; [|done].
      apply _collapseNode_child_selection in Hc as (s0 & Hsel & Hrec).
      assert ((∀ k, k ∈ getSelectedKeys s0 (Some r) → k ∈ S0) ∧
              (∀ k, k ∈ default [] sel3 → k ∈ S0) ∧
              (∀ k, k ∈ S0 → k ∈ default [] sel3 ∨ k ∈ done_ ++ [c]) ∧
              (∀ c', c' ∈ done_ ++ [c] →
                     (c' ∉ getSelectedKeys s0 (Some r)) ∧ (c' ∉ default [] sel3)))
        as (H1' & H2' & H3' & H4').
      { destruct Hsel as [(-> & -> & Hc)|(keys & -> & Hc & -> & ->)].
        - split_and!; [done|done| |].
          + intros k Hk. destruct (H3 k Hk); [by left|]. right. set_solver.
          + intros c' [Hc'|Hc'%list_elem_of_singleton]%elem_of_app; [by apply H4|].
            subst c'. split; [|done]. intros Hin.
            destruct (H3 c (H1 c Hin)) as [?|Hd]; [done|].
            by destruct (H4 c Hd).
        - assert (getSelectedKeys (_setSelectedKeys s1 r (oset_delete keys c)) (Some r)
                  = oset_delete keys c) as ->.
          { unfold getSelectedKeys, _setSelectedKeys, setProperty. simpl.
            by rewrite lookup_insert_eq. }
          cbn [default from_option id] in H2, H3, H4 |- *.
          split_and!.
          + intros k [Hk _]%oset_delete_elem. by apply H2.
          + intros k [Hk _]%oset_delete_elem. by apply H2.
          + intros k Hk. destruct (decide (k = c)) as [->|Hne]; [right; set_solver|].
            destruct (H3 k Hk) as [?|?]; [|right; set_solver].
            left. by apply oset_delete_elem.
          + intros c' [Hc'|Hc'%list_elem_of_singleton]%elem_of_app.
            * destruct (H4 c' Hc') as [_ Hn].
              split; intros [Hin _]%oset_delete_elem; done.
            * subst c'. split; intros [_ Hin]%oset_delete_elem; done. }
      assert ((∀ k, k ∈ getSelectedKeys s3 (Some r) → k ∈ getSelectedKeys s0 (Some r)))
        as Hshrink.
      { destruct Hrec as [Hrec| ->]; [|done]. by apply (IH _ _ _ Hrec). }
      destruct (IHl (done_ ++ [c]) s3 sel3 acc3 s2 sel2 acc2 Hl) as [Ha Hb].
      + intros k Hk. by apply H1', Hshrink.
      + done.
      + done.
      + intros c' Hc'. destruct (H4' c' Hc') as [? ?]. split; [|done].
        intros Hin. by apply Hshrink in Hin.
      + split; [done|]. intros c' Hc'. apply Hb. rewrite <- app_assoc. done. }
  destruct (forEachM _ _ (s, selectedKeysByRoot (_data s) !! r, []))
    as [[[s1 sel1] acc1]|] eqn:Hl; [|done].
  cbn [mbind option_bind] in Hrun. simplify_eq.
  destruct (Hloop _ [] _ _ _ _ _ _ Hl) as [Ha Hb].
  - done.
  - done.
  - intros k Hk. by left.
  - intros c Hc. by apply elem_of_nil in Hc.
  - assert (∀ s2 : Store,
      selectedKeysByRoot (_data (_removeSubscription s2 r x))
      = selectedKeysByRoot (_data s2)) as Hrem.
    { intros s2. unfold _removeSubscription.
      destruct (subscriptionMap (_data s2) !! x); [|done]. by destruct (existsb _ _). }
    unfold getSelectedKeys in *. rewrite Hrem. simpl. split; [done|].
    intros c Hc. apply Hb. done.
Qed.

(** After [_collapseNode(r, k)] none of the cached children of [k] is
    selected under [r]; the collapse selects nothing, and it leaves the
    selection of every other root alone. *)
Theorem _collapseNode_unselects_children fuel st r k st' :
  _collapseNode isDirKey fuel st r k = Some st' →
  (∀ c, c ∈ getCachedChildKeys st r k → isSelected st' r c = false) ∧
  (∀ c, isSelected st' r c = true → isSelected st r c = true) ∧
  (∀ r', r' ≠ r →
     selectedKeysByRoot (_data st') !! r' = selectedKeysByRoot (_data st) !! r').
Proof.
  clear getDirectoryByKey.
  intros Hrun. destruct (_collapseNode_selection _ _ _ _ _ Hrun) as [Ha Hb].
  unfold isSelected, oset_has. split_and!.
  - intros c Hc. apply bool_decide_eq_false. by apply Hb.
  - intros c Hc%bool_decide_eq_true. apply bool_decide_eq_true. by apply Ha.
  - by apply _collapseNode_frame in Hrun as (_ & _ & _ & _ & _ & _ & _ & _ & Hs).
Qed.

(** ** Subscriptions are disposed once *)

Lemma same_subscriptions_keeps s s' : same_subscriptions s s' → keeps_safe s s'.
Proof.
  clear isDirKey getDirectoryByKey.
  unfold same_subscriptions, keeps_safe, subscriptions_safe.
  intros (-> & -> & ->). done.
Qed.

Lemma keeps_safe_refl s : keeps_safe s s.
Proof. clear isDirKey getDirectoryByKey. by unfold keeps_safe. Qed.

Lemma keeps_safe_trans s1 s2 s3 : keeps_safe s1 s2 → keeps_safe s2 s3 → keeps_safe s1 s3.
Proof. clear isDirKey getDirectoryByKey. unfold keeps_safe. auto. Qed.

Lemma _set_childKeyMap_keeps s v : keeps_safe s (_set_childKeyMap s v).
Proof. clear isDirKey getDirectoryByKey. by apply same_subscriptions_keeps. Qed.

Lemma _set_isDirtyMap_keeps s v : keeps_safe s (_set_isDirtyMap s v).
Proof. clear isDirKey getDirectoryByKey. by apply same_subscriptions_keeps. Qed.

Lemma _set_expandedKeysByRoot_keeps s v : keeps_safe s (_set_expandedKeysByRoot s v).
Proof. clear isDirKey getDirectoryByKey. by apply same_subscriptions_keeps. Qed.

Lemma _set_trackedNode_keeps s v : keeps_safe s (_set_trackedNode s v).
Proof. clear isDirKey getDirectoryByKey. by apply same_subscriptions_keeps. Qed.

Lemma _set_previouslyExpanded_keeps s v : keeps_safe s (_set_previouslyExpanded s v).
Proof. clear isDirKey getDirectoryByKey. by apply same_subscriptions_keeps. Qed.

Lemma _set_isLoadingMap_keeps s v : keeps_safe s (_set_isLoadingMap s v).
Proof. clear isDirKey getDirectoryByKey. by apply same_subscriptions_keeps. Qed.

Lemma _set_rootKeys_keeps s v : keeps_safe s (_set_rootKeys s v).
Proof. clear isDirKey getDirectoryByKey. by apply same_subscriptions_keeps. Qed.

Lemma _set_selectedKeysByRoot_keeps s v : keeps_safe s (_set_selectedKeysByRoot s v).
Proof. clear isDirKey getDirectoryByKey. by apply same_subscriptions_keeps. Qed.

Lemma _set_vcsStatusesByRoot_keeps s v : keeps_safe s (_set_vcsStatusesByRoot s v).
Proof. clear isDirKey getDirectoryByKey. by apply same_subscriptions_keeps. Qed.

Lemma logger_error_keeps s v : keeps_safe s (logger_error s v).
Proof. clear isDirKey getDirectoryByKey. by apply same_subscriptions_keeps. Qed.

Lemma release_safe s s' k h :
  subscriptionMap (_data s) !! k = Some h →
  subscriptionMap (_data s') = delete k (subscriptionMap (_data s)) →
  disposedSubscriptions s' = disposedSubscriptions s ++ [h] →
  nextDisposable s' = nextDisposable s →
  keeps_safe s s'.
Proof.
  clear isDirKey getDirectoryByKey.
  unfold keeps_safe, subscriptions_safe.
  intros Hk -> -> -> (Hlive & Hinj & Hnd & Hlt). split_and!.
  - intros k' h' [Hne Hk']%lookup_delete_Some.
    destruct (Hlive _ _ Hk') as [? Hnot]. split; [done|].
    intros [Hin|Hin%list_elem_of_singleton]%elem_of_app; [done|].
    subst h'. by apply Hne, (Hinj _ _ h).
  - intros k1 k2 h' [_ H1]%lookup_delete_Some [_ H2]%lookup_delete_Some.
    by apply (Hinj _ _ h').
  - apply NoDup_app. split_and!; [done| |apply NoDup_singleton].
    intros x Hx ->%list_elem_of_singleton. by destruct (Hlive _ _ Hk).
  - intros h' [Hin|Hin%list_elem_of_singleton]%elem_of_app; [by apply Hlt|].
    subst h'. by destruct (Hlive _ _ Hk).
Qed.

Lemma _removeAllSubscriptions_keeps s k : keeps_safe s (_removeAllSubscriptions s k).
Proof.
  clear isDirKey getDirectoryByKey.
  unfold _removeAllSubscriptions.
  destruct (subscriptionMap (_data s) !! k) as [h|] eqn:Hk; [|apply keeps_safe_refl].
  by apply (release_safe _ _ k h).
Qed.

Lemma _removeSubscription_keeps s r k : keeps_safe s (_removeSubscription s r k).
Proof.
  clear isDirKey getDirectoryByKey.
  unfold _removeSubscription.
  destruct (subscriptionMap (_data s) !! k) as [h|] eqn:Hk; [|apply keeps_safe_refl].
  destruct (existsb _ _); [apply keeps_safe_refl|].
  by apply (release_safe _ _ k h).
Qed.

Lemma _addSubscription_keeps s k : keeps_safe s (_addSubscription getDirectoryByKey s k).
Proof.
  clear isDirKey.
  unfold _addSubscription.
  destruct (getDirectoryByKey k) as [d|]; [|apply keeps_safe_refl].
  cbv zeta. simpl.
  destruct (subscriptionMap (_data s) !! k) as [h|] eqn:Hk;
    [by apply same_subscriptions_keeps|].
  destruct (onDidChange_throws d); [by apply same_subscriptions_keeps|].
  unfold keeps_safe, subscriptions_safe, setProperty. simpl.
  intros (Hlive & Hinj & Hnd & Hlt). split_and!.
  - intros k' h' [[-> <-]|[Hne Hk']]%lookup_insert_Some.
    + split; [lia|]. intros Hin%Hlt. lia.
    + destruct (Hlive _ _ Hk'). split; [lia|done].
  - intros k1 k2 h' [[-> <-]|[Hne1 H1]]%lookup_insert_Some
      [[-> E]|[Hne2 H2]]%lookup_insert_Some; try done.
    + destruct (Hlive _ _ H2). lia.
    + subst h'. destruct (Hlive _ _ H1). lia.
    + by apply (Hinj _ _ h').
  - done.
  - intros h' Hin%Hlt. lia.
Qed.

Lemma _checkTrackedNode_keeps s : keeps_safe s (_checkTrackedNode s).
Proof.
  clear isDirKey getDirectoryByKey.
  unfold _checkTrackedNode. destruct (trackedNode _); [|apply keeps_safe_refl].
  destruct (decide _); [by apply same_subscriptions_keeps|apply keeps_safe_refl].
Qed.

Lemma _clearLoading_keeps s k : keeps_safe s (_clearLoading s k).
Proof.
  clear isDirKey getDirectoryByKey.
  unfold _clearLoading.
  eapply keeps_safe_trans; [|apply _checkTrackedNode_keeps].
  apply _set_isLoadingMap_keeps.
Qed.

Lemma _fetchChildKeys_keeps s k : keeps_safe s (_fetchChildKeys s k).1.
Proof.
  clear isDirKey getDirectoryByKey.
  unfold _fetchChildKeys. destruct (_getLoading s k); [apply keeps_safe_refl|].
  by apply same_subscriptions_keeps.
Qed.

Lemma _purgeRoot_keeps s r : keeps_safe s (_purgeRoot isDirKey s r).
Proof.
  clear getDirectoryByKey.
  unfold _purgeRoot. cbv zeta.
  eapply keeps_safe_trans; [|apply _set_vcsStatusesByRoot_keeps].
  match goal with
  | |- keeps_safe _ (match childKeyMap (_data ?x) !! _ with _ => _ end) =>
      apply (keeps_safe_trans _ x)
  end.
  - eapply keeps_safe_trans; [|apply _set_selectedKeysByRoot_keeps].
    destruct (expandedKeysByRoot (_data s) !! r) as [e|]; [|apply keeps_safe_refl].
    eapply keeps_safe_trans; [|apply _set_expandedKeysByRoot_keeps].
    apply foldl_writes; [apply keeps_safe_refl|apply keeps_safe_trans|].
    intros s1 x. apply _removeSubscription_keeps.
  - destruct (childKeyMap _ !! r) as [cs|]; [|apply keeps_safe_refl].
    eapply keeps_safe_trans; [|apply _set_childKeyMap_keeps].
    apply foldl_writes; [apply keeps_safe_refl|apply keeps_safe_trans|].
    intros s1 c. destruct (isDirKey c); [|apply keeps_safe_refl].
    apply _set_childKeyMap_keeps.
Qed.

Lemma _setRootKeys_keeps s new : keeps_safe s (_setRootKeys isDirKey s new).
Proof.
  clear getDirectoryByKey.
  unfold _setRootKeys. cbv zeta.
  eapply keeps_safe_trans; [|apply _set_rootKeys_keeps].
  apply foldl_writes; [apply keeps_safe_refl|apply keeps_safe_trans|].
  intros s1 r. destruct (bool_decide _); [apply keeps_safe_refl|apply _purgeRoot_keeps].
Qed.

Lemma _setChildKeys_keeps fuel s k childKeys s' :
  _setChildKeys isDirKey fuel s k childKeys = Some s' → keeps_safe s s'.
Proof.
  clear getDirectoryByKey.
  eapply _setChildKeys_writes with (R := keeps_safe).
  - apply keeps_safe_refl.
  - apply keeps_safe_trans.
  - intros. by apply same_subscriptions_keeps.
  - intros. apply _removeAllSubscriptions_keeps.
  - intros. by apply same_subscriptions_keeps.
  - intros. by apply same_subscriptions_keeps.
  - intros. by apply same_subscriptions_keeps.
Qed.

Lemma _collapseNode_keeps fuel s r k s' :
  _collapseNode isDirKey fuel s r k = Some s' → keeps_safe s s'.
Proof.
  clear getDirectoryByKey.
  eapply _collapseNode_writes with (R := keeps_safe).
  - apply keeps_safe_refl.
  - apply keeps_safe_trans.
  - intros. by apply same_subscriptions_keeps.
  - intros. by apply same_subscriptions_keeps.
  - intros. by apply same_subscriptions_keeps.
  - intros. apply _removeSubscription_keeps.
Qed.

Lemma _expandNode_keeps fuel s r k s' :
  _expandNode fuel s r k = Some s' → keeps_safe s s'.
Proof.
  clear isDirKey getDirectoryByKey.
  eapply _expandNode_writes with (R := keeps_safe).
  - apply keeps_safe_refl.
  - apply keeps_safe_trans.
  - intros. by apply same_subscriptions_keeps.
  - intros. by apply same_subscriptions_keeps.
Qed.

Lemma _onDispatch_keeps fuel s payload s' :
  _onDispatch isDirKey fuel s payload = Some s' → keeps_safe s s'.
Proof.
  clear getDirectoryByKey.
  destruct payload; simpl; intros H.
  - simplify_eq. apply keeps_safe_refl.
  - simplify_eq. by apply same_subscriptions_keeps.
  - simplify_eq. apply _setRootKeys_keeps.
  - by eapply _expandNode_keeps.
  - by eapply _collapseNode_keeps.
  - simplify_eq. by apply same_subscriptions_keeps.
  - simplify_eq. unfold _setSelectedKeysByRoot.
    apply foldl_writes; [apply keeps_safe_refl|apply keeps_safe_trans|].
    intros s1 r. destruct (_ !! r); by apply same_subscriptions_keeps.
  - unfold _createChild in H.
    destruct (_setChildKeys isDirKey fuel s nodeKey [childKey]) as [s1|] eqn:H1;
      simplify_eq/=.
    eapply keeps_safe_trans; [by eapply _setChildKeys_keeps|].
    apply _set_isDirtyMap_keeps.
  - simplify_eq. unfold _setVcsStatuses.
    destruct (decide _); [apply keeps_safe_refl|by apply same_subscriptions_keeps].
Qed.

Lemma reset_keeps s : keeps_safe s (reset s).
Proof.
  clear isDirKey getDirectoryByKey.
  intros (Hlive & Hinj & Hnd & Hlt).
  destruct (reset_spec s) as (Hd & Hdisp & _).
  assert (nextDisposable (reset s) = nextDisposable s) as Hnext.
  { assert (∀ l s0, nextDisposable
              (foldl (λ st nodeKey,
                        match subscriptionMap (_data st) !! nodeKey with
                        | Some subscription => dispose st subscription
                        | None => st
                        end) s0 l) = nextDisposable s0) as Hl.
    { induction l as [|y l IH]; intros s0; [done|]. simpl.
      destruct (subscriptionMap (_data s0) !! y); by rewrite IH. }
    unfold reset. cbv zeta. simpl. apply Hl. }
  unfold subscriptions_safe. rewrite Hd, Hdisp, Hnext. simpl. split_and!.
  - intros k h Hk. by rewrite lookup_empty in Hk.
  - intros k1 k2 h Hk. by rewrite lookup_empty in Hk.
  - apply NoDup_app. split_and!; [done| |].
    + intros h Hin ([k h'] & -> & Hk%elem_of_map_to_list)%list_elem_of_fmap.
      simpl in Hin. by destruct (Hlive _ _ Hk).
    + apply NoDup_fmap_2_strong; [|apply NoDup_map_to_list].
      intros [k1 h1] [k2 h2] H1%elem_of_map_to_list H2%elem_of_map_to_list E.
      simpl in E. subst h2. f_equal. by apply (Hinj _ _ h1).
  - intros h [Hin|([k h'] & -> & Hk%elem_of_map_to_list)%list_elem_of_fmap]%elem_of_app;
      [by apply Hlt|].
    simpl. by destruct (Hlive _ _ Hk).
Qed.

Lemma loadData_keeps s data : keeps_safe s (loadData getDirectoryByKey s data).
Proof.
  clear isDirKey.
  unfold loadData. destruct (negb _); [apply keeps_safe_refl|]. cbv zeta.
  match goal with
  | |- keeps_safe _ (foldl _ ?x _) => apply (keeps_safe_trans _ x)
  end.
  - unfold keeps_safe, subscriptions_safe. simpl.
    intros (_ & _ & Hnd & Hlt). split_and!; [| |done|done].
    + intros k h Hk. by rewrite lookup_empty in Hk.
    + intros k1 k2 h Hk. by rewrite lookup_empty in Hk.
  - apply foldl_writes; [apply keeps_safe_refl|apply keeps_safe_trans|].
    intros s1 k. eapply keeps_safe_trans;
      [apply _addSubscription_keeps|apply _fetchChildKeys_keeps].
Qed.

Lemma step_keeps fuel s ev s' :
  step isDirKey getDirectoryByKey fuel s ev = Some s' → keeps_safe s s'.
Proof.
  destruct ev; simpl; intros H.
  - by eapply _onDispatch_keeps.
  - simplify_eq. unfold getChildKeys. cbv zeta. simpl.
    destruct (_ || _); [apply _fetchChildKeys_keeps|apply _checkTrackedNode_keeps].
  - destruct (pendingFetches s !! promise) as [k|]; [|done].
    eapply keeps_safe_trans;
      [apply (same_subscriptions_keeps _
               {| _data := _data s; _logger := _logger s;
                  fetchChildrenCalls := fetchChildrenCalls s;
                  pendingFetches := delete promise (pendingFetches s);
                  nextPromise := nextPromise s;
                  onDidChangeCalls := onDidChangeCalls s;
                  nextDisposable := nextDisposable s;
                  disposedSubscriptions := disposedSubscriptions s;
                  changeCallbacks := changeCallbacks s |}); done|].
    destruct result as [childKeys|].
    + unfold _fetchChildKeys_then in H.
      destruct (getRootForKey _ k); [|simplify_eq; apply keeps_safe_refl].
      destruct (_setChildKeys isDirKey fuel _ k childKeys) as [s1|] eqn:H1;
        simplify_eq/=.
      eapply keeps_safe_trans; [by eapply _setChildKeys_keeps|].
      eapply keeps_safe_trans; [apply _addSubscription_keeps|apply _clearLoading_keeps].
    + unfold _fetchChildKeys_catch in H. cbv zeta in H.
      match type of H with
      | context [logger_error ?x ?e] => apply (keeps_safe_trans _ (logger_error x e))
      end; [apply logger_error_keeps|].
      destruct (getRootForKey _ k) as [r|].
      * destruct (_collapseNode isDirKey fuel _ r k) as [s1|] eqn:H1; simplify_eq/=.
        eapply keeps_safe_trans; [by eapply _collapseNode_keeps|].
        apply _clearLoading_keeps.
      * simplify_eq/=. apply _clearLoading_keeps.
  - destruct (hasChangeCallback s nodeKey); [|done]. simplify_eq.
    apply _fetchChildKeys_keeps.
  - simplify_eq. apply loadData_keeps.
  - simplify_eq. apply reset_keeps.
Qed.

(** In every state the store can reach, no subscription has been disposed
    twice, no subscription it still holds has been disposed, and no two
    directories share a subscription. *)
Theorem subscriptions_disposed_once st :
  reachable isDirKey getDirectoryByKey st →
  NoDup (disposedSubscriptions st) ∧
  (∀ k h, subscriptionMap (_data st) !! k = Some h → h ∉ disposedSubscriptions st) ∧
  (∀ k1 k2 h, subscriptionMap (_data st) !! k1 = Some h →
              subscriptionMap (_data st) !! k2 = Some h → k1 = k2).
Proof.
  intros Hst.
  assert (subscriptions_safe st) as (Hlive & Hinj & Hnd & _).
  { induction Hst as [|fuel st ev st' _ IH Hstep].
    - unfold subscriptions_safe. simpl. split_and!.
      + intros k h Hk. by rewrite lookup_empty in Hk.
      + intros k1 k2 h Hk. by rewrite lookup_empty in Hk.
      + apply NoDup_nil_2.
      + intros h Hin. by apply elem_of_nil in Hin.
    - by apply (step_keeps _ _ _ _ Hstep). }
  split_and!; [done| |done].
  intros k h Hk. by destruct (Hlive _ _ Hk).
Qed.

(** ** Directories that cannot be watched, and released directories *)

(** When the listing of a directory settles and [onDidChange] throws for
    it, the callback returns on a cache that is a tree of paths; the child
    list is installed all the same and the dirty mark of the directory is
    removed, the failure is logged once, and the directory stays without a
    subscription. *)
Theorem _fetchChildKeys_then_unwatchable fuel st k childKeys d :
  getDirectoryByKey k = Some d → onDidChange_throws d = true →
  subscriptionMap (_data st) !! k = None →
  is_Some (getRootForKey st k) →
  (child_keys_extend st → longest_child_key st < fuel →
   is_Some (_fetchChildKeys_then isDirKey getDirectoryByKey fuel st k childKeys)) ∧
  (∀ st',
     _fetchChildKeys_then isDirKey getDirectoryByKey fuel st k childKeys = Some st' →
     subscriptionMap (_data st') !! k = None ∧
     _logger st' = _logger st ++ [CannotSubscribe k] ∧
     onDidChangeCalls st' = onDidChangeCalls st ++ [k] ∧
     getCachedChildKeys st' k k = childKeys ∧
     isDirty st' k = false ∧
     isLoading st' k k = false).
Proof.
  intros Hd Ht Hk [r Hr].
  split; [intros Hext Hfuel; by apply _fetchChildKeys_then_returns|].
  intros st' H. unfold _fetchChildKeys_then in H. rewrite Hr in H.
  destruct (_setChildKeys isDirKey fuel st k childKeys) as [s1|] eqn:H1;
    simplify_eq/=.
  pose proof H1 as Hc. apply _setChildKeys_installs in Hc as (Hc & _).
  assert ((subscriptionMap (_data st) !! k = None →
           subscriptionMap (_data s1) !! k = None) ∧
          _logger s1 = _logger st ∧ onDidChangeCalls s1 = onDidChangeCalls st)
    as (Hs1 & Hl1 & Ho1).
  { revert H1.
    eapply _setChildKeys_writes with
      (R := λ s s', (subscriptionMap (_data s) !! k = None →
                     subscriptionMap (_data s') !! k = None) ∧
                    _logger s' = _logger s ∧ onDidChangeCalls s' = onDidChangeCalls s).
    - done.
    - intros s2 s3 s4 (? & ? & ?) (? & ? & ?). split_and!; [auto|congruence..].
    - done.
    - intros s2 x. unfold _removeAllSubscriptions.
      destruct (subscriptionMap (_data s2) !! x); [|done]. simpl.
      split_and!; [|done..]. intros Hn. unfold deleteProperty.
      apply lookup_delete_None. by right.
    - done.
    - done.
    - done. }
  specialize (Hs1 Hk).
  unfold _clearLoading, isLoading, _getLoading, getCachedChildKeys, isDirty.
  destruct (_checkTrackedNode_frame
              (_set_isLoadingMap (_addSubscription getDirectoryByKey s1 k)
                 (deleteProperty
                    (isLoadingMap (_data (_addSubscription getDirectoryByKey s1 k))) k)))
    as (Hcm & Hlm & _ & _ & _ & _ & Hlog & _).
  rewrite _checkTrackedNode_subscriptionMap, Hcm, Hlm, Hlog.
  assert (isDirtyMap (_data (_checkTrackedNode
            (_set_isLoadingMap (_addSubscription getDirectoryByKey s1 k)
               (deleteProperty
                  (isLoadingMap (_data (_addSubscription getDirectoryByKey s1 k))) k))))
          = isDirtyMap (_data (_addSubscription getDirectoryByKey s1 k))) as ->.
  { unfold _checkTrackedNode. destruct (trackedNode _); [|done]. by destruct (decide _). }
  assert (onDidChangeCalls (_checkTrackedNode
            (_set_isLoadingMap (_addSubscription getDirectoryByKey s1 k)
               (deleteProperty
                  (isLoadingMap (_data (_addSubscription getDirectoryByKey s1 k))) k)))
          = onDidChangeCalls (_addSubscription getDirectoryByKey s1 k)) as ->.
  { unfold _checkTrackedNode. destruct (trackedNode _); [|done]. by destruct (decide _). }
  unfold _addSubscription. rewrite Hd. cbv zeta. simpl. rewrite Hs1, Ht. simpl.
  unfold deleteProperty. rewrite !lookup_delete_eq. rewrite Hc, Hl1, Ho1. done.
Qed.

(** Once [_removeSubscription(r, k)] has released the subscription of [k],
    the cached children of [k] count as stale: [getChildKeys] still
    returns them, under whatever root it is asked, and, when no listing of
    [k] is pending, asks for a new one. *)
Theorem released_directory_refetched st r k h :
  subscriptionMap (_data st) !! k = Some h →
  ¬ other_root_expands st r k →
  isDirty (_removeSubscription st r k) k = true ∧
  ∀ r', (getChildKeys (_removeSubscription st r k) r' k).2 = getCachedChildKeys st r' k ∧
        (_getLoading st k = None →
         fetchChildrenCalls (getChildKeys (_removeSubscription st r k) r' k).1
         = fetchChildrenCalls st ++ [k] ∧
         isLoading (getChildKeys (_removeSubscription st r k) r' k).1 r' k = true).
Proof.
  clear isDirKey getDirectoryByKey.
  intros Hk Hother. unfold _removeSubscription. rewrite Hk.
  destruct (existsb _ _) eqn:He.
  { by apply hasRemainingSubscribers_spec in He. }
  cbv zeta. unfold getChildKeys, isDirty, getCachedChildKeys, setProperty. simpl.
  rewrite lookup_insert_eq. simpl. rewrite orb_true_r. split; [done|].
  intros r'. split; [done|]. intros Hl.
  unfold _fetchChildKeys, _getLoading in *. simpl. rewrite Hl. simpl.
  split; [done|]. unfold isLoading, _getLoading. simpl.
  apply bool_decide_eq_true. unfold setProperty. rewrite lookup_insert_eq. eauto.
Qed.

(** The status annotations written for a root are the ones read back for
    it, those of the other roots stay, and writing the annotations a root
    already has changes nothing. *)
Theorem _setVcsStatuses_spec st r vcsStatuses :
  (∀ k, getVcsStatusCode (_setVcsStatuses st r vcsStatuses) r k = vcsStatuses !! k) ∧
  (∀ r' k, r' ≠ r →
     getVcsStatusCode (_setVcsStatuses st r vcsStatuses) r' k
     = getVcsStatusCode st r' k) ∧
  (vcsStatusesByRoot (_data st) !! r = Some vcsStatuses →
   _setVcsStatuses st r vcsStatuses = st).
Proof.
  clear isDirKey getDirectoryByKey.
  unfold _setVcsStatuses, getVcsStatusCode.
  destruct (decide _) as [E|E].
  - split_and!; [|done..]. intros k. by rewrite E.
  - unfold setProperty. simpl. split_and!; [| |done].
    + intros k. by rewrite lookup_insert_eq.
    + intros r' k Hne. by rewrite lookup_insert_ne.
Qed.

(** ** Acquiring and releasing the subscription of a key *)

Lemma _fetchChildKeys_subscriptionMap s x :
  subscriptionMap (_data (_fetchChildKeys s x).1) = subscriptionMap (_data s).
Proof.
  clear isDirKey getDirectoryByKey.
  unfold _fetchChildKeys. by destruct (_getLoading s x).
Qed.

Lemma _addSubscription_keeps_held s x k :
  is_Some (subscriptionMap (_data s) !! k) →
  is_Some (subscriptionMap (_data (_addSubscription getDirectoryByKey s x)) !! k).
Proof.
  clear isDirKey.
  intros Hk. unfold _addSubscription.
  destruct (getDirectoryByKey x) as [dir|]; [|done]. simpl.
  destruct (subscriptionMap (_data s) !! x) eqn:Hx; [done|].
  destruct (onDidChange_throws dir); [done|]. simpl. unfold setProperty.
  destruct (decide (k = x)) as [->|Hne]; [by rewrite lookup_insert_eq|].
  by rewrite lookup_insert_ne.
Qed.

Lemma loadData_subscribes st data k d :
  version data = VERSION →
  is_Some (ex_childKeyMap data !! k) →
  getDirectoryByKey k = Some d → onDidChange_throws d = false →
  is_Some (subscriptionMap (_data (loadData getDirectoryByKey st data)) !! k).
Proof.
  clear isDirKey.
  intros Hv Hk Hd Ht. unfold loadData. rewrite Hv. simpl.
  apply elem_of_Object_keys in Hk. revert Hk.
  generalize (Object_keys (ex_childKeyMap data)) as l.
  match goal with |- ∀ l, _ → is_Some (subscriptionMap (_data (foldl _ ?s0 l)) !! k) =>
    generalize s0
  end.
  intros s l Hin.
  assert (∀ l s,
    k ∈ l ∨ is_Some (subscriptionMap (_data s) !! k) →
    is_Some (subscriptionMap
               (_data (foldl (λ st nodeKey,
                                (_fetchChildKeys
                                   (_addSubscription getDirectoryByKey st nodeKey)
                                   nodeKey).1) s l)) !! k)) as Hloop.
  { clear s l Hin. induction l as [|x l IHl]; intros s H; cbn [foldl].
    - destruct H as [H|H]; [by apply elem_of_nil in H|done].
    - apply IHl. rewrite _fetchChildKeys_subscriptionMap.
      destruct H as [[->|H]%elem_of_cons|H].
      + right. by apply (_addSubscription_acquires _ _ d).
      + by left.
      + right. by apply _addSubscription_keeps_held. }
  apply Hloop. by left.
Qed.

Lemma _expandNode_subscriptionMap fuel st r k st' :
  _expandNode fuel st r k = Some st' →
  subscriptionMap (_data st') = subscriptionMap (_data st).
Proof.
  clear isDirKey getDirectoryByKey.
  eapply _expandNode_writes with
    (R := λ s s', subscriptionMap (_data s') = subscriptionMap (_data s)).
  - done.
  - intros s1 s2 s3 H1 H2. by rewrite H2.
  - done.
  - done.
Qed.

Lemma _fetchChildKeys_then_acquires fuel st k childKeys st' d :
  getDirectoryByKey k = Some d → onDidChange_throws d = false →
  is_Some (getRootForKey st k) →
  _fetchChildKeys_then isDirKey getDirectoryByKey fuel st k childKeys = Some st' →
  is_Some (subscriptionMap (_data st') !! k).
Proof.
  intros Hd Ht [r Hr] H.
  unfold _fetchChildKeys_then in H. rewrite Hr in H.
  destruct (_setChildKeys _ _ _ _ _) as [st1|]; simplify_eq/=.
  unfold _clearLoading. rewrite _checkTrackedNode_subscriptionMap. simpl.
  by eapply _addSubscription_acquires.
Qed.

(** C2, amended.  The subscription of a key is acquired when a listing of
    the key succeeds under a registered root and the directory can be
    watched, and when [loadData] imports a cached entry of the key and the
    directory can be watched, in both cases whether the key is expanded or
    not; on a cache that is a tree of paths the callback of the listing
    returns.  [_expandNode] leaves the key expanded and the subscriptions
    as they are, and returns when the remembered expansions follow the
    paths.  [_addSubscription] on a key whose handle is held leaves the
    map alone, asks for no second watch and disposes nothing; and
    [_removeSubscription(root, k)] on a held handle disposes it, removes
    the map entry and marks [k] dirty exactly when no other registered root
    has [k] expanded, and otherwise, or when no handle is held, changes
    nothing. *)
Theorem subscription_acquire_release st k :
  (∀ fuel childKeys st' d,
     getDirectoryByKey k = Some d → onDidChange_throws d = false →
     is_Some (getRootForKey st k) →
     _fetchChildKeys_then isDirKey getDirectoryByKey fuel st k childKeys = Some st' →
     is_Some (subscriptionMap (_data st') !! k)) ∧
  (∀ h, subscriptionMap (_data st) !! k = Some h →
     subscriptionMap (_data (_addSubscription getDirectoryByKey st k))
     = subscriptionMap (_data st) ∧
     onDidChangeCalls (_addSubscription getDirectoryByKey st k)
     = onDidChangeCalls st ∧
     disposedSubscriptions (_addSubscription getDirectoryByKey st k)
     = disposedSubscriptions st) ∧
  (∀ r h, subscriptionMap (_data st) !! k = Some h → ¬ other_root_expands st r k →
     let st' := _removeSubscription st r k in
     disposedSubscriptions st' = disposedSubscriptions st ++ [h] ∧
     subscriptionMap (_data st') = delete k (subscriptionMap (_data st)) ∧
     isDirtyMap (_data st') !! k = Some true) ∧
  (∀ r, subscriptionMap (_data st) !! k = None ∨ other_root_expands st r k →
     _removeSubscription st r k = st) ∧
  (∀ (fuel : nat) childKeys d,
     getDirectoryByKey k = Some d → onDidChange_throws d = false →
     is_Some (getRootForKey st k) →
     child_keys_extend st → longest_child_key st < fuel →
     ∃ st', _fetchChildKeys_then isDirKey getDirectoryByKey fuel st k childKeys
            = Some st' ∧
            is_Some (subscriptionMap (_data st') !! k)) ∧
  (∀ data d,
     version data = VERSION → is_Some (ex_childKeyMap data !! k) →
     getDirectoryByKey k = Some d → onDidChange_throws d = false →
     is_Some (subscriptionMap (_data (loadData getDirectoryByKey st data)) !! k)) ∧
  (∀ (fuel : nat) r,
     (previouslyExpanded_extend st r → longest_previouslyExpanded st r < fuel →
      is_Some (_expandNode fuel st r k)) ∧
     (∀ st', _expandNode fuel st r k = Some st' →
             k ∈ _getExpandedKeys st' r ∧
             subscriptionMap (_data st') = subscriptionMap (_data st))).
Proof.
  split_and!.
  - intros fuel childKeys st' d. apply _fetchChildKeys_then_acquires.
  - apply _addSubscription_held.
  - intros r h Hh Hno. unfold _removeSubscription. rewrite Hh.
    destruct (existsb _ _) eqn:E.
    + by apply hasRemainingSubscribers_spec in E.
    + simpl. unfold setProperty. by rewrite lookup_insert_eq.
  - intros r [Hn|Hother]; unfold _removeSubscription.
    + by rewrite Hn.
    + destruct (subscriptionMap (_data st) !! k); [|done].
      apply hasRemainingSubscribers_spec in Hother. by rewrite Hother.
  - intros fuel childKeys d Hd Ht Hr Hext Hfuel.
    destruct (_fetchChildKeys_then_returns st k childKeys Hext fuel Hfuel)
      as [st' Hrun].
    exists st'. split; [done|]. by eapply _fetchChildKeys_then_acquires.
  - intros data d. apply loadData_subscribes.
  - intros fuel r. split.
    + intros Hext Hfuel. apply (_expandNode_returns st r Hext); [done|lia].
    + intros st' Hrun. split.
      * by apply _expandNode_effect in Hrun as (? & _).
      * by eapply _expandNode_subscriptionMap.
Qed.

End Proofs.

(** * Concrete runs *)

(** C9.  In a store reached through the dispatcher one root is left with an
    empty selection and another root has exactly one selected key: exactly
    one root has a non-empty selection, of one key, and [getSelectedNodes]
    returns the node of that key alone.  [getSingleSelectedNode] counts the
    entries of [selectedKeysByRoot], finds two, and returns null. *)
Theorem getSingleSelectedNode_empty_entry :
  reachable isDirKey_slash getDirectoryByKey_watchable two_roots_store ∧
  selectedKeysByRoot (_data two_roots_store) = {[ "/a/" := []; "/b/" := ["/b/x"] ]} ∧
  exactly_one_root_selects_one_key two_roots_store ∧
  getSelectedNodes two_roots_store = [getNode "/b/" "/b/x"] ∧
  getSingleSelectedNode two_roots_store = None.
Proof.
  split_and!.
  - apply run_reachable_default. refine (bool_decide_unpack _ _). vm_compute. exact I.
  - vm_compute. reflexivity.
  - exists "/b/", "/b/x". split; [vm_compute; reflexivity|].
    refine (bool_decide_unpack _ _). vm_compute. exact I.
  - vm_compute. reflexivity.
  - vm_compute. reflexivity.
Qed.

Lemma loadData_exportData_witness :
  same_view one_root_store
    (loadData getDirectoryByKey_watchable newStore (exportData one_root_store)) ∧
  loadData getDirectoryByKey_watchable one_root_store stale_export = one_root_store.
Proof.
  split.
  - apply (loadData_exportData getDirectoryByKey_watchable one_root_store).
    refine (bool_decide_unpack _ _). vm_compute. exact I.
  - apply (loadData_exportData getDirectoryByKey_watchable one_root_store).
    vm_compute. lia.
Defined.

Lemma _fetchChildKeys_once_witness :
  let st := (getChildKeys one_root_store "/a/" "/a/d/").1 in
  _fetchChildKeys st "/a/d/" = (st, 1) ∧
  fetchChildrenCalls (getChildKeys_calls one_root_store ["/a/"; "/a/"; "/a/"] "/a/d/")
  = fetchChildrenCalls one_root_store ++ ["/a/d/"].
Proof.
  split.
  - apply _fetchChildKeys_once. vm_compute. reflexivity.
  - apply (_fetchChildKeys_once one_root_store "/a/d/");
      [discriminate | vm_compute; reflexivity | vm_compute; reflexivity].
Defined.

Lemma change_notifications_coalesce_witness :
  let st := Notification._set nat (Notification.init nat 0) (Some 1) false in
  let st' := Notification.apply_mutations nat st [[Some 2; None]; [Some 3]] in
  Notification.emitted nat (Notification.runImmediates nat st')
  = Notification.emitted nat st + 1.
Proof.
  apply (change_notifications_coalesce nat
           (Notification._set nat (Notification.init nat 0) (Some 1) false)).
  - apply Notification.reachable_set, Notification.reachable_init.
  - discriminate.
  - repeat constructor; [exists 2|exists 3]; set_solver.
Defined.

(** C2 as stated fails: once the listing of a collapsed root has settled,
    the root is subscribed and expanded under no root. *)
Lemma subscribed_iff_expanded_counterexample :
  ¬ (∀ st, reachable isDirKey_slash getDirectoryByKey_watchable st →
           subscribed_iff_expanded st).
Proof.
  intros H. specialize (H collapsed_root_store).
  destruct (H (run_reachable_default _ _ 3 collapsed_root_trace
                 ltac:(refine (bool_decide_unpack _ _); vm_compute; exact I)) "/a/")
    as [Hsub _].
  destruct Hsub as [r Hr].
  - vm_compute. eauto.
  - unfold _getExpandedKeys in Hr.
    assert (expandedKeysByRoot (_data collapsed_root_store) = ∅) as E
      by (vm_compute; reflexivity).
    rewrite E, lookup_empty in Hr. simpl in Hr. set_solver.
Qed.

Lemma subscription_acquire_release_witness :
  let st0 :=
    default newStore
      (run isDirKey_slash getDirectoryByKey_watchable 3 newStore
         (take 2 collapsed_root_trace)) in
  let st1 :=
    default newStore
      (run isDirKey_slash getDirectoryByKey_watchable 3 newStore
         (take 1 collapsed_root_trace)) in
  is_Some
    (subscriptionMap
       (_data
          (default newStore
             (_fetchChildKeys_then isDirKey_slash getDirectoryByKey_watchable 3 st0
                "/a/" ["/a/d/"; "/a/f"]))) !! "/a/") ∧
  disposedSubscriptions (_removeSubscription collapsed_root_store "/a/" "/a/") = [0] ∧
  _removeSubscription collapsed_root_store "/a/" "/a/d/" = collapsed_root_store ∧
  (∃ st', _fetchChildKeys_then isDirKey_slash getDirectoryByKey_watchable 3 st0
            "/a/" ["/a/d/"; "/a/f"] = Some st' ∧
          is_Some (subscriptionMap (_data st') !! "/a/")) ∧
  is_Some
    (subscriptionMap
       (_data (loadData getDirectoryByKey_watchable newStore (exportData one_root_store)))
     !! "/a/") ∧
  (∃ st', _expandNode 3 st1 "/a/" "/a/" = Some st' ∧
          "/a/" ∈ _getExpandedKeys st' "/a/" ∧
          subscriptionMap (_data st') !! "/a/" = None).
Proof.
  pose proof (subscription_acquire_release isDirKey_slash getDirectoryByKey_watchable)
    as H.
  intros st0 st1. split_and!.
  - destruct (H st0 "/a/") as (H1 & _).
    eapply (H1 3 ["/a/d/"; "/a/f"]);
      [reflexivity | reflexivity | vm_compute; eauto | vm_compute; reflexivity].
  - destruct (H collapsed_root_store "/a/") as (_ & _ & H3 & _).
    destruct (H3 "/a/" 0) as (Hd & _); [vm_compute; reflexivity| |exact Hd].
    intros (r & Hin & Hne & _).
    assert (rootKeys (_data collapsed_root_store) = ["/a/"]) as E
      by (vm_compute; reflexivity).
    rewrite E in Hin. apply list_elem_of_singleton in Hin. done.
  - destruct (H collapsed_root_store "/a/d/") as (_ & _ & _ & H4 & _).
    apply H4. left. vm_compute. reflexivity.
  - destruct (H st0 "/a/") as (_ & _ & _ & _ & H5 & _).
    apply (H5 3 ["/a/d/"; "/a/f"] {| onDidChange_throws := false |}).
    + reflexivity.
    + reflexivity.
    + refine (bool_decide_unpack _ _). vm_compute. exact I.
    + apply child_keys_extend_check. refine (bool_decide_unpack _ _).
      vm_compute. exact I.
    + vm_compute. lia.
  - destruct (H newStore "/a/") as (_ & _ & _ & _ & _ & H6 & _).
    apply (H6 (exportData one_root_store) {| onDidChange_throws := false |}).
    + reflexivity.
    + refine (bool_decide_unpack _ _). vm_compute. exact I.
    + reflexivity.
    + reflexivity.
  - destruct (H st1 "/a/") as (_ & _ & _ & _ & _ & _ & H7).
    destruct (H7 3 "/a/") as [Hret Heff].
    destruct Hret as [st' Hrun].
    + apply previouslyExpanded_extend_check. refine (bool_decide_unpack _ _).
      vm_compute. exact I.
    + vm_compute. lia.
    + exists st'. split; [exact Hrun|].
      destruct (Heff st' Hrun) as [Hexp Hsub]. split; [exact Hexp|].
      rewrite Hsub. vm_compute. reflexivity.
Defined.

(** C1 as stated fails: a selected file of a purged directory stays
    selected. *)
Lemma _purgeDirectory_counterexample :
  ¬ (∀ fuel st k st',
       reachable isDirKey_slash getDirectoryByKey_watchable st →
       _purgeDirectory isDirKey_slash fuel st k = Some st' →
       ∀ d, String.prefix k d = true → purged st' d).
Proof.
  intros H.
  assert (purged purged_directory_store "/a/d/g") as (_ & _ & _ & Hsel).
  { apply (H 4 selected_file_store "/a/d/").
    - apply run_reachable_default. refine (bool_decide_unpack _ _).
      vm_compute. exact I.
    - vm_compute. reflexivity.
    - reflexivity. }
  apply (Hsel "/a/" ["/a/d/g"]).
  - vm_compute. reflexivity.
  - apply list_elem_of_here.
Qed.

Lemma _purgeDirectory_cascade_witness :
  is_Some (_purgeDirectory isDirKey_slash 8 selected_file_store "/a/d/") ∧
  purged purged_directory_store "/a/d/e/".
Proof.
  split.
  - apply (_purgeDirectory_cascade isDirKey_slash getDirectoryByKey_watchable
             selected_file_store "/a/d/").
    + apply child_keys_extend_check. refine (bool_decide_unpack _ _).
      vm_compute. exact I.
    + vm_compute. lia.
  - eapply (proj2 (_purgeDirectory_cascade isDirKey_slash getDirectoryByKey_watchable
                     selected_file_store "/a/d/") 4).
    + vm_compute. reflexivity.
    + apply (container_descendant_step _ _ "/a/d/" ["/a/d/e/"; "/a/d/g"] "/a/d/e/").
      * vm_compute. reflexivity.
      * apply list_elem_of_here.
      * reflexivity.
      * apply container_descendant_refl.
Defined.

Lemma _setChildKeys_purges_removed_directories_witness :
  purged relisted_root_store "/a/d/" ∧ purged relisted_root_store "/a/d/e/" ∧
  is_Some (_setChildKeys isDirKey_slash 8 selected_file_store "/a/" ["/a/f"]) ∧
  is_Some (_createChild isDirKey_slash 8 selected_file_store "/a/" "/a/f") ∧
  is_Some (_fetchChildKeys_then isDirKey_slash getDirectoryByKey_watchable 8
             selected_file_store "/a/" ["/a/f"]).
Proof.
  pose proof (_setChildKeys_purges_removed_directories isDirKey_slash
                getDirectoryByKey_watchable selected_file_store "/a/")
    as (H1 & _ & _ & H4).
  assert (removed_children_purged isDirKey_slash selected_file_store "/a/" ["/a/f"]
            relisted_root_store) as H.
  { apply (H1 4). vm_compute. reflexivity. }
  destruct (H ["/a/d/"; "/a/f"] "/a/d/") as [Hp Hd].
  { vm_compute. reflexivity. }
  { apply list_elem_of_here. }
  { reflexivity. }
  { intros Hin. apply list_elem_of_singleton in Hin. discriminate. }
  assert (child_keys_extend selected_file_store) as Hext.
  { apply child_keys_extend_check. refine (bool_decide_unpack _ _).
    vm_compute. exact I. }
  destruct (H4 Hext 8 ["/a/f"]) as (Hr1 & Hr2 & Hr3); [vm_compute; lia|].
  split_and!.
  - exact Hp.
  - apply Hd; [|discriminate].
    apply (container_descendant_step _ _ "/a/d/" ["/a/d/e/"; "/a/d/g"] "/a/d/e/").
    + vm_compute. reflexivity.
    + apply list_elem_of_here.
    + reflexivity.
    + apply container_descendant_refl.
  - exact Hr1.
  - exact (Hr2 "/a/f").
  - exact Hr3.
Defined.

Lemma _fetchChildKeys_catch_recovers_witness :
  is_Some (_fetchChildKeys_catch isDirKey_slash 8 selected_file_store "/a/d/") ∧
  fetch_failure_recovered selected_file_store "/a/d/" failed_listing_store.
Proof.
  pose proof (_fetchChildKeys_catch_recovers isDirKey_slash
                getDirectoryByKey_watchable selected_file_store "/a/d/")
    as [H1 H2].
  split.
  - apply H2; [|vm_compute; lia].
    apply child_keys_extend_check. refine (bool_decide_unpack _ _).
    vm_compute. exact I.
  - apply (H1 4). vm_compute. reflexivity.
Defined.

Lemma _purgeDirectory_idempotent_witness :
  _purgeDirectory isDirKey_slash 1 purged_directory_store "/a/d/"
  = Some purged_directory_store.
Proof.
  apply (_purgeDirectory_idempotent isDirKey_slash getDirectoryByKey_watchable 4
           selected_file_store).
  vm_compute. reflexivity.
Defined.

Lemma _fetchChildKeys_then_settles_witness :
  getCachedChildKeys relisted_directory_store "/a/d/" "/a/d/" = ["/a/d/x"] ∧
  _fetchChildKeys rootless_pending_store "/a/" = (rootless_pending_store, 0) ∧
  is_Some (_fetchChildKeys_then isDirKey_slash getDirectoryByKey_watchable 8
             one_root_store "/a/d/" ["/a/d/x"]).
Proof.
  split_and!.
  - destruct (_fetchChildKeys_then_settles isDirKey_slash getDirectoryByKey_watchable
                4 one_root_store "/a/d/" ["/a/d/x"]) as (H & _ & _).
    apply (H relisted_directory_store).
    + refine (bool_decide_unpack _ _). vm_compute. exact I.
    + vm_compute. reflexivity.
  - destruct (_fetchChildKeys_then_settles isDirKey_slash getDirectoryByKey_watchable
                4 rootless_pending_store "/a/" []) as (_ & H & _).
    destruct (H 0) as (st' & _ & -> & _ & H').
    + vm_compute. reflexivity.
    + vm_compute. reflexivity.
    + exact H'.
  - destruct (_fetchChildKeys_then_settles isDirKey_slash getDirectoryByKey_watchable
                8 one_root_store "/a/d/" ["/a/d/x"]) as (_ & _ & H).
    apply H.
    + apply child_keys_extend_check. refine (bool_decide_unpack _ _).
      vm_compute. exact I.
    + vm_compute. lia.
Defined.

Lemma _setRootKeys_spec_witness :
  childKeyMap (_data (_setRootKeys isDirKey_slash one_root_store ["/b/"])) !! "/a/"
  = None.
Proof.
  apply (_setRootKeys_spec isDirKey_slash one_root_store ["/b/"]).
  refine (bool_decide_unpack _ _). vm_compute. exact I.
Defined.

Lemma reset_spec_witness : 0 ∈ disposedSubscriptions (reset collapsed_root_store).
Proof.
  apply (proj2 (proj2 (reset_spec collapsed_root_store)) "/a/" 0).
  vm_compute. reflexivity.
Defined.

Lemma exportData_childKeyMap_witness :
  ex_childKeyMap (exportData one_root_store) !! "/a/"
  = Some (childKeyMap (_data one_root_store) !! "/a/") ∧
  ex_childKeyMap (exportData one_root_store) !! "/a/d/" = None.
Proof.
  split.
  - apply (exportData_childKeyMap one_root_store "/a/").
    exists "/a/", (default ∅ (expandedKeysByRoot (_data one_root_store) !! "/a/")).
    split; [vm_compute; reflexivity|].
    refine (bool_decide_unpack _ _). vm_compute. exact I.
  - apply (exportData_childKeyMap one_root_store "/a/d/").
    refine (bool_decide_unpack _ _). vm_compute. exact I.
Defined.

Lemma loadData_refetches_witness :
  fetchChildrenCalls
    (loadData getDirectoryByKey_watchable newStore (exportData one_root_store))
  = Object_keys (ex_childKeyMap (exportData one_root_store)).
Proof.
  apply (loadData_refetches getDirectoryByKey_watchable newStore
           (exportData one_root_store)).
  reflexivity.
Defined.

Lemma getVisibleNodes_listed_witness :
  Forall (listed_for isDirKey_slash late_listing_store "/a/" late_listing_visible)
    late_listing_visible ∧
  ∃ n : nat, ∀ fuel : nat,
    (n ≤ fuel)%nat → is_Some (getVisibleNodes isDirKey_slash fuel late_listing_store "/a/").
Proof.
  destruct (getVisibleNodes_listed isDirKey_slash late_listing_store "/a/")
    as (_ & _ & Hret & Hl).
  split.
  - apply (Hl 5). vm_compute. reflexivity.
  - apply Hret. apply child_keys_extend_check. refine (bool_decide_unpack _ _).
    vm_compute. exact I.
Defined.

Lemma getVisibleNodes_children_witness :
  isExpanded late_listing_store "/a/" "/a/d/" = false ∧
  getNode "/a/d/" "/a/d/g" ∈ late_listing_visible ∧
  ∃ n : nat, ∀ fuel : nat,
    (n ≤ fuel)%nat → is_Some (getVisibleNodes isDirKey_slash fuel late_listing_store "/a/").
Proof.
  destruct (getVisibleNodes_children isDirKey_slash late_listing_store "/a/")
    as [Hret Hc]; [vm_compute; reflexivity|].
  split_and!; [vm_compute; reflexivity| |].
  - destruct (Hc 5 late_listing_visible) with (d := "/a/d/") (childKeys := ["/a/d/g"])
      (c := "/a/d/g") as [Hleaf _].
    + vm_compute. reflexivity.
    + refine (bool_decide_unpack _ _). vm_compute. exact I.
    + vm_compute. reflexivity.
    + vm_compute. reflexivity.
    + apply list_elem_of_here.
    + apply Hleaf. reflexivity.
  - apply Hret. apply child_keys_extend_check. refine (bool_decide_unpack _ _).
    vm_compute. exact I.
Defined.

Lemma _expandNode_spec_witness :
  is_Some (_expandNode 8 collapsed_tree_store "/a/" "/a/") ∧
  previouslyExpanded_under expanded_again_store "/a/"
  = delete "/a/" (previouslyExpanded_under collapsed_tree_store "/a/") ∧
  previouslyExpanded_under expanded_again_store "/a/" !! "/a/d/" = Some ["/a/d/e/"].
Proof.
  split_and!; [| |vm_compute; reflexivity].
  - apply (_expandNode_spec 8 collapsed_tree_store "/a/" "/a/").
    + apply previouslyExpanded_extend_check. refine (bool_decide_unpack _ _).
      vm_compute. exact I.
    + vm_compute. lia.
  - apply (proj2 (_expandNode_spec 4 collapsed_tree_store "/a/" "/a/")
             expanded_again_store).
    vm_compute. reflexivity.
Defined.

Lemma _collapseNode_then_expandNode_witness :
  is_Some (_collapseNode isDirKey_slash 8 selected_file_store "/a/" "/a/") ∧
  ∃ st2, _expandNode 4 collapsed_tree_store "/a/" "/a/" = Some st2 ∧
         expandedKeysByRoot (_data st2) = expandedKeysByRoot (_data selected_file_store) ∧
         previouslyExpanded_under st2 "/a/" !! "/a/" = None.
Proof.
  pose proof (_collapseNode_then_expandNode isDirKey_slash getDirectoryByKey_watchable
                selected_file_store "/a/" "/a/") as H.
  destruct H as [H1 H2].
  - apply child_keys_extend_check. refine (bool_decide_unpack _ _).
    vm_compute. exact I.
  - refine (bool_decide_unpack _ _). vm_compute. exact I.
  - split.
    + apply H1. vm_compute. lia.
    + apply (H2 4 collapsed_tree_store). vm_compute. reflexivity.
Defined.

Lemma getRootForKey_first_witness : String.prefix "/a/" "/a/d/" = true.
Proof.
  destruct (getRootForKey_first one_root_store "/a/d/") as [H _].
  destruct (H "/a/") as (before & after & _ & Hp & _);
    [vm_compute; reflexivity|exact Hp].
Defined.

Lemma _createChild_spec_witness :
  getCachedChildKeys created_child_store "/a/" "/a/" = ["/a/new"] ∧
  isDirty created_child_store "/a/" = true ∧
  is_Some (_createChild isDirKey_slash 8 one_root_store "/a/" "/a/new").
Proof.
  destruct (_createChild_spec isDirKey_slash getDirectoryByKey_watchable 4
              one_root_store "/a/" "/a/new") as [_ Heff].
  destruct (Heff created_child_store) as (H1 & H2 & _); [vm_compute; reflexivity|].
  split_and!; [exact H1|exact H2|].
  apply (_createChild_spec isDirKey_slash getDirectoryByKey_watchable 8
           one_root_store "/a/" "/a/new").
  - apply child_keys_extend_check. refine (bool_decide_unpack _ _).
    vm_compute. exact I.
  - vm_compute. lia.
Defined.

Lemma _collapseNode_unselects_children_witness :
  isSelected selected_file_store "/a/" "/a/d/g" = true ∧
  isSelected collapsed_directory_store "/a/" "/a/d/g" = false.
Proof.
  split; [vm_compute; reflexivity|].
  destruct (_collapseNode_unselects_children isDirKey_slash 4 selected_file_store
              "/a/" "/a/d/" collapsed_directory_store) as (H1 & _);
    [vm_compute; reflexivity|].
  apply H1. refine (bool_decide_unpack _ _). vm_compute. exact I.
Defined.

Lemma subscriptions_disposed_once_witness :
  NoDup (disposedSubscriptions
           (default newStore
              (run isDirKey_slash getDirectoryByKey_watchable 4 newStore
                 reloaded_trace))) ∧
  disposedSubscriptions
    (default newStore
       (run isDirKey_slash getDirectoryByKey_watchable 4 newStore
          reloaded_trace)) ≠ [].
Proof.
  split; [|vm_compute; discriminate].
  apply (subscriptions_disposed_once isDirKey_slash getDirectoryByKey_watchable).
  apply run_reachable_default.
  refine (bool_decide_unpack _ _). vm_compute. exact I.
Defined.

Lemma _fetchChildKeys_then_unwatchable_witness :
  subscriptionMap (_data unwatchable_listing_store) !! "/a/" = None ∧
  _logger unwatchable_listing_store = [CannotSubscribe "/a/"] ∧
  getCachedChildKeys unwatchable_listing_store "/a/" "/a/" = ["/a/f"] ∧
  is_Some (_fetchChildKeys_then isDirKey_slash getDirectoryByKey_unwatchable 4
             pending_root_store "/a/" ["/a/f"]).
Proof.
  destruct (_fetchChildKeys_then_unwatchable isDirKey_slash getDirectoryByKey_unwatchable
              4 pending_root_store "/a/" ["/a/f"] {| onDidChange_throws := true |})
    as [Hret Heff].
  - vm_compute. reflexivity.
  - reflexivity.
  - vm_compute. reflexivity.
  - refine (bool_decide_unpack _ _). vm_compute. exact I.
  - destruct (Heff unwatchable_listing_store) as (H1 & H2 & _ & H4 & _);
      [vm_compute; reflexivity|].
    split_and!; [exact H1|exact H2|exact H4|].
    apply Hret.
    + apply child_keys_extend_check. refine (bool_decide_unpack _ _).
      vm_compute. exact I.
    + vm_compute. lia.
Defined.

Lemma released_directory_refetched_witness :
  isDirty (_removeSubscription collapsed_root_store "/a/" "/a/") "/a/" = true.
Proof.
  destruct (released_directory_refetched collapsed_root_store "/a/" "/a/" 0)
    as [H _]; [vm_compute; reflexivity| |exact H].
  intros (r & Hin & Hne & _).
  assert (rootKeys (_data collapsed_root_store) = ["/a/"]) as E
    by (vm_compute; reflexivity).
  rewrite E in Hin. apply list_elem_of_singleton in Hin. done.
Defined.
